(** * GraphQL operation-to-TypeScript translator of [functions-create.js]

    A shallow embedding of the GraphQL helpers exported by
    [src/commands/functions/functions-create.js] (the type mapper, the
    variable signature builder, the selection-set shape builder, the
    type-reference collector and the two subscription webhook patchers),
    followed by the properties proved about them, and then by the
    renderer of operation signatures and [getNpmInstallPackages] with
    theirs.

    JavaScript values that the code builds dynamically (the entries fed to
    [Object.fromEntries], the shape tree) are kept in an untyped universe
    [JsVal]; the schema and the parsed document are typed records and
    variants, as the [graphql] library delivers them.  Exceptions and
    unbounded recursion are explicit outcomes, [console.warn] is a log. *)

From Stdlib Require Import ZArith Ascii String.
From stdpp Require Import base tactics option list strings gmap fin_maps sorting pretty.

Set Warnings "-register-all".

Local Open Scope Z_scope.

(** ** JavaScript strings *)

Module Js.

Definition nl : string := String "010"%char "".

(** [''.join]: [Array.prototype.join] on an array of strings. *)
Definition join (sep : string) (l : list string) : string := String.concat sep l.

(** [s.startsWith(p)]. *)
Definition startsWith (p s : string) : bool := String.prefix p s.

Definition lowerAscii (c : ascii) : ascii :=
  let n := nat_of_ascii c in
  if (Nat.leb 65 n && Nat.leb n 90)%bool then ascii_of_nat (n + 32) else c.

(** [s.toLocaleLowerCase()] on the characters a GraphQL name can hold
    (ASCII letters, digits and the underscore), in a locale without
    special casing rules. *)
Fixpoint toLocaleLowerCase (s : string) : string :=
  match s with
  | EmptyString => EmptyString
  | String c s' => String (lowerAscii c) (toLocaleLowerCase s')
  end.

Fixpoint dropChars (n : nat) (s : string) : string :=
  match n, s with
  | O, _ => s
  | S n', String _ s' => dropChars n' s'
  | S _, EmptyString => EmptyString
  end.

(** [s.replace(pat, rep)] with a string pattern: only the first
    occurrence is replaced. *)
Fixpoint replace (pat rep s : string) : string :=
  if String.prefix pat s then rep +:+ dropChars (String.length pat) s
  else match s with
       | EmptyString => EmptyString
       | String c s' => String c (replace pat rep s')
       end.

(** Truthiness of a string and of an optional string. *)
Definition truthyStr (s : string) : bool := negb (String.eqb s "").

Definition truthyOpt (o : option string) : bool :=
  match o with Some s => truthyStr s | None => false end.

End Js.

(** ** Outcomes of a call *)

(** The exceptions the translated code can raise: a [TypeError] of the
    language (a property read on [undefined], a call of something that is
    not a function, a non-object entry given to [Object.fromEntries]) and
    the syntax error ([GraphQLError]) of [parseType]. *)
Inductive Exn : Type :=
  | TypeError
  | SyntaxError.

(** A call returns, throws, or recurses without bound (the fuel of the
    embedding is used up; in JavaScript the stack overflows). *)
Inductive Outcome (A : Type) : Type :=
  | Ok (a : A)
  | Throw (e : Exn)
  | OutOfFuel.
Arguments Ok {A} a.
Arguments Throw {A} e.
Arguments OutOfFuel {A}.

Global Instance Outcome_ret : MRet Outcome := @Ok.
Global Instance Outcome_bind : MBind Outcome := λ A B f m,
  match m with
  | Ok a => f a
  | Throw e => Throw e
  | OutOfFuel => OutOfFuel
  end.
Global Instance Outcome_fmap : FMap Outcome := λ A B f m,
  match m with
  | Ok a => Ok (f a)
  | Throw e => Throw e
  | OutOfFuel => OutOfFuel
  end.

Definition isOk {A} (o : Outcome A) : bool :=
  match o with Ok _ => true | _ => false end.

(** ** The schema, as [graphql] exposes it *)

Inductive GqlType : Type :=
  | GNamed (name : string)
  | GList (ofType : GqlType)
  | GNonNull (ofType : GqlType).

Global Instance GqlType_eq_dec : EqDecision GqlType.
Proof. solve_decision. Defined.

Record ArgDef : Type := mkArgDef {
  arg_def_name : string;
  arg_def_type : GqlType
}.

Record FieldDef : Type := mkFieldDef {
  field_name : string;
  field_type : GqlType;
  field_description : option string;
  field_args : list ArgDef
}.

Inductive TypeDef : Type :=
  | ScalarDef
  | EnumDef (values : list string)
  | ObjectDef (fields : list FieldDef)
  | InputObjectDef (fields : list FieldDef)
  | InterfaceDef (fields : list FieldDef)
  | UnionDef (types : list string).

Record Schema : Type := mkSchema {
  typeMap : gmap string TypeDef;
  queryType : option string;
  mutationType : option string;
  subscriptionType : option string
}.

Section SchemaAccess.
Variable schema : Schema.

(** [schema.getType(name)]: a named type of the schema, as a type object. *)
Definition getType (name : string) : option GqlType :=
  match typeMap schema !! name with
  | Some _ => Some (GNamed name)
  | None => None
  end.

Definition getQueryType : option GqlType := GNamed <$> queryType schema.
Definition getMutationType : option GqlType := GNamed <$> mutationType schema.
Definition getSubscriptionType : option GqlType := GNamed <$> subscriptionType schema.

Definition typeDefOf (t : GqlType) : option TypeDef :=
  match t with
  | GNamed n => typeMap schema !! n
  | _ => None
  end.

Definition isListType (t : option GqlType) : bool :=
  match t with Some (GList _) => true | _ => false end.
Definition isNonNullType (t : option GqlType) : bool :=
  match t with Some (GNonNull _) => true | _ => false end.
Definition isWrappingType (t : option GqlType) : bool :=
  isListType t || isNonNullType t.

Definition isObjectType (t : option GqlType) : bool :=
  match t ≫= typeDefOf with Some (ObjectDef _) => true | _ => false end.
Definition isInputObjectType (t : option GqlType) : bool :=
  match t ≫= typeDefOf with Some (InputObjectDef _) => true | _ => false end.
Definition isInterfaceType (t : option GqlType) : bool :=
  match t ≫= typeDefOf with Some (InterfaceDef _) => true | _ => false end.
Definition isUnionType (t : option GqlType) : bool :=
  match t ≫= typeDefOf with Some (UnionDef _) => true | _ => false end.
Definition isEnumType (t : option GqlType) : bool :=
  match t ≫= typeDefOf with Some (EnumDef _) => true | _ => false end.

(** [t.ofType]. *)
Definition ofTypeOf (t : GqlType) : option GqlType :=
  match t with
  | GNamed _ => None
  | GList t' | GNonNull t' => Some t'
  end.

(** [t.getFields()], for the kinds of type that have the method. *)
Definition getFields (t : GqlType) : option (list FieldDef) :=
  match typeDefOf t with
  | Some (ObjectDef fs) | Some (InputObjectDef fs) | Some (InterfaceDef fs) => Some fs
  | _ => None
  end.

(** [fields[name]] on the map returned by [getFields]. *)
Definition lookupField (fs : list FieldDef) (name : string) : option FieldDef :=
  List.find (λ f, String.eqb (field_name f) name) fs.

(** [t.getValues()] of an enum type, each as its [value]. *)
Definition getValues (t : GqlType) : list string :=
  match typeDefOf t with
  | Some (EnumDef vs) => vs
  | _ => []
  end.
End SchemaAccess.

(** [getNamedType(t)]: strips every wrapper. *)
Fixpoint namedTypeOf (t : GqlType) : GqlType :=
  match t with
  | GNamed n => GNamed n
  | GList t' | GNonNull t' => namedTypeOf t'
  end.

Definition getNamedType (t : option GqlType) : option GqlType := namedTypeOf <$> t.

Definition typeName (t : GqlType) : string :=
  match namedTypeOf t with GNamed n => n | _ => "" end.

(** ** The parsed document *)

Inductive TypeNode : Type :=
  | NamedTypeNode (name : string)
  | ListTypeNode (type : TypeNode)
  | NonNullTypeNode (type : TypeNode).

Global Instance TypeNode_eq_dec : EqDecision TypeNode.
Proof. solve_decision. Defined.

(** Values of arguments and defaults.  List and object literals are left
    out: none of the functions below looks inside a value. *)
Inductive ValueNode : Type :=
  | VariableNode (name : string)
  | IntValueNode (value : string)
  | FloatValueNode (value : string)
  | StringValueNode (value : string)
  | BooleanValueNode (value : bool)
  | NullValueNode
  | EnumValueNode (value : string).

Global Instance ValueNode_eq_dec : EqDecision ValueNode.
Proof. solve_decision. Defined.

Record ArgumentNode : Type := mkArgument {
  argument_name : string;
  argument_value : ValueNode
}.

Global Instance ArgumentNode_eq_dec : EqDecision ArgumentNode.
Proof. solve_decision. Defined.

Record VariableDefinitionNode : Type := mkVariableDefinition {
  variable_name : string;
  variable_type : TypeNode;
  variable_defaultValue : option ValueNode
}.

Global Instance VariableDefinitionNode_eq_dec : EqDecision VariableDefinitionNode.
Proof. solve_decision. Defined.

(** A selection.  Optional properties ([alias], [arguments], [selectionSet],
    [typeCondition]) are options: [None] is [undefined]. *)
Inductive SelectionNode : Type :=
  | FieldNode (alias : option string) (name : string)
      (arguments : option (list ArgumentNode))
      (selectionSet : option (list SelectionNode))
  | InlineFragmentNode (typeCondition : option string)
      (selectionSet : list SelectionNode)
  | FragmentSpreadNode (name : string).

Inductive OperationType : Type := OpQuery | OpMutation | OpSubscription.

Global Instance OperationType_eq_dec : EqDecision OperationType.
Proof. solve_decision. Defined.

Inductive DefinitionNode : Type :=
  | OperationDefinitionNode (operation : OperationType) (name : option string)
      (variableDefinitions : option (list VariableDefinitionNode))
      (selectionSet : option (list SelectionNode))
  | FragmentDefinitionNode (name : string) (typeCondition : string)
      (variableDefinitions : option (list VariableDefinitionNode))
      (selectionSet : option (list SelectionNode)).

Definition def_variableDefinitions (d : DefinitionNode) : option (list VariableDefinitionNode) :=
  match d with
  | OperationDefinitionNode _ _ vs _ | FragmentDefinitionNode _ _ vs _ => vs
  end.

Definition def_selectionSet (d : DefinitionNode) : option (list SelectionNode) :=
  match d with
  | OperationDefinitionNode _ _ _ ss | FragmentDefinitionNode _ _ _ ss => ss
  end.

(** [definition.operation]: fragments have no such property. *)
Definition def_operation (d : DefinitionNode) : option OperationType :=
  match d with
  | OperationDefinitionNode op _ _ _ => Some op
  | FragmentDefinitionNode _ _ _ _ => None
  end.

(** *** [print] and [parseType] on type references *)

Fixpoint print (t : TypeNode) : string :=
  match t with
  | NamedTypeNode n => n
  | ListTypeNode t' => "[" +:+ print t' +:+ "]"
  | NonNullTypeNode t' => print t' +:+ "!"
  end.

Module Parser.

Inductive token : Type :=
  | TName (s : string)
  | TBracketL
  | TBracketR
  | TBang.

Definition isNameStart (c : ascii) : bool :=
  let n := nat_of_ascii c in
  (Nat.leb 65 n && Nat.leb n 90) || (Nat.leb 97 n && Nat.leb n 122) || Nat.eqb n 95.

Definition isNameContinue (c : ascii) : bool :=
  let n := nat_of_ascii c in
  isNameStart c || (Nat.leb 48 n && Nat.leb n 57).

(** Characters the lexer skips between tokens. *)
Definition isIgnored (c : ascii) : bool :=
  let n := nat_of_ascii c in
  Nat.eqb n 9 || Nat.eqb n 10 || Nat.eqb n 13 || Nat.eqb n 32 || Nat.eqb n 44.

(** The longest run of name characters at the head of [s], and the rest. *)
Fixpoint spanName (s : string) : string * string :=
  match s with
  | String c s' =>
      if isNameContinue c then
        let '(n, r) := spanName s' in (String c n, r)
      else (EmptyString, s)
  | EmptyString => (EmptyString, EmptyString)
  end.

Fixpoint lex (fuel : nat) (s : string) : option (list token) :=
  match fuel with
  | O => None
  | S fuel' =>
      match s with
      | EmptyString => Some []
      | String c s' =>
          if isIgnored c then lex fuel' s'
          else if Ascii.eqb c "["%char then cons TBracketL <$> lex fuel' s'
          else if Ascii.eqb c "]"%char then cons TBracketR <$> lex fuel' s'
          else if Ascii.eqb c "!"%char then cons TBang <$> lex fuel' s'
          else if isNameStart c then
            let '(n, r) := spanName s' in
            cons (TName (String c n)) <$> lex fuel' r
          else None
      end
  end.

(** [parseTypeReference]: a bracketed type or a name, then at most one
    [!]. *)
Fixpoint parseTypeReference (fuel : nat) (ts : list token) : option (TypeNode * list token) :=
  match fuel with
  | O => None
  | S fuel' =>
      '(t, rest) ←
        match ts with
        | TBracketL :: ts' =>
            '(inner, rest) ← parseTypeReference fuel' ts';
            match rest with
            | TBracketR :: rest' => Some (ListTypeNode inner, rest')
            | _ => None
            end
        | TName n :: ts' => Some (NamedTypeNode n, ts')
        | _ => None
        end;
      match rest with
      | TBang :: rest' => Some (NonNullTypeNode t, rest')
      | _ => Some (t, rest)
      end
  end.

End Parser.

(** [parseType(source)]: the whole text must be one type reference. *)
Definition parseType (source : string) : Outcome TypeNode :=
  match Parser.lex (S (String.length source)) source with
  | Some ts =>
      match Parser.parseTypeReference (S (length ts)) ts with
      | Some (t, []) => Ok t
      | _ => Throw SyntaxError
      end
  | None => Throw SyntaxError
  end.

(** [typeFromAST(schema, typeNode)]. *)
Fixpoint typeFromAST (schema : Schema) (typeNode : TypeNode) : option GqlType :=
  match typeNode with
  | ListTypeNode t => GList <$> typeFromAST schema t
  | NonNullTypeNode t => GNonNull <$> typeFromAST schema t
  | NamedTypeNode n => getType schema n
  end.

(** ** Dynamic values *)

(** The values the shape builder passes around: entries are two-element
    arrays, shapes are objects, enum shapes are [Set]s.  An object is
    the list of its own enumerable properties.  A built-in function, which
    a property read can find on [Object.prototype], is known by the text
    that [String] gives for it. *)
Inductive JsVal : Type :=
  | JUndefined
  | JNull
  | JStr (s : string)
  | JSet (values : list string)
  | JArr (elements : list JsVal)
  | JObj (props : list (string * JsVal))
  | JFun (source : string).

Module JsValue.

(** [Boolean(v)]. *)
Definition truthy (v : JsVal) : bool :=
  match v with
  | JUndefined | JNull => false
  | JStr s => Js.truthyStr s
  | _ => true
  end.

Definition isArray (v : JsVal) : bool :=
  match v with JArr _ => true | _ => false end.

(** Values of the language type Object. *)
Definition isObject (v : JsVal) : bool :=
  match v with JSet _ | JArr _ | JObj _ | JFun _ => true | _ => false end.

Definition lookupProp (k : string) (props : list (string * JsVal)) : JsVal :=
  match List.find (λ p, String.eqb p.1 k) props with
  | Some p => p.2
  | None => JUndefined
  end.

(** [v[i]] for [i] 0 or 1, on a value that is not [null] or
    [undefined]. *)
Definition index (v : JsVal) (i : nat) : JsVal :=
  match v with
  | JArr l => nth i l JUndefined
  | JStr s => match String.get i s with Some c => JStr (String c "") | None => JUndefined end
  | JObj props => lookupProp (if Nat.eqb i 0 then "0" else "1") props
  | _ => JUndefined
  end.

(** [String(v)], which turns a value into a property key.  Inside an
    array, [null] and [undefined] print as the empty string. *)
Fixpoint toString (v : JsVal) : string :=
  match v with
  | JUndefined => "undefined"
  | JNull => "null"
  | JStr s => s
  | JSet _ => "[object Set]"
  | JObj _ => "[object Object]"
  | JFun source => source
  | JArr l =>
      Js.join ","
        (map (λ e, match e with
                   | JUndefined | JNull => ""
                   | _ => toString e
                   end) l)
  end.

(** Defining property [k]: an existing key keeps its place.  (Keys are
    names, never array indices, so creation order is enumeration
    order.) *)
Fixpoint setProp (k : string) (v : JsVal) (props : list (string * JsVal)) : list (string * JsVal) :=
  match props with
  | [] => [(k, v)]
  | (k', v') :: rest =>
      if String.eqb k' k then (k, v) :: rest else (k', v') :: setProp k v rest
  end.

(** The loop of [Object.fromEntries] over the items, on the properties
    defined so far. *)
Fixpoint addEntries (items : list JsVal) (props : list (string * JsVal))
    : Outcome (list (string * JsVal)) :=
  match items with
  | [] => Ok props
  | item :: rest =>
      if isObject item
      then addEntries rest (setProp (toString (index item 0)) (index item 1) props)
      else Throw TypeError
  end.

(** [Object.fromEntries(items)]. *)
Definition fromEntries (items : list JsVal) : Outcome JsVal :=
  JObj <$> addEntries items [].

(** [new Set(values)]: first occurrences, in order. *)
Definition newSet (values : list string) : list string :=
  fold_left (λ acc v, if bool_decide (v ∈ acc) then acc else acc ++ [v]) values [].

End JsValue.

(** The names every ordinary object inherits from [Object.prototype]. *)
Definition objectPrototypeNames : list string :=
  ["constructor"; "hasOwnProperty"; "isPrototypeOf"; "propertyIsEnumerable";
   "toLocaleString"; "toString"; "valueOf"; "__defineGetter__"; "__defineSetter__";
   "__lookupGetter__"; "__lookupSetter__"; "__proto__"].

(** [obj[name]] on an ordinary object that has no own property [name]:
    for the names above the inherited built-in function, with the text
    Node prints for it, or, for [__proto__], the prototype itself, an
    object without enumerable properties; [undefined] for any other
    name. *)
Definition inheritedMember (name : string) : JsVal :=
  if String.eqb name "__proto__" then JObj []
  else if String.eqb name "constructor" then JFun "function Object() { [native code] }"
  else if bool_decide (name ∈ objectPrototypeNames)
  then JFun ("function " +:+ name +:+ "() { [native code] }")
  else JUndefined.

(** ** The type mapper *)

(** [scalarMap[name]] on the [scalarMap] object of
    [typeScriptForGraphQLType]: one of its five own properties, or what
    the object literal inherits from [Object.prototype]. *)
Definition scalarMap (name : string) : JsVal :=
  if String.eqb name "String" then JStr "string"
  else if String.eqb name "ID" then JStr "string"
  else if String.eqb name "Int" then JStr "number"
  else if String.eqb name "Float" then JStr "number"
  else if String.eqb name "Boolean" then JStr "boolean"
  else inheritedMember name.

(** [a || 'any'] on a looked-up value. *)
Definition orAny (v : JsVal) : JsVal :=
  if JsValue.truthy v then v else JStr "any".

(** The doc comment put before a described field. *)
Definition docComment (description : option string) : string :=
  match description with
  | Some d => if Js.truthyStr d then "/**" +:+ Js.nl +:+ "* " +:+ d +:+ Js.nl +:+ "*/" +:+ Js.nl else ""
  | None => ""
  end.

(** The double quote, and a text between double quotes. *)
Definition dquote : string := String "034"%char "".

Definition quoted (s : string) : string := dquote +:+ s +:+ dquote.

(** [typeScriptForGraphQLType(schema, gqlType)] on a type object.  The
    recursion through wrappers is structural; the recursion into the fields
    of an object type follows the schema, which may be cyclic, and takes
    one unit of fuel per object entered.  The last case returns
    [basicType] as it is: a string, or, for a type named after a member
    of [Object.prototype], that member, which every caller puts in a
    template literal; the result here is its text there. *)
Fixpoint typeScriptForType (fuel : nat) (schema : Schema) : GqlType → Outcome string :=
  fix go (gqlType : GqlType) : Outcome string :=
    match gqlType with
    | GList ofType =>
        subType ← go ofType;
        Ok ("Array<" +:+ subType +:+ ">")
    | GNonNull ofType => go ofType
    | GNamed name =>
        match typeMap schema !! name with
        | Some (ObjectDef fs) | Some (InputObjectDef fs) =>
            match fuel with
            | O => OutOfFuel
            | S fuel' =>
                fields ← mapM (λ field,
                  let nullable := negb (isNonNullType (Some (field_type field))) in
                  type ← typeScriptForType fuel' schema (field_type field);
                  let description := docComment (field_description field) in
                  Ok (description +:+ quoted (field_name field) +:+
                      (if nullable then "?" else "") +:+ ": " +:+ type)) fs;
                Ok ("{" +:+ Js.join ", " fields +:+ "}")
            end
        | Some (EnumDef values) =>
            let enums := (λ value, quoted value) <$> values in
            Ok (Js.join " | " enums)
        | _ => Ok (JsValue.toString (orAny (scalarMap name)))
        end
    end.

(** [typeScriptForGraphQLType(schema, gqlType)], [gqlType] possibly
    [undefined]. *)
Definition typeScriptForGraphQLType (fuel : nat) (schema : Schema)
    (gqlType : option GqlType) : Outcome string :=
  match gqlType with
  | Some t => typeScriptForType fuel schema t
  | None => Ok "any"
  end.

(** ** The variable signature builder *)

Definition typeScriptSignatureForOperationVariablesHelper
    (variableDefinition : VariableDefinitionNode) : string * VariableDefinitionNode :=
  let variableName := variable_name variableDefinition in
  (variableName, variableDefinition).

(** [a || []]. *)
Definition orEmpty {A} (o : option (list A)) : list A := default [] o.

(** The [variables] constant: the declarations kept by the filter. *)
Definition retainedVariables (variableNames : list string)
    (operationDefinition : DefinitionNode) : list (string * VariableDefinitionNode) :=
  filter (λ p, p.1 ∈ variableNames)
    (typeScriptSignatureForOperationVariablesHelper <$>
       orEmpty (def_variableDefinitions operationDefinition)).

(** The body of the [typesObject] map. *)
Definition variableTsType (fuel : nat) (schema : Schema)
    (p : string * VariableDefinitionNode) : Outcome (string * string) :=
  let '(varName, varDef) := p in
  let printedType := print (variable_type varDef) in
  parsedType ← parseType printedType;
  let gqlType := typeFromAST schema parsedType in
  tsType ← typeScriptForGraphQLType fuel schema gqlType;
  Ok (varName, tsType).

Definition typeScriptSignatureForOperationVariables (fuel : nat)
    (variableNames : list string) (schema : Schema)
    (operationDefinition : DefinitionNode) : Outcome string :=
  let variables := retainedVariables variableNames operationDefinition in
  typesObject ← mapM (variableTsType fuel schema) variables;
  let typeFields :=
    Js.join ", " ((λ '(name, tsType), quoted name +:+ ": " +:+ tsType) <$> typesObject) in
  let types := "{" +:+ typeFields +:+ "}" in
  Ok (if String.eqb types "" then "null" else types).

(** ** [gatherVariableDefinitions] *)

Definition extractVariableNameStringPair (varDef : VariableDefinitionNode) : string * string :=
  (variable_name varDef, print (variable_type varDef)).

Section Sort.
Context {A : Type}.
(** The comparator given to [Array.prototype.sort]: negative, zero or
    positive. *)
Variable compareFn : A → A → Z.

(** [x] goes before the first element that the comparator puts strictly
    after it, so equal elements keep their order. *)
Fixpoint sortInsert (x : A) (l : list A) : list A :=
  match l with
  | [] => [x]
  | y :: l' => if Z.ltb (compareFn y x) 0 || Z.eqb (compareFn y x) 0
               then y :: sortInsert x l'
               else x :: l
  end.

(** [array.sort(compareFn)] for a consistent comparator: the stable
    sorted arrangement. *)
Definition arraySort (l : list A) : list A :=
  fold_left (λ acc x, sortInsert x acc) l [].
End Sort.

Section GatherVariableDefinitions.
(** [left.localeCompare(right)]: the collation of the host's locale. *)
Variable localeCompare : string → string → Z.

(** [definition] may be [undefined]. *)
Definition gatherVariableDefinitions (definition : option DefinitionNode) : list (string * string) :=
  let mapped : option (list (string * string)) :=
    match definition with
    | Some d =>
        match def_variableDefinitions d with
        | Some variableDefinitions =>
            Some (map extractVariableNameStringPair variableDefinitions)
        | None => None
        end
    | None => None
    end in
  arraySort (λ l r, localeCompare l.1 r.1) (orEmpty mapped).
End GatherVariableDefinitions.

(** ** [listCount] *)

(** A computation that may write to the console: the lines written by
    [console.warn], then the outcome. *)
Definition Logged (A : Type) : Type := list string * Outcome A.

Global Instance Logged_ret : MRet Logged := λ A a, ([], Ok a).
Global Instance Logged_bind : MBind Logged := λ A B f m,
  match m.2 with
  | Ok a => let r := f a in (m.1 ++ r.1, r.2)
  | Throw e => (m.1, Throw e)
  | OutOfFuel => (m.1, OutOfFuel)
  end.

Definition warn {A} (line : string) (a : A) : Logged A := ([line], Ok a).
Definition liftOutcome {A} (o : Outcome A) : Logged A := ([], o).

Definition maximumDepth : Z := 30.
Definition errorSigil : Z := -99.

(** The [while] loop of [listCount], on the loop variables.  It runs once
    per wrapper, so the type itself bounds it. *)
Fixpoint listCountLoop (inspectedType : GqlType) (innerListCount totalCount : Z) : Logged Z :=
  match inspectedType with
  | GNamed _ => mret innerListCount
  | GList ofType =>
      let innerListCount := innerListCount + 1 in
      let totalCount := totalCount + 1 in
      if Z.ltb maximumDepth totalCount
      then warn "Bailing on potential infinite recursion" errorSigil
      else listCountLoop ofType innerListCount totalCount
  | GNonNull ofType =>
      let totalCount := totalCount + 1 in
      if Z.ltb maximumDepth totalCount
      then warn "Bailing on potential infinite recursion" errorSigil
      else listCountLoop ofType innerListCount totalCount
  end.

Definition listCount (gqlType : GqlType) : Logged Z := listCountLoop gqlType 0 0.

(** ** The shape builder *)

Definition sel_alias (s : SelectionNode) : option string :=
  match s with FieldNode a _ _ _ => a | _ => None end.

Definition sel_name (s : SelectionNode) : option string :=
  match s with
  | FieldNode _ n _ _ => Some n
  | InlineFragmentNode _ _ => None
  | FragmentSpreadNode n => Some n
  end.

(** [selection.selectionSet?.selections]. *)
Definition sel_selections (s : SelectionNode) : option (list SelectionNode) :=
  match s with
  | FieldNode _ _ _ ss => ss
  | InlineFragmentNode _ ss => Some ss
  | FragmentSpreadNode _ => None
  end.

(** [scalarMap[name]] on the [scalarMap] object of the shape builder,
    which has a sixth own property. *)
Definition shapeScalarMap (name : string) : JsVal :=
  if String.eqb name "GitHubGitObjectID" then JStr "string" else scalarMap name.

(** An entry [[displayedName, { type, description }]]. *)
Definition shapeEntry (displayedName : string) (type description : JsVal) : JsVal :=
  JArr [JStr displayedName; JObj [("type", type); ("description", description)]].

Definition optStr (o : option string) : JsVal :=
  match o with Some s => JStr s | None => JUndefined end.

(** The callback of [reduce]: an array whose first element is an array is
    spliced in, anything else is appended. *)
Definition flattenStep (acc : list JsVal) (next : JsVal) : list JsVal :=
  if JsValue.isArray (JsValue.index next 0)
  then match next with JArr l => acc ++ l | _ => acc ++ [next] end
  else acc ++ [next].

(** The [for] loop that wraps [finalType] in [nestingLevel] arrays; a
    level that is not positive leaves it as it is. *)
Definition wrapArrays (nestingLevel : Z) (returnType : JsVal) : JsVal :=
  Nat.iter (Z.to_nat nestingLevel) (λ finalType, JArr [finalType]) returnType.

Section ShapeBuilder.
Variable schema : Schema.
(** The object that maps a fragment's name to its definition: an
    ordinary object, given by its own properties. *)
Variable fragmentDefinitions : gmap string DefinitionNode.

(** [typeFromAST(schema, node.typeCondition)] where the condition may be
    missing: reading [kind] on [undefined] throws. *)
Definition typeFromCondition (typeCondition : option string) : Outcome (option GqlType) :=
  match typeCondition with
  | Some n => Ok (typeFromAST schema (NamedTypeNode n))
  | None => Throw TypeError
  end.

(** What [helper] does once [field] and the names are known.  [sub] is
    the computation of the [sub] constant, given the field's named
    type. *)
Definition helperOnField (sub : option GqlType → Logged (option (list JsVal)))
    (field : option FieldDef) (displayedName name : string) : Logged JsVal :=
  let gqlType := field_type <$> field in
  if Js.startsWith "__" name
  then mret (shapeEntry displayedName (JStr "any") (JStr "Internal GraphQL field"))
  else
    let namedType := getNamedType gqlType in
    let isNullable := negb (isNonNullType gqlType) in
    let isList := isListType gqlType
                  || (negb isNullable && isListType (gqlType ≫= ofTypeOf)) in
    let isObjectLike := isObjectType schema namedType || isUnionType schema namedType
                        || isInterfaceType schema namedType in
    sub ← sub namedType;
    nestingLevel ←
      (if isList
       then match gqlType with Some t => listCount t | None => mret 0 end
       else mret 0);
    let isEnum := isEnumType schema namedType in
    let basicType :=
      if isEnum
      then JSet (JsValue.newSet (default [] (getValues schema <$> namedType)))
      else shapeScalarMap
             (match namedType with
              | Some t => if Js.truthyStr (typeName t) then typeName t else "any"
              | None => "any"
              end) in
    returnType ←
      (if isObjectLike
       then match sub with
            | Some entries => liftOutcome (JsValue.fromEntries entries)
            | None => mret JNull
            end
       else if JsValue.truthy basicType then mret basicType
       else mret (JStr "any"));
    if JsValue.truthy returnType
    then
      let finalType := wrapArrays nestingLevel returnType in
      mret (shapeEntry displayedName finalType (optStr (field ≫= field_description)))
    else warn "No returnType!" JUndefined.

(** [helper] and the [innerHelper] of its [map], the latter with the
    [namedType] it closes over as a parameter.  Every call uses one unit
    of fuel. *)
Fixpoint helper (fuel : nat) (parentGqlType : option GqlType) (selection : SelectionNode)
    {struct fuel} : Logged JsVal :=
  match fuel with
  | O => liftOutcome OutOfFuel
  | S fuel' =>
      match parentGqlType with
      | None => mret JUndefined
      | Some parentType =>
          let parentNamedType := namedTypeOf parentType in
          let alias := sel_alias selection in
          let name := sel_name selection in
          match getFields schema parentNamedType, name with
          | Some fields, Some name =>
              let displayedName := if Js.truthyOpt alias then default "" alias else name in
              let field := lookupField fields name in
              helperOnField
                (λ namedType,
                   match sel_selections selection with
                   | Some selections =>
                       results ← mapM (innerHelper fuel' namedType) selections;
                       mret (Some (fold_left flattenStep (filter (λ v, JsValue.truthy v) results) []))
                   | None => mret None
                   end)
                field displayedName name
          | _, _ => liftOutcome (Throw TypeError)
          end
      end
  end
with innerHelper (fuel : nat) (namedType : option GqlType) (innerSelection : SelectionNode)
    {struct fuel} : Logged JsVal :=
  match fuel with
  | O => liftOutcome OutOfFuel
  | S fuel' =>
      match innerSelection with
      | FieldNode _ _ _ _ => helper fuel' namedType innerSelection
      | InlineFragmentNode typeCondition selections =>
          fragmentGqlType ← liftOutcome (typeFromCondition typeCondition);
          match fragmentGqlType with
          | None => mret JNull
          | Some _ =>
              fragmentSelections ← mapM (helper fuel' fragmentGqlType) selections;
              mret (JArr fragmentSelections)
          end
      | FragmentSpreadNode fragmentName =>
          match fragmentDefinitions !! fragmentName with
          | Some fragment =>
              fragmentGqlType ← liftOutcome (typeFromCondition
                (match fragment with
                 | FragmentDefinitionNode _ typeCondition _ _ => Some typeCondition
                 | OperationDefinitionNode _ _ _ _ => None
                 end));
              match fragmentGqlType with
              | None => mret JNull
              | Some _ =>
                  match def_selectionSet fragment with
                  | Some selections =>
                      fragmentSelections ← mapM (innerHelper fuel' namedType) selections;
                      mret (JArr fragmentSelections)
                  | None => liftOutcome (Throw TypeError)
                  end
              end
          | None =>
              (* No own property: the read finds what the object inherits.
                 An inherited member is truthy and has no [typeCondition],
                 and [typeFromAST] throws on [undefined]. *)
              if JsValue.truthy (inheritedMember fragmentName)
              then liftOutcome (Throw TypeError)
              else mret JNull
          end
      end
  end.

Definition resultEnvelope (dataType : JsVal) : JsVal :=
  JObj [("data", JObj [("type", dataType);
                       ("description", JStr "Any data retrieved by the const function be returned here")]);
        ("errors", JObj [("type", JArr [JStr "any"]);
                         ("description", JStr "Any errors in the function will be returned here")])].

(** The [baseGqlType] constant: the root type of the operation's kind, or
    the type a fragment is on. *)
Definition baseGqlTypeOf (operationDefinition : DefinitionNode) : option GqlType :=
  match operationDefinition with
  | OperationDefinitionNode OpQuery _ _ _ => getQueryType schema
  | OperationDefinitionNode OpMutation _ _ _ => getMutationType schema
  | OperationDefinitionNode OpSubscription _ _ _ => getSubscriptionType schema
  | FragmentDefinitionNode _ typeCondition _ _ => getType schema typeCondition
  end.

Definition typeScriptDefinitionObjectForOperation (fuel : nat)
    (operationDefinition : DefinitionNode) : Logged JsVal :=
  let baseGqlType := baseGqlTypeOf operationDefinition in
  let selections := def_selectionSet operationDefinition in
  match selections with
  | Some selections =>
      sub ← mapM (helper fuel baseGqlType) selections;
      object ← liftOutcome (JsValue.fromEntries sub);
      mret (resultEnvelope object)
  | None => mret (resultEnvelope (JStr "any"))
  end.
End ShapeBuilder.

(** ** The subscription webhook patchers *)

(** The two patchers are the same function up to three names: the
    argument looked for on the field and added to the selection, the
    variable it is bound to, and the named type of that variable. *)
Record PatchNames : Type := mkPatchNames {
  patch_argument : string;
  patch_variable : string;
  patch_type : string
}.

Definition webhookUrlNames : PatchNames :=
  mkPatchNames "webhookUrl" "netligraphWebhookUrl" "String".

Definition webhookSecretNames : PatchNames :=
  mkPatchNames "secret" "netligraphWebhookSecret" "OneGraphSubscriptionSecretInput".

Section Patcher.
Variable names : PatchNames.

(** The argument node [{ kind: 'Argument', name, value: { kind:
    'Variable', name } }] that is added. *)
Definition addedArgument : ArgumentNode :=
  mkArgument (patch_argument names) (VariableNode (patch_variable names)).

(** The variable definition that is added: the non-null named type. *)
Definition addedVariableDefinition : VariableDefinitionNode :=
  mkVariableDefinition (patch_variable names)
    (NonNullTypeNode (NamedTypeNode (patch_type names))) None.

(** [selection.arguments?.some(...)], as the condition sees it. *)
Definition selectionHasArg (arguments : option (list ArgumentNode)) : bool :=
  match arguments with
  | Some args => existsb (λ arg, String.eqb (argument_name arg) (patch_argument names)) args
  | None => false
  end.

(** The callback of the [map] over the top-level selections.  The
    field descriptor is read without a check: a missing one makes
    [field.args] throw. *)
Definition patchSelection (schema : Schema) (subscriptionType : GqlType)
    (selection : SelectionNode) : Outcome SelectionNode :=
  match selection with
  | FieldNode alias name arguments selectionSet =>
      match getFields schema subscriptionType ≫= (λ fields, lookupField fields name) with
      | None => Throw TypeError
      | Some field =>
          let fieldHasArg :=
            existsb (λ arg, String.eqb (arg_def_name arg) (patch_argument names))
              (field_args field) in
          let selectionHas := selectionHasArg arguments in
          if fieldHasArg && negb selectionHas
          then Ok (FieldNode alias name (Some (orEmpty arguments ++ [addedArgument])) selectionSet)
          else Ok selection
      end
  | _ => Ok selection
  end.

(** [definition.variableDefinitions?.find(...)], as a condition. *)
Definition hasVariableDefinition (variableDefinitions : option (list VariableDefinitionNode)) : bool :=
  match variableDefinitions with
  | Some vs => existsb (λ varDef, String.eqb (variable_name varDef) (patch_variable names)) vs
  | None => false
  end.

Definition patchDefinition (schema : Schema) (definition : DefinitionNode)
    : Outcome DefinitionNode :=
  match definition with
  | OperationDefinitionNode OpSubscription name variableDefinitions selectionSet =>
      match getSubscriptionType schema with
      | None => Ok definition
      | Some subscriptionType =>
          match selectionSet with
          | Some selections =>
              newSelections ← mapM (patchSelection schema subscriptionType) selections;
              let variableDefinitions' :=
                if hasVariableDefinition variableDefinitions
                then variableDefinitions
                else Some (orEmpty variableDefinitions ++ [addedVariableDefinition]) in
              Ok (OperationDefinitionNode OpSubscription name variableDefinitions'
                    (Some newSelections))
          | None => Throw TypeError
          end
      end
  | _ => Ok definition
  end.
End Patcher.

Definition patchSubscriptionWebhookField (schema : Schema) (definition : DefinitionNode)
    : Outcome DefinitionNode :=
  patchDefinition webhookUrlNames schema definition.

Definition patchSubscriptionWebhookSecretField (schema : Schema) (definition : DefinitionNode)
    : Outcome DefinitionNode :=
  patchDefinition webhookSecretNames schema definition.

(** ** The type-reference collector *)

Module TypeInfo.
Section TypeInfo.
Variable schema : Schema.

Definition isCompositeType (t : option GqlType) : bool :=
  isObjectType schema t || isInterfaceType schema t || isUnionType schema t.

(** [isOutputType]: a scalar, object, interface, union or enum type
    under any wrappers. *)
Definition isOutputType (t : option GqlType) : bool :=
  match getNamedType t ≫= typeDefOf schema with
  | Some (InputObjectDef _) | None => false
  | Some _ => true
  end.

Definition outputOnly (t : option GqlType) : option GqlType :=
  if isOutputType t then t else None.

Definition compositeOnly (t : option GqlType) : option GqlType :=
  if isCompositeType t then t else None.

(** Modelled from the spec: [getFieldDef] of the [graphql] library's
    [TypeInfo], which is not part of this repository's sources; it is the
    position-aware lookup of section 4.2 (the type applicable at a field
    given its parent type), with the three introspection fields the
    library resolves itself. *)
Definition getFieldDef (parentType : GqlType) (name : string) : option GqlType :=
  if String.eqb name "__schema" && bool_decide (getQueryType schema = Some parentType)
  then Some (GNonNull (GNamed "__Schema"))
  else if String.eqb name "__type" && bool_decide (getQueryType schema = Some parentType)
  then Some (GNamed "__Type")
  else if String.eqb name "__typename" && isCompositeType (Some parentType)
  then Some (GNonNull (GNamed "String"))
  else if isObjectType schema (Some parentType) || isInterfaceType schema (Some parentType)
  then fields ← getFields schema parentType;
     field_type <$> lookupField fields name
  else None.

(** Number of nodes under a type reference, a value, an argument and a
    variable definition (each node with its [Name] child). *)
Fixpoint typeNodeCount (t : TypeNode) : nat :=
  match t with
  | NamedTypeNode _ => 2
  | ListTypeNode t' | NonNullTypeNode t' => S (typeNodeCount t')
  end.

Definition valueNodeCount (v : ValueNode) : nat :=
  match v with VariableNode _ => 2 | _ => 1 end.

Definition argumentNodeCount (a : ArgumentNode) : nat :=
  2 + valueNodeCount (argument_value a).

Definition variableDefinitionNodeCount (v : VariableDefinitionNode) : nat :=
  3 + typeNodeCount (variable_type v)
  + match variable_defaultValue v with Some d => valueNodeCount d | None => 0 end.

Definition countAll {A} (f : A → nat) (l : option (list A)) : nat :=
  list_sum (f <$> orEmpty l).

(** One node for an optional child that is there. *)
Definition countOpt {A} (o : option A) : nat :=
  match o with Some _ => 1 | None => 0 end.

(** Modelled from the spec: the traversal of [visit] with
    [visitWithTypeInfo] of the [graphql] library, which is not part of
    this repository's sources: every node of the document is entered
    once, in document order, and at each the callback reads
    [typeInfo.getType()], the type on top of the type stack.  The result
    is the list of these readings.  An operation pushes its root type, a
    field the type of its definition on the parent type, an inline
    fragment and a fragment definition the type of their condition; a
    selection set makes the named type on top the parent type of its
    selections; every other node (names, variable definitions, type
    references, arguments, values, fragment spreads) pushes nothing and
    reads the type of the node around it.  [parentType] and [current]
    are the tops of the parent-type stack and of the type stack. *)
Fixpoint visitSelection (parentType current : option GqlType) (selection : SelectionNode)
  : list (option GqlType) :=
  match selection with
  | FieldNode alias name arguments selectionSet =>
    let fieldType := outputOnly (parentType ≫= (λ p, getFieldDef p name)) in
    fieldType ::
    replicate (countOpt alias + 1 + countAll argumentNodeCount arguments)%nat fieldType ++
    match selectionSet with
    | Some selections =>
        fieldType ::
        flat_map (visitSelection (compositeOnly (getNamedType fieldType)) fieldType) selections
    | None => []
    end
  | InlineFragmentNode typeCondition selections =>
    let outputType :=
      outputOnly (match typeCondition with
                  | Some n => typeFromAST schema (NamedTypeNode n)
                  | None => getNamedType current
                  end) in
    outputType ::
    replicate (2 * countOpt typeCondition)%nat outputType ++
    outputType ::
    flat_map (visitSelection (compositeOnly (getNamedType outputType)) outputType) selections
  | FragmentSpreadNode _ => [current; current]
  end.

Definition visitSelectionSet (current : option GqlType) (selectionSet : option (list SelectionNode))
  : list (option GqlType) :=
  match selectionSet with
  | Some selections =>
    current ::
    flat_map (visitSelection (compositeOnly (getNamedType current)) current) selections
  | None => []
  end.

Definition visitDefinition (definition : DefinitionNode) : list (option GqlType) :=
  match definition with
  | OperationDefinitionNode operation name variableDefinitions selectionSet =>
    let type :=
      match operation with
      | OpQuery => getQueryType schema
      | OpMutation => getMutationType schema
      | OpSubscription => getSubscriptionType schema
      end in
    let rootType := if isObjectType schema type then type else None in
    rootType ::
    replicate (countOpt name
               + countAll variableDefinitionNodeCount variableDefinitions)%nat rootType ++
    visitSelectionSet rootType selectionSet
  | FragmentDefinitionNode name typeCondition variableDefinitions selectionSet =>
    let outputType := outputOnly (typeFromAST schema (NamedTypeNode typeCondition)) in
    outputType ::
    replicate (1 + countAll variableDefinitionNodeCount variableDefinitions + 2)%nat outputType ++
    visitSelectionSet outputType selectionSet
  end.

(** The readings over a whole document; at the document node itself the
    type stack is empty. *)
Definition visit (query : list DefinitionNode) : list (option GqlType) :=
  None :: flat_map visitDefinition query.
End TypeInfo.
End TypeInfo.

(** The name added for a reading: [typ.name.toLocaleLowerCase().replace('oneme', '')]. *)
Definition referencedName (typ : GqlType) : string :=
  Js.replace "oneme" "" (Js.toLocaleLowerCase (typeName typ)).

(** The [types] set once the traversal is over: [types.add(...)] at every
    reading that is a type; a [Set] keeps the first of equal values. *)
Definition gatheredTypes (schema : Schema) (query : list DefinitionNode) : list string :=
  JsValue.newSet (omap (λ fullType, referencedName <$> getNamedType fullType)
                   (TypeInfo.visit schema query)).

(** [gatherAllReferencedTypes(schema, query)]: the array [[...types]] of
    the set's values, in insertion order. *)
Definition gatherAllReferencedTypes (schema : Schema) (query : list DefinitionNode) : JsVal :=
  let types := gatheredTypes schema query in
  let result := JArr (JStr <$> types) in
  result.


(** ** The patchers on the object graph *)

(** The patchers receive the definition as a graph of objects and arrays
    and build their result with spreads and array literals.  To speak of
    what they do to the objects they are given, this second embedding
    keeps the graph in a store: a value is a string, [undefined] or a
    reference, and every object or array literal of the source is an
    allocation.  The source has no assignment to a property or an
    element, so the embedding has no write either. *)
Module Store.

(** Locations are positions in the store. *)
Abbreviation loc := nat.

Inductive Val : Type :=
  | VUndefined
  | VString (s : string)
  | VRef (l : loc).

Global Instance Val_eq_dec : EqDecision Val.
Proof. solve_decision. Defined.

Inductive Obj : Type :=
  | ObjRecord (props : list (string * Val))
  | ObjArray (elements : list Val).

Abbreviation Heap := (list Obj).

(** A step on the store: an outcome and the store after it. *)
Definition Run (A : Type) : Type := Heap → Outcome A * Heap.

Global Instance Run_ret : MRet Run := λ A a h, (Ok a, h).
Global Instance Run_bind : MBind Run := λ A B f m h,
  match m h with
  | (Ok a, h') => f a h'
  | (Throw e, h') => (Throw e, h')
  | (OutOfFuel, h') => (OutOfFuel, h')
  end.

Definition throw {A} : Run A := λ h, (Throw TypeError, h).

(** An object or array literal: a new object at a fresh location. *)
Definition alloc (o : Obj) : Run Val := λ h, (Ok (VRef (length h)), h ++ [o]).

Definition lookupProp (k : string) (props : list (string * Val)) : Val :=
  match List.find (λ p, String.eqb p.1 k) props with
  | Some p => p.2
  | None => VUndefined
  end.

(** [v.k] for a name [k]: a [TypeError] on [undefined], [undefined] on a
    string or an array. *)
Definition getProp (v : Val) (k : string) : Run Val := λ h,
  match v with
  | VUndefined => (Throw TypeError, h)
  | VString _ => (Ok VUndefined, h)
  | VRef l =>
      match h !! l with
      | Some (ObjRecord props) => (Ok (lookupProp k props), h)
      | Some (ObjArray _) => (Ok VUndefined, h)
      | None => (Throw TypeError, h)
      end
  end.

(** The elements of [v] for [v.map], [v.some], [v.find] and [[...v]]:
    [v] has to be an array. *)
Definition getElements (v : Val) : Run (list Val) := λ h,
  match v with
  | VRef l =>
      match h !! l with
      | Some (ObjArray elements) => (Ok elements, h)
      | _ => (Throw TypeError, h)
      end
  | _ => (Throw TypeError, h)
  end.

(** The own properties copied by [{...v}]. *)
Definition ownProps (v : Val) : Run (list (string * Val)) := λ h,
  match v with
  | VRef l =>
      match h !! l with
      | Some (ObjRecord props) => (Ok props, h)
      | _ => (Ok [], h)
      end
  | _ => (Ok [], h)
  end.

(** A property of an object literal after a spread: it replaces the
    copied property of that name or comes last. *)
Fixpoint setProp (k : string) (v : Val) (props : list (string * Val)) : list (string * Val) :=
  match props with
  | [] => [(k, v)]
  | (k', v') :: rest =>
      if String.eqb k' k then (k, v) :: rest else (k', v') :: setProp k v rest
  end.

(** [elements.some(test)], which stops at the first hit. *)
Fixpoint someM (test : Val → Run bool) (elements : list Val) : Run bool :=
  match elements with
  | [] => mret false
  | e :: rest => hit ← test e; if hit : bool then mret true else someM test rest
  end.

(** [v || []] followed by a spread into an array literal. *)
Definition elementsOrEmpty (v : Val) : Run (list Val) :=
  match v with
  | VUndefined | VString "" => mret []
  | _ => getElements v
  end.

(** The key a value names in [fields[v]]. *)
Definition keyOf (v : Val) : string :=
  match v with
  | VString s => s
  | VUndefined => "undefined"
  | VRef _ => "[object Object]"
  end.

Definition nameNode (value : string) : Run Val :=
  alloc (ObjRecord [("kind", VString "Name"); ("value", VString value)]).

Section Patcher.
Variable names : PatchNames.
Variable schema : Schema.

(** [node.name.value === wanted]. *)
Definition isNamed (wanted : string) (node : Val) : Run bool :=
  name ← getProp node "name";
  value ← getProp name "value";
  mret (bool_decide (value = VString wanted)).

(** [varDef.variable.name.value === wanted]. *)
Definition declares (wanted : string) (varDef : Val) : Run bool :=
  variable ← getProp varDef "variable";
  isNamed wanted variable.

Definition patchSelection (subscriptionType : GqlType) (selection : Val) : Run Val :=
  kind ← getProp selection "kind";
  if bool_decide (kind ≠ VString "Field") then mret selection
  else
    name ← getProp selection "name";
    value ← getProp name "value";
    match getFields schema subscriptionType ≫= (λ fields, lookupField fields (keyOf value)) with
    | None => throw
    | Some field =>
        let fieldHasArg :=
          existsb (λ arg, String.eqb (arg_def_name arg) (patch_argument names))
            (field_args field) in
        arguments ← getProp selection "arguments";
        selectionHasArg ←
          match arguments with
          | VUndefined => mret false
          | _ => elements ← getElements arguments;
                 someM (isNamed (patch_argument names)) elements
          end;
        if fieldHasArg && negb selectionHasArg
        then
          old ← elementsOrEmpty arguments;
          argumentName ← nameNode (patch_argument names);
          variableName ← nameNode (patch_variable names);
          variable ← alloc (ObjRecord [("kind", VString "Variable"); ("name", variableName)]);
          argument ← alloc (ObjRecord [("kind", VString "Argument");
                                       ("name", argumentName); ("value", variable)]);
          newArguments ← alloc (ObjArray (old ++ [argument]));
          props ← ownProps selection;
          alloc (ObjRecord (setProp "arguments" newArguments props))
        else mret selection
    end.

Definition patchDefinition (definition : Val) : Run Val :=
  operation ← getProp definition "operation";
  if bool_decide (operation ≠ VString "subscription") then mret definition
  else
    match getSubscriptionType schema with
    | None => mret definition
    | Some subscriptionType =>
        selectionSet ← getProp definition "selectionSet";
        selections ← getProp selectionSet "selections";
        elements ← getElements selections;
        patched ← mapM (patchSelection subscriptionType) elements;
        newSelections ← alloc (ObjArray patched);
        declared ← getProp definition "variableDefinitions";
        hasWebhookVariableDefinition ←
          match declared with
          | VUndefined => mret false
          | _ => elements ← getElements declared;
                 someM (declares (patch_variable names)) elements
          end;
        variableDefinitions ←
          (if hasWebhookVariableDefinition : bool then mret declared
           else
             old ← elementsOrEmpty declared;
             typeName ← nameNode (patch_type names);
             namedType ← alloc (ObjRecord [("kind", VString "NamedType"); ("name", typeName)]);
             type ← alloc (ObjRecord [("kind", VString "NonNullType"); ("type", namedType)]);
             variableName ← nameNode (patch_variable names);
             variable ← alloc (ObjRecord [("kind", VString "Variable"); ("name", variableName)]);
             varDef ← alloc (ObjRecord [("kind", VString "VariableDefinition");
                                        ("type", type); ("variable", variable)]);
             alloc (ObjArray (old ++ [varDef])));
        definitionProps ← ownProps definition;
        selectionSetProps ← ownProps selectionSet;
        newSelectionSet ← alloc (ObjRecord (setProp "selections" newSelections selectionSetProps));
        alloc (ObjRecord (setProp "selectionSet" newSelectionSet
                            (setProp "variableDefinitions" variableDefinitions definitionProps)))
    end.
End Patcher.

Definition patchSubscriptionWebhookField (schema : Schema) (definition : Val) : Run Val :=
  patchDefinition webhookUrlNames schema definition.

Definition patchSubscriptionWebhookSecretField (schema : Schema) (definition : Val) : Run Val :=
  patchDefinition webhookSecretNames schema definition.

(** *** Documents in the store *)

(** The object graph the parser builds for a document, allocated node by
    node.  (Locations and directives, which the patchers only copy, are
    not part of it.) *)
Definition record (kind : string) (props : list (string * Val)) : Run Val :=
  alloc (ObjRecord (("kind", VString kind) :: props)).

Fixpoint storeType (t : TypeNode) : Run Val :=
  match t with
  | NamedTypeNode n => name ← nameNode n; record "NamedType" [("name", name)]
  | ListTypeNode t' => type ← storeType t'; record "ListType" [("type", type)]
  | NonNullTypeNode t' => type ← storeType t'; record "NonNullType" [("type", type)]
  end.

Definition storeValue (v : ValueNode) : Run Val :=
  match v with
  | VariableNode n => name ← nameNode n; record "Variable" [("name", name)]
  | IntValueNode i => record "IntValue" [("value", VString i)]
  | FloatValueNode f => record "FloatValue" [("value", VString f)]
  | StringValueNode s => record "StringValue" [("value", VString s)]
  | BooleanValueNode b => record "BooleanValue" [("value", VString (if b then "true" else "false"))]
  | NullValueNode => record "NullValue" []
  | EnumValueNode e => record "EnumValue" [("value", VString e)]
  end.

Definition storeArgument (a : ArgumentNode) : Run Val :=
  name ← nameNode (argument_name a);
  value ← storeValue (argument_value a);
  record "Argument" [("name", name); ("value", value)].

Definition storeVariableDefinition (v : VariableDefinitionNode) : Run Val :=
  name ← nameNode (variable_name v);
  variable ← record "Variable" [("name", name)];
  type ← storeType (variable_type v);
  defaultValue ← match variable_defaultValue v with
                 | Some d => storeValue d
                 | None => mret VUndefined
                 end;
  record "VariableDefinition"
    [("variable", variable); ("type", type); ("defaultValue", defaultValue)].

(** An optional array property. *)
Definition storeOptional {A} (store : A → Run Val) (l : option (list A)) : Run Val :=
  match l with
  | Some items => elements ← mapM store items; alloc (ObjArray elements)
  | None => mret VUndefined
  end.

Definition storeOptionalName (n : option string) : Run Val :=
  match n with
  | Some n => nameNode n
  | None => mret VUndefined
  end.

Fixpoint storeSelection (s : SelectionNode) : Run Val :=
  let storeSelectionSet (selections : list SelectionNode) : Run Val :=
    elements ← mapM storeSelection selections;
    array ← alloc (ObjArray elements);
    record "SelectionSet" [("selections", array)] in
  match s with
  | FieldNode alias name arguments selectionSet =>
      alias ← storeOptionalName alias;
      name ← nameNode name;
      arguments ← storeOptional storeArgument arguments;
      selectionSet ← match selectionSet with
                     | Some selections => storeSelectionSet selections
                     | None => mret VUndefined
                     end;
      record "Field" [("alias", alias); ("name", name); ("arguments", arguments);
                      ("selectionSet", selectionSet)]
  | InlineFragmentNode typeCondition selections =>
      typeCondition ← match typeCondition with
                      | Some n => storeType (NamedTypeNode n)
                      | None => mret VUndefined
                      end;
      selectionSet ← storeSelectionSet selections;
      record "InlineFragment" [("typeCondition", typeCondition); ("selectionSet", selectionSet)]
  | FragmentSpreadNode name =>
      name ← nameNode name;
      record "FragmentSpread" [("name", name)]
  end.

Definition storeSelectionSet (selectionSet : option (list SelectionNode)) : Run Val :=
  match selectionSet with
  | Some selections =>
      array ← storeOptional storeSelection (Some selections);
      record "SelectionSet" [("selections", array)]
  | None => mret VUndefined
  end.

Definition operationText (operation : OperationType) : string :=
  match operation with
  | OpQuery => "query"
  | OpMutation => "mutation"
  | OpSubscription => "subscription"
  end.

Definition storeDefinition (d : DefinitionNode) : Run Val :=
  match d with
  | OperationDefinitionNode operation name variableDefinitions selectionSet =>
      name ← storeOptionalName name;
      variableDefinitions ← storeOptional storeVariableDefinition variableDefinitions;
      selectionSet ← storeSelectionSet selectionSet;
      record "OperationDefinition"
        [("operation", VString (operationText operation)); ("name", name);
         ("variableDefinitions", variableDefinitions); ("selectionSet", selectionSet)]
  | FragmentDefinitionNode name typeCondition variableDefinitions selectionSet =>
      name ← nameNode name;
      typeCondition ← storeType (NamedTypeNode typeCondition);
      variableDefinitions ← storeOptional storeVariableDefinition variableDefinitions;
      selectionSet ← storeSelectionSet selectionSet;
      record "FragmentDefinition"
        [("name", name); ("typeCondition", typeCondition);
         ("variableDefinitions", variableDefinitions); ("selectionSet", selectionSet)]
  end.

(** Reading a document back from the store.  The graph could be cyclic,
    so the reader takes fuel; [None] is a graph that is no document. *)
Section Load.
Variable h : Heap.

Definition propsOf (v : Val) : option (list (string * Val)) :=
  match v with
  | VRef l => match h !! l with Some (ObjRecord props) => Some props | _ => None end
  | _ => None
  end.

Definition elementsOf (v : Val) : option (list Val) :=
  match v with
  | VRef l => match h !! l with Some (ObjArray elements) => Some elements | _ => None end
  | _ => None
  end.

Definition stringOf (v : Val) : option string :=
  match v with VString s => Some s | _ => None end.

Definition kindOf (v : Val) : option string :=
  props ← propsOf v; stringOf (lookupProp "kind" props).

(** The [value] of the [Name] node at a property. *)
Definition loadName (v : Val) : option string :=
  props ← propsOf v; stringOf (lookupProp "value" props).

Definition loadOptional {A} (load : Val → option A) (v : Val) : option (option A) :=
  match v with
  | VUndefined => Some None
  | _ => Some <$> load v
  end.

Definition loadArray {A} (load : Val → option A) (v : Val) : option (list A) :=
  elements ← elementsOf v; mapM load elements.

Fixpoint loadType (fuel : nat) (v : Val) : option TypeNode :=
  match fuel with
  | O => None
  | S fuel' =>
      props ← propsOf v;
      kind ← stringOf (lookupProp "kind" props);
      if String.eqb kind "NamedType" then NamedTypeNode <$> loadName (lookupProp "name" props)
      else if String.eqb kind "ListType" then ListTypeNode <$> loadType fuel' (lookupProp "type" props)
      else if String.eqb kind "NonNullType"
      then NonNullTypeNode <$> loadType fuel' (lookupProp "type" props)
      else None
  end.

Definition loadValue (v : Val) : option ValueNode :=
  props ← propsOf v;
  kind ← stringOf (lookupProp "kind" props);
  if String.eqb kind "Variable" then VariableNode <$> loadName (lookupProp "name" props)
  else if String.eqb kind "IntValue" then IntValueNode <$> stringOf (lookupProp "value" props)
  else if String.eqb kind "FloatValue" then FloatValueNode <$> stringOf (lookupProp "value" props)
  else if String.eqb kind "StringValue" then StringValueNode <$> stringOf (lookupProp "value" props)
  else if String.eqb kind "BooleanValue"
  then (λ s, BooleanValueNode (String.eqb s "true")) <$> stringOf (lookupProp "value" props)
  else if String.eqb kind "NullValue" then Some NullValueNode
  else if String.eqb kind "EnumValue" then EnumValueNode <$> stringOf (lookupProp "value" props)
  else None.

Definition loadArgument (v : Val) : option ArgumentNode :=
  props ← propsOf v;
  name ← loadName (lookupProp "name" props);
  value ← loadValue (lookupProp "value" props);
  Some (mkArgument name value).

Definition loadVariableDefinition (fuel : nat) (v : Val) : option VariableDefinitionNode :=
  props ← propsOf v;
  variable ← propsOf (lookupProp "variable" props);
  name ← loadName (lookupProp "name" variable);
  type ← loadType fuel (lookupProp "type" props);
  defaultValue ← loadOptional loadValue (lookupProp "defaultValue" props);
  Some (mkVariableDefinition name type defaultValue).

Fixpoint loadSelection (fuel : nat) (v : Val) : option SelectionNode :=
  match fuel with
  | O => None
  | S fuel' =>
      let loadSelectionSet (v : Val) : option (list SelectionNode) :=
        props ← propsOf v;
        loadArray (loadSelection fuel') (lookupProp "selections" props) in
      props ← propsOf v;
      kind ← stringOf (lookupProp "kind" props);
      if String.eqb kind "Field" then
        alias ← loadOptional loadName (lookupProp "alias" props);
        name ← loadName (lookupProp "name" props);
        arguments ← loadOptional (loadArray loadArgument) (lookupProp "arguments" props);
        selectionSet ← loadOptional loadSelectionSet (lookupProp "selectionSet" props);
        Some (FieldNode alias name arguments selectionSet)
      else if String.eqb kind "InlineFragment" then
        typeCondition ← loadOptional
          (λ v, props ← propsOf v; loadName (lookupProp "name" props))
          (lookupProp "typeCondition" props);
        selections ← loadSelectionSet (lookupProp "selectionSet" props);
        Some (InlineFragmentNode typeCondition selections)
      else if String.eqb kind "FragmentSpread" then
        FragmentSpreadNode <$> loadName (lookupProp "name" props)
      else None
  end.

Definition loadDefinition (fuel : nat) (v : Val) : option DefinitionNode :=
  props ← propsOf v;
  variableDefinitions ←
    loadOptional (loadArray (loadVariableDefinition fuel)) (lookupProp "variableDefinitions" props);
  selectionSet ←
    loadOptional (λ v, props ← propsOf v;
                       loadArray (loadSelection fuel) (lookupProp "selections" props))
      (lookupProp "selectionSet" props);
  match lookupProp "operation" props with
  | VString operation =>
      name ← loadOptional loadName (lookupProp "name" props);
      operation ←
        (if String.eqb operation "query" then Some OpQuery
         else if String.eqb operation "mutation" then Some OpMutation
         else if String.eqb operation "subscription" then Some OpSubscription
         else None);
      Some (OperationDefinitionNode operation name variableDefinitions selectionSet)
  | _ =>
      name ← loadName (lookupProp "name" props);
      typeCondition ← (props ← propsOf (lookupProp "typeCondition" props);
                       loadName (lookupProp "name" props));
      Some (FragmentDefinitionNode name typeCondition variableDefinitions selectionSet)
  end.
End Load.

End Store.


(** * Properties *)

(** ** Outcomes and [mapM] *)

Section OutcomeFacts.
Context {A B : Type}.
Implicit Types (f : A → Outcome B) (l : list A) (k : list B).

Lemma Outcome_mapM_nil f : mapM f [] = Ok [].
Proof. reflexivity. Qed.

Lemma Outcome_mapM_cons f x l :
  mapM f (x :: l) = y ← f x; k ← mapM f l; Ok (y :: k).
Proof. reflexivity. Qed.

Lemma Outcome_mapM_Ok f l k :
  mapM f l = Ok k ↔ Forall2 (λ x y, f x = Ok y) l k.
Proof.
  revert k. induction l as [|x l IH]; intros k.
  - rewrite Outcome_mapM_nil. split.
    + intros [= <-]. constructor.
    + intros H. inversion H. reflexivity.
  - rewrite Outcome_mapM_cons. split.
    + destruct (f x) as [y| |] eqn:Hx; simpl; try discriminate.
      destruct (mapM f l) as [k'| |] eqn:Hl; simpl; try discriminate.
      intros [= <-]. constructor; [assumption|]. by apply IH.
    + intros H. inversion H as [|? y ? k' Hx Hl]; subst.
      rewrite Hx. simpl. apply IH in Hl. rewrite Hl. reflexivity.
Qed.

Lemma Outcome_mapM_ext f g l :
  (∀ x, x ∈ l → f x = g x) → mapM f l = mapM g l.
Proof.
  induction l as [|x l IH]; intros H; [reflexivity|].
  rewrite !Outcome_mapM_cons, (H x) by constructor.
  rewrite IH; [reflexivity|]. intros y Hy. apply H. by constructor.
Qed.

Lemma Outcome_mapM_isOk f l :
  isOk (mapM f l) = true ↔ Forall (λ x, isOk (f x) = true) l.
Proof.
  induction l as [|x l IH].
  - split; [constructor|reflexivity].
  - rewrite Outcome_mapM_cons, Forall_cons, <- IH.
    destruct (f x); simpl; [|intuition discriminate..].
    destruct (mapM f l); simpl; intuition discriminate.
Qed.
End OutcomeFacts.

Lemma Outcome_fmap_id {A} (o : Outcome A) : (λ a, a) <$> o = o.
Proof. by destruct o. Qed.

Lemma Outcome_fmap_compose {A B C} (f : A → B) (g : B → C) (o : Outcome A) :
  g <$> (f <$> o) = (g ∘ f) <$> o.
Proof. by destruct o. Qed.

(** ** The variable signature builder *)

Definition declaredVariables (operationDefinition : DefinitionNode) : list VariableDefinitionNode :=
  orEmpty (def_variableDefinitions operationDefinition).

Lemma retainedVariables_filter variableNames operationDefinition :
  retainedVariables variableNames operationDefinition =
  typeScriptSignatureForOperationVariablesHelper <$>
    filter (λ v, variable_name v ∈ variableNames) (declaredVariables operationDefinition).
Proof.
  unfold retainedVariables, declaredVariables.
  induction (orEmpty (def_variableDefinitions operationDefinition)) as [|v l IH];
    [reflexivity|].
  rewrite fmap_cons, !filter_cons. simpl. case_decide; [rewrite fmap_cons|]; by rewrite IH.
Qed.

Lemma retainedVariables_nil operationDefinition :
  retainedVariables [] operationDefinition = [].
Proof.
  rewrite retainedVariables_filter.
  induction (declaredVariables operationDefinition) as [|v l IH]; [reflexivity|].
  rewrite filter_cons. case_decide as H; [by apply elem_of_nil in H|exact IH].
Qed.

(** The value of the builder, with the dead comparison removed. *)
Lemma typeScriptSignatureForOperationVariables_eq fuel variableNames schema operationDefinition :
  typeScriptSignatureForOperationVariables fuel variableNames schema operationDefinition =
  typesObject ← mapM (variableTsType fuel schema)
                     (retainedVariables variableNames operationDefinition);
  Ok ("{" +:+ Js.join ", " ((λ '(name, tsType), quoted name +:+ ": " +:+ tsType) <$> typesObject)
       +:+ "}").
Proof.
  unfold typeScriptSignatureForOperationVariables.
  destruct (mapM _ _); reflexivity.
Qed.

(** C1 (the code departs from the claim): the comparison [types === '']
    is made on the braced text, which is never empty, so the builder
    never returns ['null']; with no requested name it returns the empty
    object expression ['{}']. *)
Theorem C1_empty_request_yields_empty_object :
  ∀ fuel schema operationDefinition,
    typeScriptSignatureForOperationVariables fuel [] schema operationDefinition = Ok "{}"
    ∧ ∀ variableNames,
        typeScriptSignatureForOperationVariables fuel variableNames schema operationDefinition
        ≠ Ok "null".
Proof.
  intros fuel schema operationDefinition. split.
  - rewrite typeScriptSignatureForOperationVariables_eq, retainedVariables_nil.
    reflexivity.
  - intros variableNames. rewrite typeScriptSignatureForOperationVariables_eq.
    destruct (mapM _ _) as [typesObject| |]; simpl; discriminate.
Qed.

(** The schema and the operation of the scenario
    [query Q($a: Int, $b: String) { field }]. *)
Definition scenarioSchema : Schema :=
  mkSchema
    (list_to_map [("String", ScalarDef); ("Int", ScalarDef); ("Boolean", ScalarDef);
                  ("Query", ObjectDef [mkFieldDef "field" (GNamed "String") None []])])
    (Some "Query") None None.

Definition scenarioQuery : DefinitionNode :=
  OperationDefinitionNode OpQuery (Some "Q")
    (Some [mkVariableDefinition "a" (NamedTypeNode "Int") None;
           mkVariableDefinition "b" (NamedTypeNode "String") None])
    (Some [FieldNode None "field" (Some []) None]).

(** The text of one entry. *)
Definition variableEntryText (entry : string * string) : string :=
  quoted entry.1 +:+ ": " +:+ entry.2.

Lemma variableTsType_name fuel schema p e :
  variableTsType fuel schema p = Ok e → e.1 = p.1.
Proof.
  destruct p as [n v]. unfold variableTsType.
  destruct (parseType _); simpl; try discriminate.
  destruct (typeScriptForGraphQLType _ _ _); simpl; try discriminate.
  by intros [= <-].
Qed.

Lemma filter_ext_elem {A} (P Q : A → Prop) `{∀ x, Decision (P x)} `{∀ x, Decision (Q x)}
    (l : list A) :
  (∀ x, P x ↔ Q x) → filter P l = filter Q l.
Proof.
  intros HPQ. induction l as [|x l IH]; [reflexivity|].
  rewrite !filter_cons, IH. destruct (decide (P x)) as [HP|HP], (decide (Q x)) as [HQ|HQ];
    try reflexivity; exfalso; apply HPQ in HP || apply HPQ in HQ; contradiction.
Qed.



(** ** Sorting with a comparator *)

Section SortFacts.
Context {A : Type}.
Variable compareFn : A → A → Z.

(** [a] may come before [b]. *)
Definition notAfter (a b : A) : Prop := compareFn a b ≤ 0.

Hypothesis compare_total : ∀ a b, notAfter a b ∨ notAfter b a.
Hypothesis compare_trans : ∀ a b c, notAfter a b → notAfter b c → notAfter a c.

Lemma sortInsert_Permutation x l : sortInsert compareFn x l ≡ₚ x :: l.
Proof.
  induction l as [|y l IH]; [reflexivity|]. simpl.
  destruct (_ || _); [|reflexivity].
  rewrite IH. apply Permutation_swap.
Qed.

Lemma arraySort_acc_Permutation l acc :
  fold_left (λ acc x, sortInsert compareFn x acc) l acc ≡ₚ l ++ acc.
Proof.
  revert acc. induction l as [|x l IH]; intros acc; [reflexivity|]. simpl.
  rewrite IH, sortInsert_Permutation. by rewrite Permutation_middle.
Qed.

Lemma arraySort_Permutation l : arraySort compareFn l ≡ₚ l.
Proof. unfold arraySort. by rewrite arraySort_acc_Permutation, app_nil_r. Qed.

Lemma sortInsert_StronglySorted x l :
  StronglySorted notAfter l → StronglySorted notAfter (sortInsert compareFn x l).
Proof.
  induction l as [|y l IH]; intros Hl.
  - repeat constructor.
  - apply StronglySorted_cons in Hl as [Hy Hl]. simpl.
    destruct (_ || _) eqn:Hc.
    + apply StronglySorted_cons. split; [|by apply IH].
      rewrite sortInsert_Permutation. constructor; [|assumption].
      unfold notAfter. apply orb_true_iff in Hc as [Hc|Hc]; lia.
    + assert (notAfter x y) as Hxy.
      { destruct (compare_total x y) as [?|Hyx]; [assumption|].
        unfold notAfter in Hyx. apply orb_false_iff in Hc as [Hc1 Hc2]. lia. }
      apply StronglySorted_cons. split.
      * constructor; [assumption|].
        eapply Forall_impl; [exact Hy|]. intros z Hz. by eapply compare_trans.
      * by apply StronglySorted_cons.
Qed.

Lemma arraySort_StronglySorted l : StronglySorted notAfter (arraySort compareFn l).
Proof.
  unfold arraySort.
  assert (∀ acc, StronglySorted notAfter acc →
            StronglySorted notAfter (fold_left (λ acc x, sortInsert compareFn x acc) l acc)) as H.
  { induction l as [|x l IH]; intros acc Hacc; [exact Hacc|]. simpl.
    apply IH. by apply sortInsert_StronglySorted. }
  apply H. constructor.
Qed.
End SortFacts.

(** ** [gatherVariableDefinitions] *)

(** A comparator by code units, for the examples. *)
Definition codeUnitCompare (left right : string) : Z :=
  match String.compare left right with
  | Lt => -1
  | Eq => 0
  | Gt => 1
  end.

Lemma codeUnitCompare_le left right :
  codeUnitCompare left right ≤ 0 ↔ String.le left right.
Proof.
  unfold codeUnitCompare, String.le, String.leb.
  destruct (String.compare left right); simpl; intuition (lia || done).
Qed.

Lemma codeUnitCompare_total a b : codeUnitCompare a b ≤ 0 ∨ codeUnitCompare b a ≤ 0.
Proof. rewrite !codeUnitCompare_le. apply String.le_total. Qed.

Lemma codeUnitCompare_trans a b c :
  codeUnitCompare a b ≤ 0 → codeUnitCompare b c ≤ 0 → codeUnitCompare a c ≤ 0.
Proof. rewrite !codeUnitCompare_le. apply (@transitivity _ String.le _). Qed.

(** The variables a definition declares ([undefined] declares none). *)
Definition declaredBy (definition : option DefinitionNode) : list VariableDefinitionNode :=
  match definition with
  | Some d => declaredVariables d
  | None => []
  end.

Definition twoVariablesReversed : DefinitionNode :=
  OperationDefinitionNode OpQuery (Some "Q")
    (Some [mkVariableDefinition "b" (NonNullTypeNode (NamedTypeNode "String")) None;
           mkVariableDefinition "a" (ListTypeNode (NamedTypeNode "Int")) None])
    (Some [FieldNode None "field" (Some []) None]).

(** C10: whatever the collation [localeCompare] is, as long as it is a
    total preorder, [gatherVariableDefinitions] returns the pairs (variable
    name, printed type) of the declared variables, each once, arranged in
    ascending order of the names; it returns the empty list when nothing
    is declared; and the arrangement is by name, not by declaration:
    [$b: String!, $a: [Int]] comes out as [a], then [b]. *)
Theorem C10_pairs_sorted_by_name :
  ∀ (localeCompare : string → string → Z),
    (∀ a b, localeCompare a b ≤ 0 ∨ localeCompare b a ≤ 0) →
    (∀ a b c, localeCompare a b ≤ 0 → localeCompare b c ≤ 0 → localeCompare a c ≤ 0) →
    ∀ definition,
      let result := gatherVariableDefinitions localeCompare definition in
      StronglySorted (λ left right, localeCompare left.1 right.1 ≤ 0) result
      ∧ result ≡ₚ (λ v, (variable_name v, print (variable_type v))) <$> declaredBy definition
      ∧ (declaredBy definition = [] → result = [])
      ∧ gatherVariableDefinitions codeUnitCompare (Some twoVariablesReversed)
        = [("a", "[Int]"); ("b", "String!")].
Proof.
  intros localeCompare Htotal Htrans definition result.
  assert (result = arraySort (λ l r, localeCompare l.1 r.1)
                     ((λ v, (variable_name v, print (variable_type v))) <$> declaredBy definition))
    as Hresult.
  { subst result. unfold gatherVariableDefinitions, declaredBy, declaredVariables.
    destruct definition as [d|]; [|reflexivity].
    destruct (def_variableDefinitions d); reflexivity. }
  split; [|split; [|split]].
  - rewrite Hresult.
    apply (arraySort_StronglySorted (λ l r : string * string, localeCompare l.1 r.1)).
    + intros a b. apply Htotal.
    + intros a b c. apply Htrans.
  - rewrite Hresult. apply arraySort_Permutation.
  - intros Hnone. rewrite Hresult, Hnone. reflexivity.
  - vm_compute. reflexivity.
Qed.

Lemma C10_pairs_sorted_by_name_witness :
  StronglySorted (λ left right : string * string, codeUnitCompare left.1 right.1 ≤ 0)
    (gatherVariableDefinitions codeUnitCompare (Some twoVariablesReversed))
  ∧ gatherVariableDefinitions codeUnitCompare None = [].
Proof.
  split.
  - apply (C10_pairs_sorted_by_name codeUnitCompare codeUnitCompare_total codeUnitCompare_trans
             (Some twoVariablesReversed)).
  - apply (C10_pairs_sorted_by_name codeUnitCompare codeUnitCompare_total codeUnitCompare_trans
             None).
    reflexivity.
Defined.

(** ** The webhook patchers on the document *)

Section PatcherFacts.
Variable names : PatchNames.
Variable schema : Schema.

(** A selection that [patchSelection] can handle: a field selection names
    a field of the subscription root. *)
Definition selectsKnownField (subscriptionType : GqlType) (selection : SelectionNode) : Prop :=
  match selection with
  | FieldNode _ name _ _ =>
      is_Some (getFields schema subscriptionType ≫= (λ fields, lookupField fields name))
  | _ => True
  end.

Lemma patchSelection_isOk subscriptionType selection :
  isOk (patchSelection names schema subscriptionType selection) = true
  ↔ selectsKnownField subscriptionType selection.
Proof.
  destruct selection as [alias name arguments selectionSet| |]; simpl; [|done..].
  destruct (getFields schema subscriptionType ≫= _) as [field|]; simpl.
  - split; [eauto|]. intros _. by destruct (_ && _).
  - split; [discriminate|]. by intros [? ?].
Qed.

Lemma patchSelection_throws subscriptionType selection :
  ¬ selectsKnownField subscriptionType selection →
  patchSelection names schema subscriptionType selection = Throw TypeError.
Proof.
  destruct selection as [alias name arguments selectionSet| |]; simpl; [|done..].
  destruct (getFields schema subscriptionType ≫= _) as [field|]; [|done].
  intros []. eauto.
Qed.

Lemma patchSelection_never_out_of_fuel subscriptionType selection :
  patchSelection names schema subscriptionType selection ≠ OutOfFuel.
Proof.
  destruct selection as [alias name arguments selectionSet| |]; simpl; [|done..].
  destruct (getFields schema subscriptionType ≫= _) as [field|]; [|done].
  by destruct (_ && _).
Qed.

Lemma selectionHasArg_added arguments :
  selectionHasArg names (Some (orEmpty arguments ++ [addedArgument names])) = true.
Proof.
  simpl. rewrite existsb_app. simpl. rewrite String.eqb_refl.
  by rewrite orb_true_r.
Qed.

(** A patched selection is left alone by a second pass. *)
Lemma patchSelection_idempotent subscriptionType selection selection' :
  patchSelection names schema subscriptionType selection = Ok selection' →
  patchSelection names schema subscriptionType selection' = Ok selection'.
Proof.
  destruct selection as [alias name arguments selectionSet| |]; simpl;
    [|by intros [= <-]..].
  destruct (getFields schema subscriptionType ≫= _) as [field|] eqn:Hfield; [|done].
  destruct (_ && _) eqn:Hcond; intros [= <-]; simpl; rewrite Hfield.
  - pose proof (selectionHasArg_added arguments) as Hhas. simpl in Hhas.
    rewrite Hhas, andb_false_r. reflexivity.
  - rewrite Hcond. reflexivity.
Qed.

Lemma patchSelections_idempotent subscriptionType selections selections' :
  mapM (patchSelection names schema subscriptionType) selections = Ok selections' →
  mapM (patchSelection names schema subscriptionType) selections' = Ok selections'.
Proof.
  rewrite !Outcome_mapM_Ok. intros H.
  induction H as [|s s' l l' Hs _ IH]; constructor; [|exact IH].
  by eapply patchSelection_idempotent.
Qed.

Lemma hasVariableDefinition_added variableDefinitions :
  hasVariableDefinition names
    (Some (orEmpty variableDefinitions ++ [addedVariableDefinition names])) = true.
Proof.
  simpl. rewrite existsb_app. simpl. rewrite String.eqb_refl.
  by rewrite orb_true_r.
Qed.

Lemma patchDefinition_idempotent definition definition' :
  patchDefinition names schema definition = Ok definition' →
  patchDefinition names schema definition' = Ok definition'.
Proof.
  destruct definition as [operation name variableDefinitions selectionSet| ];
    [|by intros [= <-]].
  destruct operation; try by intros [= <-].
  simpl. destruct (getSubscriptionType schema) as [subscriptionType|] eqn:Hroot.
  2:{ intros [= <-]. simpl. by rewrite Hroot. }
  destruct selectionSet as [selections|]; [|done].
  destruct (mapM _ selections) as [selections'| |] eqn:Hsel; simpl; try done.
  intros [= <-]. simpl. rewrite Hroot.
  rewrite (patchSelections_idempotent _ _ _ Hsel). simpl.
  destruct (hasVariableDefinition names variableDefinitions) eqn:Hvar.
  - rewrite Hvar. reflexivity.
  - pose proof (hasVariableDefinition_added variableDefinitions) as Hadded.
    simpl in Hadded. simpl. rewrite Hadded. reflexivity.
Qed.

(** Outside subscriptions with a subscription root, the definition comes
    back as it is. *)
Lemma patchDefinition_noop definition :
  def_operation definition ≠ Some OpSubscription ∨ getSubscriptionType schema = None →
  patchDefinition names schema definition = Ok definition.
Proof.
  destruct definition as [[] name variableDefinitions selectionSet| ]; simpl; try done.
  intros [H|H]; [done|]. by rewrite H.
Qed.

Lemma patchDefinition_isOk subscriptionType name variableDefinitions selections :
  getSubscriptionType schema = Some subscriptionType →
  isOk (patchDefinition names schema
          (OperationDefinitionNode OpSubscription name variableDefinitions (Some selections)))
    = true
  ↔ Forall (selectsKnownField subscriptionType) selections.
Proof.
  intros Hroot. simpl. rewrite Hroot.
  rewrite <- (Forall_iff _ _ _ (patchSelection_isOk subscriptionType)).
  rewrite <- Outcome_mapM_isOk.
  by destruct (mapM _ selections).
Qed.

Lemma patchSelections_throw subscriptionType selections :
  ¬ Forall (selectsKnownField subscriptionType) selections →
  mapM (patchSelection names schema subscriptionType) selections = Throw TypeError.
Proof.
  induction selections as [|s l IH]; intros Hnot.
  - destruct Hnot. constructor.
  - rewrite Outcome_mapM_cons.
    destruct (patchSelection names schema subscriptionType s) as [s'| e|] eqn:Hs.
    + simpl. rewrite IH; [reflexivity|].
      intros Hl. apply Hnot. constructor; [|exact Hl].
      apply patchSelection_isOk. by rewrite Hs.
    + simpl. f_equal. destruct s as [alias name arguments selectionSet| |]; simpl in Hs;
        try discriminate.
      destruct (getFields schema subscriptionType ≫= _); [|congruence].
      by destruct (_ && _).
    + by apply patchSelection_never_out_of_fuel in Hs.
Qed.

Lemma patchDefinition_throws subscriptionType name variableDefinitions selections :
  getSubscriptionType schema = Some subscriptionType →
  ¬ Forall (selectsKnownField subscriptionType) selections →
  patchDefinition names schema
    (OperationDefinitionNode OpSubscription name variableDefinitions (Some selections))
  = Throw TypeError.
Proof.
  intros Hroot Hnot. simpl. rewrite Hroot.
  by rewrite (patchSelections_throw _ _ Hnot).
Qed.
End PatcherFacts.

(** The scenario [subscription { onItemChanged(webhookUrl: String): Item }]
    with the selection [onItemChanged { id }]. *)
Definition itemSchema : Schema :=
  mkSchema
    (list_to_map
       [("String", ScalarDef); ("ID", ScalarDef); ("Boolean", ScalarDef);
        ("Item", ObjectDef [mkFieldDef "id" (GNamed "ID") None []]);
        ("Query", ObjectDef [mkFieldDef "item" (GNamed "Item") None []]);
        ("Subscription",
         ObjectDef [mkFieldDef "onItemChanged" (GNamed "Item") None
                      [mkArgDef "webhookUrl" (GNamed "String")]])])
    (Some "Query") None (Some "Subscription").

Definition itemSubscription : DefinitionNode :=
  OperationDefinitionNode OpSubscription None (Some [])
    (Some [FieldNode None "onItemChanged" (Some []) (Some [FieldNode None "id" (Some []) None])]).

(** [subscription ($netligraphWebhookUrl: String!) { onItemChanged(webhookUrl:
    $netligraphWebhookUrl) { id } }]. *)
Definition itemSubscriptionPatched : DefinitionNode :=
  OperationDefinitionNode OpSubscription None
    (Some [mkVariableDefinition "netligraphWebhookUrl"
             (NonNullTypeNode (NamedTypeNode "String")) None])
    (Some [FieldNode None "onItemChanged"
             (Some [mkArgument "webhookUrl" (VariableNode "netligraphWebhookUrl")])
             (Some [FieldNode None "id" (Some []) None])]).

(** A subscription that selects a field the root does not have. *)
Definition strayFieldSubscription : DefinitionNode :=
  OperationDefinitionNode OpSubscription None (Some [])
    (Some [FieldNode None "onItemChanged" (Some []) None;
           FieldNode None "onItemRemoved" (Some []) None]).

(** C3: a second pass of [patchSubscriptionWebhookField] over its own
    result returns that result unchanged, so no [webhookUrl] argument and
    no [netligraphWebhookUrl] declaration is added twice; in the scenario
    the first pass adds the argument [webhookUrl: $netligraphWebhookUrl]
    and the declaration [$netligraphWebhookUrl: String!], and the second
    pass changes nothing. *)
Theorem C3_webhook_patch_idempotent :
  (∀ schema definition definition',
     patchSubscriptionWebhookField schema definition = Ok definition' →
     patchSubscriptionWebhookField schema definition' = Ok definition')
  ∧ patchSubscriptionWebhookField itemSchema itemSubscription = Ok itemSubscriptionPatched
  ∧ patchSubscriptionWebhookField itemSchema itemSubscriptionPatched
    = Ok itemSubscriptionPatched.
Proof.
  split; [|split].
  - intros schema definition definition'. apply patchDefinition_idempotent.
  - vm_compute. reflexivity.
  - vm_compute. reflexivity.
Qed.

Lemma C3_webhook_patch_idempotent_witness :
  patchSubscriptionWebhookField itemSchema itemSubscription = Ok itemSubscriptionPatched
  ∧ patchSubscriptionWebhookField itemSchema itemSubscriptionPatched
    = Ok itemSubscriptionPatched.
Proof.
  assert (patchSubscriptionWebhookField itemSchema itemSubscription
          = Ok itemSubscriptionPatched) as Hfirst by (vm_compute; reflexivity).
  split; [exact Hfirst|].
  exact (proj1 C3_webhook_patch_idempotent itemSchema itemSubscription
           itemSubscriptionPatched Hfirst).
Defined.

(** C9: for a subscription against a schema with a subscription root,
    each patcher returns exactly when every top-level field selection
    names a field of that root; a selection naming an absent field makes
    the read of [field.args] throw a [TypeError], which nothing catches. *)
Theorem C9_patchers_return_iff_fields_known :
  ∀ schema subscriptionType name variableDefinitions selections,
    getSubscriptionType schema = Some subscriptionType →
    let definition :=
      OperationDefinitionNode OpSubscription name variableDefinitions (Some selections) in
    let known := Forall (selectsKnownField schema subscriptionType) selections in
    (isOk (patchSubscriptionWebhookField schema definition) = true ↔ known)
    ∧ (isOk (patchSubscriptionWebhookSecretField schema definition) = true ↔ known)
    ∧ (¬ known →
       patchSubscriptionWebhookField schema definition = Throw TypeError
       ∧ patchSubscriptionWebhookSecretField schema definition = Throw TypeError).
Proof.
  intros schema subscriptionType name variableDefinitions selections Hroot definition known.
  split; [|split].
  - by apply patchDefinition_isOk.
  - by apply patchDefinition_isOk.
  - intros Hnot. split; by apply patchDefinition_throws with subscriptionType.
Qed.

Lemma C9_patchers_return_iff_fields_known_witness :
  isOk (patchSubscriptionWebhookSecretField itemSchema itemSubscription) = true
  ∧ patchSubscriptionWebhookField itemSchema strayFieldSubscription = Throw TypeError.
Proof.
  split.
  - apply (C9_patchers_return_iff_fields_known itemSchema (GNamed "Subscription") None (Some [])
             [FieldNode None "onItemChanged" (Some []) (Some [FieldNode None "id" (Some []) None])]
             eq_refl).
    repeat constructor. vm_compute. eauto.
  - apply (C9_patchers_return_iff_fields_known itemSchema (GNamed "Subscription") None (Some [])
             [FieldNode None "onItemChanged" (Some []) None;
              FieldNode None "onItemRemoved" (Some []) None]
             eq_refl).
    intros Hknown. apply Forall_cons in Hknown as [_ Hknown].
    apply Forall_cons in Hknown as [Hstray _].
    vm_compute in Hstray. destruct Hstray as [? Hstray]. discriminate Hstray.
Defined.

(** ** Wrappers, [listCount] and the type mapper *)

(** Number of list wrappers and of all wrappers of a type. *)
Fixpoint listDepth (t : GqlType) : nat :=
  match t with
  | GNamed _ => 0
  | GList t' => S (listDepth t')
  | GNonNull t' => listDepth t'
  end.

Fixpoint wrapDepth (t : GqlType) : nat :=
  match t with
  | GNamed _ => 0
  | GList t' | GNonNull t' => S (wrapDepth t')
  end.

(** Types as the library builds them: a non-null wrapper is never put
    around a non-null type. *)
Fixpoint wellFormedType (t : GqlType) : bool :=
  match t with
  | GNamed _ => true
  | GList t' => wellFormedType t'
  | GNonNull t' => negb (isNonNullType (Some t')) && wellFormedType t'
  end.

(** [n] layers of [Array<...>] around a type expression. *)
Definition nestArrayText (n : nat) (s : string) : string :=
  Nat.iter n (λ sub, "Array<" +:+ sub +:+ ">") s.

Lemma namedTypeOf_idemp t : namedTypeOf (namedTypeOf t) = namedTypeOf t.
Proof. induction t; simpl; auto. Qed.

Lemma listDepth_namedTypeOf t : listDepth (namedTypeOf t) = 0%nat.
Proof. induction t; simpl; auto. Qed.

Lemma typeName_namedTypeOf t : typeName (namedTypeOf t) = typeName t.
Proof. unfold typeName. by rewrite namedTypeOf_idemp. Qed.

Definition bailLine : string := "Bailing on potential infinite recursion".

Lemma Logged_mret {A} (a : A) : (mret a : Logged A) = ([], Ok a).
Proof. reflexivity. Qed.

Lemma Logged_bind_eq {A B} (m : Logged A) (f : A → Logged B) :
  m ≫= f =
  match m.2 with
  | Ok a => (m.1 ++ (f a).1, (f a).2)
  | Throw e => (m.1, Throw e)
  | OutOfFuel => (m.1, OutOfFuel)
  end.
Proof. reflexivity. Qed.

Lemma listCountLoop_within t inner total :
  total + Z.of_nat (wrapDepth t) ≤ maximumDepth →
  listCountLoop t inner total = ([], Ok (inner + Z.of_nat (listDepth t))).
Proof.
  revert inner total. induction t as [n|t IH|t IH]; intros inner total Hdepth; simpl.
  - rewrite Logged_mret. do 2 f_equal. lia.
  - simpl in Hdepth. destruct (Z.ltb_spec maximumDepth (total + 1)); [lia|].
    rewrite IH by lia. do 2 f_equal. lia.
  - simpl in Hdepth. destruct (Z.ltb_spec maximumDepth (total + 1)); [lia|].
    rewrite IH by lia. reflexivity.
Qed.

Lemma listCountLoop_overrun t inner total :
  total ≤ maximumDepth →
  maximumDepth < total + Z.of_nat (wrapDepth t) →
  listCountLoop t inner total = ([bailLine], Ok errorSigil).
Proof.
  revert inner total. induction t as [n|t IH|t IH]; intros inner total Hle Hdepth; simpl.
  - simpl in Hdepth. lia.
  - simpl in Hdepth. destruct (Z.ltb_spec maximumDepth (total + 1)); [reflexivity|].
    apply IH; lia.
  - simpl in Hdepth. destruct (Z.ltb_spec maximumDepth (total + 1)); [reflexivity|].
    apply IH; lia.
Qed.

Lemma listCount_within t :
  Z.of_nat (wrapDepth t) ≤ maximumDepth →
  listCount t = ([], Ok (Z.of_nat (listDepth t))).
Proof. intros H. unfold listCount. by rewrite listCountLoop_within. Qed.

Lemma listCount_overrun t :
  maximumDepth < Z.of_nat (wrapDepth t) →
  listCount t = ([bailLine], Ok errorSigil).
Proof. intros H. unfold listCount. by rewrite listCountLoop_overrun. Qed.

(** The [isList] test of the shape builder. *)
Definition isListField (t : GqlType) : bool :=
  isListType (Some t)
  || (negb (negb (isNonNullType (Some t))) && isListType (Some t ≫= ofTypeOf)).

Lemma isListField_false t :
  wellFormedType t = true → isListField t = false →
  listDepth t = 0%nat ∧ (wrapDepth t ≤ 1)%nat.
Proof.
  destruct t as [n|t|t]; simpl; [auto|discriminate|].
  destruct t as [n|t|t]; simpl; [auto|discriminate..].
Qed.

Lemma typeScriptForType_list fuel schema t :
  typeScriptForType fuel schema (GList t) =
  subType ← typeScriptForType fuel schema t; Ok ("Array<" +:+ subType +:+ ">").
Proof. destruct fuel; reflexivity. Qed.

Lemma typeScriptForType_nonnull fuel schema t :
  typeScriptForType fuel schema (GNonNull t) = typeScriptForType fuel schema t.
Proof. destruct fuel; reflexivity. Qed.

Lemma typeScriptForType_unwraps fuel schema t :
  typeScriptForType fuel schema t =
  nestArrayText (listDepth t) <$> typeScriptForType fuel schema (namedTypeOf t).
Proof.
  induction t as [n|t IH|t IH].
  - simpl namedTypeOf. simpl listDepth. unfold nestArrayText. simpl Nat.iter.
    by rewrite Outcome_fmap_id.
  - rewrite typeScriptForType_list, IH. simpl namedTypeOf.
    by destruct (typeScriptForType fuel schema (namedTypeOf t)).
  - rewrite typeScriptForType_nonnull, IH. reflexivity.
Qed.

(** ** The shape builder *)

(** The same field descriptor with another declared type. *)
Definition withType (field : FieldDef) (t : GqlType) : FieldDef :=
  mkFieldDef (field_name field) t (field_description field) (field_args field).

Lemma namedTypeOf_named t : ∃ n, namedTypeOf t = GNamed n.
Proof. induction t; simpl; eauto. Qed.

Lemma nesting_within t :
  wellFormedType t = true → Z.of_nat (wrapDepth t) ≤ maximumDepth →
  (if isListField t then listCount t else mret 0) = ([], Ok (Z.of_nat (listDepth t))).
Proof.
  intros Hwf Hdepth. destruct (isListField t) eqn:Hlist.
  - by apply listCount_within.
  - apply isListField_false in Hlist as [-> _]; done.
Qed.

Lemma nesting_overrun t :
  wellFormedType t = true → maximumDepth < Z.of_nat (wrapDepth t) →
  (if isListField t then listCount t else mret 0) = ([bailLine], Ok errorSigil).
Proof.
  intros Hwf Hdepth. destruct (isListField t) eqn:Hlist.
  - by apply listCount_overrun.
  - apply isListField_false in Hlist as [_ Hle]; [|done]. unfold maximumDepth in *. lia.
Qed.

Lemma wrapArrays_not_positive k v : k ≤ 0 → wrapArrays k v = v.
Proof. intros Hk. unfold wrapArrays. by replace (Z.to_nat k) with 0%nat by lia. Qed.

Lemma Logged_bind_outcome {A B} (m1 m2 : Logged A) (k : A → Logged B) :
  m1.2 = m2.2 → (m1 ≫= k).2 = (m2 ≫= k).2.
Proof. intros H. rewrite !Logged_bind_eq, H. by destruct (m2.2). Qed.

(** The shape of [helperOnField] past the test on the name, with the
    computation of the nesting level left open. *)
Section ShapeWith.
Context {S : Type}.
Variables (m : Logged S) (R : S → Logged JsVal) (dn : string) (desc : JsVal).

Definition shapeWith (nesting : Logged Z) : Logged JsVal :=
  m ≫= (λ s, nesting ≫= λ nestingLevel, R s ≫= λ returnType,
     if JsValue.truthy returnType
     then mret (shapeEntry dn (wrapArrays nestingLevel returnType) desc)
     else warn "No returnType!" JUndefined).

Lemma shapeWith_level k log ty d :
  shapeWith (mret 0) = (log, Ok (shapeEntry dn ty d)) →
  shapeWith ([], Ok k) = (log, Ok (shapeEntry dn (wrapArrays k ty) d)).
Proof.
  unfold shapeWith. rewrite !Logged_bind_eq.
  destruct m as [l1 [s| |]]; simpl; try discriminate.
  rewrite !Logged_bind_eq.
  destruct (R s) as [l2 [rt| |]]; simpl; try discriminate.
  destruct (JsValue.truthy rt); simpl; [|discriminate].
  intros [= <- <- <-]. reflexivity.
Qed.

Lemma shapeWith_sigil_outcome line :
  (shapeWith ([line], Ok errorSigil)).2 = (shapeWith (mret 0)).2.
Proof.
  unfold shapeWith. rewrite !Logged_bind_eq.
  destruct m as [l1 [s| |]]; reflexivity.
Qed.

Lemma shapeWith_sigil_log line :
  isOk m.2 = true → line ∈ (shapeWith ([line], Ok errorSigil)).1.
Proof.
  unfold shapeWith. rewrite !Logged_bind_eq.
  destruct m as [l1 [s| |]]; simpl; try discriminate. intros _.
  rewrite !Logged_bind_eq. simpl.
  apply elem_of_app. right. by constructor.
Qed.
End ShapeWith.

Lemma helperOnField_within schema sub field dn name t log ty desc :
  wellFormedType t = true → Z.of_nat (wrapDepth t) ≤ maximumDepth →
  Js.startsWith "__" name = false →
  helperOnField schema sub (Some (withType field (namedTypeOf t))) dn name
    = (log, Ok (shapeEntry dn ty desc)) →
  helperOnField schema sub (Some (withType field t)) dn name
    = (log, Ok (shapeEntry dn (wrapArrays (Z.of_nat (listDepth t)) ty) desc)).
Proof.
  intros Hwf Hdepth Hname. unfold helperOnField. rewrite Hname.
  cbn [fmap option_fmap option_map withType field_type getNamedType].
  rewrite namedTypeOf_idemp.
  fold (isListField t). fold (isListField (namedTypeOf t)).
  rewrite (nesting_within t) by done.
  destruct (namedTypeOf_named t) as [n Hn]. rewrite Hn.
  cbn [isListField isListType isNonNullType orb andb negb].
  cbn [mbind option_bind field_description withType].
  apply (shapeWith_level (sub (Some (GNamed n)))).
Qed.

Lemma helperOnField_overrun schema sub field dn name t :
  wellFormedType t = true → maximumDepth < Z.of_nat (wrapDepth t) →
  (helperOnField schema sub (Some (withType field t)) dn name).2
  = (helperOnField schema sub (Some (withType field (namedTypeOf t))) dn name).2
  ∧ (Js.startsWith "__" name = false →
     isOk (sub (Some (namedTypeOf t))).2 = true →
     bailLine ∈ (helperOnField schema sub (Some (withType field t)) dn name).1).
Proof.
  intros Hwf Hdepth. unfold helperOnField.
  destruct (Js.startsWith "__" name); [split; [reflexivity|discriminate]|].
  cbn [fmap option_fmap option_map withType field_type getNamedType].
  rewrite namedTypeOf_idemp.
  fold (isListField t). fold (isListField (namedTypeOf t)).
  rewrite (nesting_overrun t) by done.
  destruct (namedTypeOf_named t) as [n Hn]. rewrite Hn.
  cbn [isListField isListType isNonNullType orb andb negb].
  cbn [mbind option_bind field_description withType].
  split.
  - apply (shapeWith_sigil_outcome (sub (Some (GNamed n)))).
  - intros _. apply (shapeWith_sigil_log (sub (Some (GNamed n)))).
Qed.

(** A schema with list-wrapped fields, for the examples:
    [m: [[Int!]!]], and [deep], an [Item] under 31 list wrappers. *)
Definition deepItemType : GqlType := Nat.iter 31 GList (GNamed "Item").

Definition matrixType : GqlType :=
  GList (GNonNull (GList (GNonNull (GNamed "Int")))).

Definition listSchema : Schema :=
  mkSchema
    (list_to_map
       [("String", ScalarDef); ("ID", ScalarDef); ("Int", ScalarDef); ("Boolean", ScalarDef);
        ("Item", ObjectDef [mkFieldDef "id" (GNamed "ID") None []]);
        ("Query", ObjectDef [mkFieldDef "m" matrixType None [];
                             mkFieldDef "deep" deepItemType None [];
                             mkFieldDef "plain" (GNamed "Item") None [];
                             mkFieldDef "count" (GNamed "Int") None []])])
    (Some "Query") None None.

Definition idSelection : SelectionNode := FieldNode None "id" (Some []) None.



(** C6, as the code has it: when a field's declared type has more than
    30 wrappers, [listCount] logs the overrun and returns the sentinel
    -99; the loop that adds the array layers then does not run, so the
    field gets the outcome it would have were it declared with the bare
    named type (its sub-selection shape is kept, nothing in the output
    marks the overrun).  The overrun raises nothing, the warning is
    logged once the sub-selections have been built, and whatever the
    builder goes on to compute from the field's entry comes out the
    same. *)
Theorem C6_overrun_drops_list_nesting :
  ∀ schema sub field displayedName name t,
    wellFormedType t = true →
    maximumDepth < Z.of_nat (wrapDepth t) →
    let deep := helperOnField schema sub (Some (withType field t)) displayedName name in
    let plain :=
      helperOnField schema sub (Some (withType field (namedTypeOf t))) displayedName name in
    listCount t = ([bailLine], Ok errorSigil)
    ∧ deep.2 = plain.2
    ∧ (Js.startsWith "__" name = false →
       isOk (sub (Some (namedTypeOf t))).2 = true → bailLine ∈ deep.1)
    ∧ (∀ (B : Type) (rest : JsVal → Logged B), (deep ≫= rest).2 = (plain ≫= rest).2).
Proof.
  intros schema sub field displayedName name t Hwf Hdepth deep plain.
  destruct (helperOnField_overrun schema sub field displayedName name t Hwf Hdepth)
    as [Hsame Hlog].
  split; [|split; [|split]].
  - by apply listCount_overrun.
  - exact Hsame.
  - exact Hlog.
  - intros B rest. by apply Logged_bind_outcome.
Qed.

Lemma C6_overrun_drops_list_nesting_witness :
  listCount deepItemType = ([bailLine], Ok errorSigil)
  ∧ (helperOnField listSchema (λ _, mret (Some []))
       (Some (withType (mkFieldDef "deep" deepItemType None []) deepItemType)) "deep" "deep").2
    = Ok (shapeEntry "deep" (JObj []) JUndefined).
Proof.
  pose proof (C6_overrun_drops_list_nesting listSchema (λ _, mret (Some []))
                (mkFieldDef "deep" deepItemType None []) "deep" "deep" deepItemType
                eq_refl eq_refl) as (Hcount & Hsame & _).
  split; [exact Hcount|].
  rewrite Hsame. vm_compute. reflexivity.
Defined.

(** C6, counterexample to the claim as stated: for the field [deep],
    declared with 31 list wrappers around [Item], the builder's entry
    holds the whole shape of the sub-selection, [{ id }], and is the very
    entry it builds for the field [plain] of type [Item] under the alias
    [deep]: the subtree is not cut down and carries no marker. *)
Lemma C6_counterexample_no_marker_in_shape :
  helper listSchema ∅ 3 (Some (GNamed "Query"))
    (FieldNode None "deep" (Some []) (Some [idSelection]))
  = ([bailLine],
     Ok (shapeEntry "deep"
           (JObj [("id", JObj [("type", JStr "string"); ("description", JUndefined)])])
           JUndefined))
  ∧ (helper listSchema ∅ 3 (Some (GNamed "Query"))
       (FieldNode None "deep" (Some []) (Some [idSelection]))).2
    = (helper listSchema ∅ 3 (Some (GNamed "Query"))
         (FieldNode (Some "deep") "plain" (Some []) (Some [idSelection]))).2.
Proof. split; vm_compute; reflexivity. Qed.

(** ** Absent root types *)

Lemma helper_absent_parent schema fragmentDefinitions fuel selections :
  mapM (helper schema fragmentDefinitions (S fuel) None) selections
  = ([], Ok (replicate (length selections) JUndefined)).
Proof.
  induction selections as [|s l IH]; [reflexivity|].
  change (mapM ?f (s :: l)) with (y ← f s; k ← mapM f l; mret (y :: k)).
  rewrite IH. reflexivity.
Qed.

(** C2 (the code departs from the claim): with the root type of the
    operation's kind absent from the schema, [helper] returns [undefined]
    for every top-level selection and [Object.fromEntries] is given these
    as entries: with at least one selection it throws a [TypeError].
    Only an empty selection list (shape [{}]) and a missing selection
    set (shape [any]) come back in the envelope. *)
Theorem C2_absent_root_throws_on_selections :
  ∀ schema fragmentDefinitions fuel operationDefinition,
    baseGqlTypeOf schema operationDefinition = None →
    (∀ selection selections,
       def_selectionSet operationDefinition = Some (selection :: selections) →
       typeScriptDefinitionObjectForOperation schema fragmentDefinitions (S fuel)
         operationDefinition = ([], Throw TypeError))
    ∧ (def_selectionSet operationDefinition = Some [] →
       typeScriptDefinitionObjectForOperation schema fragmentDefinitions (S fuel)
         operationDefinition = ([], Ok (resultEnvelope (JObj []))))
    ∧ (def_selectionSet operationDefinition = None →
       typeScriptDefinitionObjectForOperation schema fragmentDefinitions (S fuel)
         operationDefinition = ([], Ok (resultEnvelope (JStr "any")))).
Proof.
  intros schema fragmentDefinitions fuel operationDefinition Hroot.
  unfold typeScriptDefinitionObjectForOperation. rewrite Hroot.
  split; [|split].
  - intros selection selections ->. rewrite helper_absent_parent. reflexivity.
  - intros ->. reflexivity.
  - intros ->. reflexivity.
Qed.

(** [mutation { doIt }] against a schema without a mutation root. *)
Definition rootlessMutation : DefinitionNode :=
  OperationDefinitionNode OpMutation None (Some [])
    (Some [FieldNode None "doIt" (Some []) None]).

Lemma C2_absent_root_throws_on_selections_witness :
  typeScriptDefinitionObjectForOperation scenarioSchema ∅ 1 rootlessMutation
  = ([], Throw TypeError).
Proof.
  apply (proj1 (C2_absent_root_throws_on_selections scenarioSchema ∅ 0 rootlessMutation eq_refl)
           (FieldNode None "doIt" (Some []) None) []).
  reflexivity.
Defined.

(** ** The type-reference collector *)

Lemma newSet_acc (values acc : list string) :
  NoDup acc →
  let result := fold_left (λ acc v, if bool_decide (v ∈ acc) then acc else acc ++ [v])
                  values acc in
  NoDup result ∧ ∀ x, x ∈ result ↔ x ∈ acc ∨ x ∈ values.
Proof.
  revert acc. induction values as [|v l IH]; intros acc Hacc; simpl.
  - split; [assumption|]. intros x. rewrite elem_of_nil. tauto.
  - case_bool_decide as Hv.
    + destruct (IH acc Hacc) as [Hnd Hin]. split; [assumption|].
      intros x. rewrite Hin, elem_of_cons. split; [tauto|].
      intros [?|[->|?]]; auto.
    + assert (NoDup (acc ++ [v])) as Hacc'.
      { apply NoDup_app. split; [assumption|]. split; [|apply NoDup_singleton].
        intros x Hx ->%list_elem_of_singleton. contradiction. }
      destruct (IH _ Hacc') as [Hnd Hin]. split; [assumption|].
      intros x. rewrite Hin, elem_of_app, list_elem_of_singleton, elem_of_cons. tauto.
Qed.

Lemma newSet_NoDup values : NoDup (JsValue.newSet values).
Proof. apply (newSet_acc values []). constructor. Qed.

Lemma elem_of_newSet values x : x ∈ JsValue.newSet values ↔ x ∈ values.
Proof.
  pose proof (newSet_acc values [] (NoDup_nil_2)) as [_ H].
  unfold JsValue.newSet. rewrite H, elem_of_nil. tauto.
Qed.

Lemma referencedName_namedTypeOf t : referencedName (namedTypeOf t) = referencedName t.
Proof. unfold referencedName. by rewrite typeName_namedTypeOf. Qed.

(** A name is gathered exactly when it is the name of a reading. *)
Lemma elem_of_gatheredTypes schema query s :
  s ∈ gatheredTypes schema query
  ↔ ∃ t, Some t ∈ TypeInfo.visit schema query ∧ s = referencedName t.
Proof.
  unfold gatheredTypes. rewrite elem_of_newSet, list_elem_of_omap. split.
  - intros ([t|] & Hin & Heq); simpl in Heq; [|discriminate].
    injection Heq as <-. exists t. by rewrite referencedName_namedTypeOf.
  - intros (t & Hin & ->). exists (Some t). split; [assumption|]. simpl.
    by rewrite referencedName_namedTypeOf.
Qed.

Lemma elem_of_flat_map {A B} (f : A → list B) (l : list A) (y : B) :
  y ∈ flat_map f l ↔ ∃ x, x ∈ l ∧ y ∈ f x.
Proof.
  induction l as [|a l IH]; simpl.
  - split; [by intros ?%elem_of_nil|]. by intros (x & ?%elem_of_nil & _).
  - rewrite elem_of_app, IH. split.
    + intros [Hy|(x & Hx & Hy)]; [exists a|exists x]; split; auto; by constructor.
    + intros (x & Hx & Hy). apply elem_of_cons in Hx as [->|Hx]; eauto.
Qed.

Lemma visit_definition schema query definition reading :
  definition ∈ query → reading ∈ TypeInfo.visitDefinition schema definition →
  reading ∈ TypeInfo.visit schema query.
Proof.
  intros Hdef Hreading. unfold TypeInfo.visit. apply elem_of_cons. right.
  apply elem_of_flat_map. eauto.
Qed.

(** The reading at a field selection. *)
Definition fieldReading (schema : Schema) (parentType : option GqlType) (name : string)
    : option GqlType :=
  TypeInfo.outputOnly schema (parentType ≫= (λ p, TypeInfo.getFieldDef schema p name)).

Lemma visitSelectionSet_field schema current selections alias name arguments selectionSet :
  FieldNode alias name arguments selectionSet ∈ selections →
  fieldReading schema (TypeInfo.compositeOnly schema (getNamedType current)) name
  ∈ TypeInfo.visitSelectionSet schema current (Some selections).
Proof.
  intros Hin. simpl. apply elem_of_cons. right. apply elem_of_flat_map.
  eexists. split; [exact Hin|]. simpl. by constructor.
Qed.

Lemma visitDefinition_fragment schema name typeCondition variableDefinitions selectionSet :
  TypeInfo.visitDefinition schema
    (FragmentDefinitionNode name typeCondition variableDefinitions selectionSet)
  = let outputType :=
      TypeInfo.outputOnly schema (typeFromAST schema (NamedTypeNode typeCondition)) in
    outputType ::
    replicate (1 + TypeInfo.countAll TypeInfo.variableDefinitionNodeCount variableDefinitions + 2)
      outputType ++
    TypeInfo.visitSelectionSet schema outputType selectionSet.
Proof. reflexivity. Qed.

(** What a fragment definition of the document contributes: the type it
    is on, and the type of every field it selects directly. *)
Lemma gathered_from_fragment schema query name typeCondition variableDefinitions selections :
  FragmentDefinitionNode name typeCondition variableDefinitions (Some selections) ∈ query →
  let fragmentType :=
    TypeInfo.outputOnly schema (typeFromAST schema (NamedTypeNode typeCondition)) in
  (∀ t, fragmentType = Some t → referencedName t ∈ gatheredTypes schema query)
  ∧ (∀ alias fieldName arguments selectionSet t,
       FieldNode alias fieldName arguments selectionSet ∈ selections →
       fieldReading schema (TypeInfo.compositeOnly schema (getNamedType fragmentType)) fieldName
         = Some t →
       referencedName t ∈ gatheredTypes schema query).
Proof.
  intros Hdef fragmentType. split.
  - intros t Ht. apply elem_of_gatheredTypes. exists t. split; [|reflexivity].
    eapply visit_definition; [exact Hdef|]. rewrite visitDefinition_fragment.
    cbv zeta. fold fragmentType. rewrite Ht. by constructor.
  - intros alias fieldName arguments selectionSet t Hin Ht.
    apply elem_of_gatheredTypes. exists t. split; [|reflexivity].
    eapply visit_definition; [exact Hdef|]. rewrite visitDefinition_fragment.
    cbv zeta. fold fragmentType. apply elem_of_cons. right. apply elem_of_app. right.
    rewrite <- Ht. by eapply visitSelectionSet_field.
Qed.

(** [query { ...ItemParts }  fragment ItemParts on Item { id }]: the types
    [Item] and [ID] occur only through the fragment. *)
Definition spreadDocument : list DefinitionNode :=
  [OperationDefinitionNode OpQuery None (Some []) (Some [FragmentSpreadNode "ItemParts"]);
   FragmentDefinitionNode "ItemParts" "Item" None (Some [idSelection])].

(** [query Q($a: Int) { legacy }] against a schema whose field [legacy]
    has the type [OnemeOnemeUser]. *)
Definition legacySchema : Schema :=
  mkSchema
    (list_to_map
       [("String", ScalarDef); ("Int", ScalarDef); ("Boolean", ScalarDef);
        ("OnemeOnemeUser", ScalarDef);
        ("Query", ObjectDef [mkFieldDef "legacy" (GNamed "OnemeOnemeUser") None []])])
    (Some "Query") None None.

Definition legacyDocument : list DefinitionNode :=
  [OperationDefinitionNode OpQuery (Some "Q")
     (Some [mkVariableDefinition "a" (NamedTypeNode "Int") None])
     (Some [FieldNode None "legacy" (Some []) None])].

(** C4, counterexample to the claim as stated: on [query Q($a: Int) {
    legacy }] the function returns the array [["query", "onemeuser"]]:
    an array, not a [Set]; without the name of [Int], a type of the
    schema that the document names in the declaration of [$a]; and with
    a name that still holds [oneme], of which only the first occurrence
    was removed. *)
Lemma C4_counterexample_array_of_output_types :
  gatherAllReferencedTypes legacySchema legacyDocument
    = JArr [JStr "query"; JStr "onemeuser"]
  ∧ (∀ values, gatherAllReferencedTypes legacySchema legacyDocument ≠ JSet values)
  ∧ typeFromAST legacySchema (NamedTypeNode "Int") = Some (GNamed "Int")
  ∧ (referencedName (GNamed "Int") ∉ gatheredTypes legacySchema legacyDocument)
  ∧ referencedName (GNamed "OnemeOnemeUser") = "onemeuser".
Proof.
  split; [vm_compute; reflexivity|].
  split; [intros values; vm_compute; discriminate|].
  split; [vm_compute; reflexivity|].
  split; [|vm_compute; reflexivity].
  vm_compute. intros H. repeat (inversion H as [|? ? ? H']; subst; clear H; rename H' into H).
Qed.

(** *** The types read, node by node *)

(** Induction on a selection, with the property known of every
    sub-selection. *)
Section SelectionInduction.
Variable P : SelectionNode → Prop.
Hypothesis on_field : ∀ alias name arguments selectionSet,
  Forall P (orEmpty selectionSet) → P (FieldNode alias name arguments selectionSet).
Hypothesis on_inline : ∀ typeCondition selections,
  Forall P selections → P (InlineFragmentNode typeCondition selections).
Hypothesis on_spread : ∀ name, P (FragmentSpreadNode name).

Lemma SelectionNode_nested_ind : ∀ selection, P selection.
Proof.
  fix IH 1. intros [alias name arguments [selections|]|typeCondition selections|name].
  - apply on_field. simpl. induction selections as [|s l IHl]; constructor; [apply IH|exact IHl].
  - apply on_field. constructor.
  - apply on_inline. induction selections as [|s l IHl]; constructor; [apply IH|exact IHl].
  - apply on_spread.
Qed.
End SelectionInduction.

Section Reads.
Variable schema : Schema.

(** The type an inline fragment or a fragment definition is on: that of
    its condition, or without one the named type around it. *)
Definition conditionReading (current : option GqlType) (typeCondition : option string)
    : option GqlType :=
  TypeInfo.outputOnly schema
    (match typeCondition with
     | Some n => typeFromAST schema (NamedTypeNode n)
     | None => getNamedType current
     end).

(** The root type read at an operation. *)
Definition rootReading (operation : OperationType) : option GqlType :=
  let type :=
    match operation with
    | OpQuery => getQueryType schema
    | OpMutation => getMutationType schema
    | OpSubscription => getSubscriptionType schema
    end in
  if isObjectType schema type then type else None.

(** The parent type that a type gives to the selections under it. *)
Definition parentUnder (t : option GqlType) : option GqlType :=
  TypeInfo.compositeOnly schema (getNamedType t).

(** [t] is the type of a field selected in [selection], or the type an
    inline fragment in it is on, at any depth, [selection] standing
    under the parent type [parentType] and the type [current]. *)
Inductive selectionReads : option GqlType → option GqlType → SelectionNode → GqlType → Prop :=
  | reads_field parentType current alias name arguments selectionSet t :
      fieldReading schema parentType name = Some t →
      selectionReads parentType current (FieldNode alias name arguments selectionSet) t
  | reads_under_field parentType current alias name arguments selections child t :
      child ∈ selections →
      selectionReads (parentUnder (fieldReading schema parentType name))
        (fieldReading schema parentType name) child t →
      selectionReads parentType current (FieldNode alias name arguments (Some selections)) t
  | reads_inline parentType current typeCondition selections t :
      conditionReading current typeCondition = Some t →
      selectionReads parentType current (InlineFragmentNode typeCondition selections) t
  | reads_under_inline parentType current typeCondition selections child t :
      child ∈ selections →
      selectionReads (parentUnder (conditionReading current typeCondition))
        (conditionReading current typeCondition) child t →
      selectionReads parentType current (InlineFragmentNode typeCondition selections) t.

(** [t] is the root type of the operation, the type the fragment is on,
    or a type read in one of the selections of the definition. *)
Inductive definitionReads : DefinitionNode → GqlType → Prop :=
  | reads_root operation name variableDefinitions selectionSet t :
      rootReading operation = Some t →
      definitionReads (OperationDefinitionNode operation name variableDefinitions selectionSet) t
  | reads_under_root operation name variableDefinitions selections child t :
      child ∈ selections →
      selectionReads (parentUnder (rootReading operation)) (rootReading operation) child t →
      definitionReads
        (OperationDefinitionNode operation name variableDefinitions (Some selections)) t
  | reads_fragment name typeCondition variableDefinitions selectionSet t :
      conditionReading None (Some typeCondition) = Some t →
      definitionReads (FragmentDefinitionNode name typeCondition variableDefinitions selectionSet) t
  | reads_under_fragment name typeCondition variableDefinitions selections child t :
      child ∈ selections →
      selectionReads (parentUnder (conditionReading None (Some typeCondition)))
        (conditionReading None (Some typeCondition)) child t →
      definitionReads
        (FragmentDefinitionNode name typeCondition variableDefinitions (Some selections)) t.

Lemma elem_of_replicate_same {A} (n : nat) (x y : A) : y ∈ replicate n x → y = x.
Proof. by intros [-> _]%elem_of_replicate. Qed.

Lemma visitSelection_reads selection :
  ∀ parentType current t,
    Some t ∈ TypeInfo.visitSelection schema parentType current selection →
    current = Some t ∨ selectionReads parentType current selection t.
Proof.
  induction selection as [alias name arguments selectionSet IH|typeCondition selections IH|name]
    using SelectionNode_nested_ind; intros parentType current t Hin.
  - cbn [TypeInfo.visitSelection] in Hin. fold (fieldReading schema parentType name) in Hin.
    apply elem_of_cons in Hin as [Hin|Hin]; [right; by constructor|].
    apply elem_of_app in Hin as [Hin|Hin].
    { apply elem_of_replicate_same in Hin. right. by constructor. }
    destruct selectionSet as [selections|]; [|by apply elem_of_nil in Hin].
    apply elem_of_cons in Hin as [Hin|Hin]; [right; by constructor|].
    apply elem_of_flat_map in Hin as (child & Hchild & Hin).
    simpl in IH. rewrite Forall_forall in IH.
    destruct (IH child Hchild _ _ _ Hin) as [Hcurrent|Hreads].
    + right. by constructor.
    + right. by eapply reads_under_field.
  - cbn [TypeInfo.visitSelection] in Hin.
    fold (conditionReading current typeCondition) in Hin.
    apply elem_of_cons in Hin as [Hin|Hin]; [right; by constructor|].
    apply elem_of_app in Hin as [Hin|Hin].
    { apply elem_of_replicate_same in Hin. right. by constructor. }
    apply elem_of_cons in Hin as [Hin|Hin]; [right; by constructor|].
    apply elem_of_flat_map in Hin as (child & Hchild & Hin).
    rewrite Forall_forall in IH.
    destruct (IH child Hchild _ _ _ Hin) as [Hcurrent|Hreads].
    + right. by constructor.
    + right. by eapply reads_under_inline.
  - simpl in Hin. left.
    apply elem_of_cons in Hin as [Hin|Hin]; [done|].
    apply elem_of_cons in Hin as [Hin|Hin]; [done|]. by apply elem_of_nil in Hin.
Qed.

Lemma reads_visitSelection parentType current selection t :
  selectionReads parentType current selection t →
  Some t ∈ TypeInfo.visitSelection schema parentType current selection.
Proof.
  induction 1 as [parentType current alias name arguments selectionSet t Ht
                 |parentType current alias name arguments selections child t Hchild _ IH
                 |parentType current typeCondition selections t Ht
                 |parentType current typeCondition selections child t Hchild _ IH].
  - cbn [TypeInfo.visitSelection]. fold (fieldReading schema parentType name).
    rewrite Ht. by left.
  - cbn [TypeInfo.visitSelection]. fold (fieldReading schema parentType name).
    apply elem_of_cons. right. apply elem_of_app. right. apply elem_of_cons. right.
    apply elem_of_flat_map. exists child. split; [exact Hchild|exact IH].
  - cbn [TypeInfo.visitSelection]. fold (conditionReading current typeCondition).
    rewrite Ht. by left.
  - cbn [TypeInfo.visitSelection]. fold (conditionReading current typeCondition).
    apply elem_of_cons. right. apply elem_of_app. right. apply elem_of_cons. right.
    apply elem_of_flat_map. exists child. split; [exact Hchild|exact IH].
Qed.

Lemma visitSelectionSet_reads current selectionSet t :
  Some t ∈ TypeInfo.visitSelectionSet schema current selectionSet →
  current = Some t
  ∨ ∃ selections child,
      selectionSet = Some selections ∧ child ∈ selections
      ∧ selectionReads (parentUnder current) current child t.
Proof.
  destruct selectionSet as [selections|]; simpl; [|by intros ?%elem_of_nil].
  intros [Hin|Hin]%elem_of_cons; [by left|].
  apply elem_of_flat_map in Hin as (child & Hchild & Hin).
  apply visitSelection_reads in Hin as [Hcurrent|Hreads]; [by left|].
  right. exists selections, child. auto.
Qed.

Lemma visitDefinition_reads definition t :
  Some t ∈ TypeInfo.visitDefinition schema definition ↔ definitionReads definition t.
Proof.
  split.
  - destruct definition as [operation name variableDefinitions selectionSet
                           |name typeCondition variableDefinitions selectionSet].
    + cbn [TypeInfo.visitDefinition]. fold (rootReading operation). cbv zeta.
      intros [Hin|Hin]%elem_of_cons; [by constructor|].
      apply elem_of_app in Hin as [Hin|Hin].
      { apply elem_of_replicate_same in Hin. by constructor. }
      apply visitSelectionSet_reads in Hin
        as [Hroot|(selections & child & -> & Hchild & Hreads)]; [by constructor|].
      by eapply reads_under_root.
    + rewrite visitDefinition_fragment. cbv zeta.
      fold (conditionReading None (Some typeCondition)).
      intros [Hin|Hin]%elem_of_cons; [by constructor|].
      apply elem_of_app in Hin as [Hin|Hin].
      { apply elem_of_replicate_same in Hin. by constructor. }
      apply visitSelectionSet_reads in Hin
        as [Hroot|(selections & child & -> & Hchild & Hreads)]; [by constructor|].
      by eapply reads_under_fragment.
  - intros [operation name variableDefinitions selectionSet t' Ht
           |operation name variableDefinitions selections child t' Hchild Hreads
           |name typeCondition variableDefinitions selectionSet t' Ht
           |name typeCondition variableDefinitions selections child t' Hchild Hreads].
    + cbn [TypeInfo.visitDefinition]. fold (rootReading operation). cbv zeta.
      rewrite Ht. by left.
    + cbn [TypeInfo.visitDefinition]. fold (rootReading operation). cbv zeta.
      apply elem_of_cons. right. apply elem_of_app. right. simpl.
      apply elem_of_cons. right. apply elem_of_flat_map. exists child.
      split; [exact Hchild|]. by apply reads_visitSelection.
    + rewrite visitDefinition_fragment. cbv zeta.
      fold (conditionReading None (Some typeCondition)). rewrite Ht. by left.
    + rewrite visitDefinition_fragment. cbv zeta.
      fold (conditionReading None (Some typeCondition)).
      apply elem_of_cons. right. apply elem_of_app. right. simpl.
      apply elem_of_cons. right. apply elem_of_flat_map. exists child.
      split; [exact Hchild|]. by apply reads_visitSelection.
Qed.

(** A name is gathered exactly when it is the name of a type read in a
    definition of the document. *)
Lemma elem_of_gatheredTypes_reads query s :
  s ∈ gatheredTypes schema query
  ↔ ∃ definition t,
      definition ∈ query ∧ definitionReads definition t ∧ s = referencedName t.
Proof.
  rewrite elem_of_gatheredTypes. split.
  - intros (t & Hin & ->). unfold TypeInfo.visit in Hin.
    apply elem_of_cons in Hin as [Hin|Hin]; [discriminate|].
    apply elem_of_flat_map in Hin as (definition & Hdef & Hin).
    exists definition, t. split; [exact Hdef|]. split; [|reflexivity].
    by apply visitDefinition_reads.
  - intros (definition & t & Hdef & Hreads & ->). exists t. split; [|reflexivity].
    eapply visit_definition; [exact Hdef|]. by apply visitDefinition_reads.
Qed.
End Reads.

(** *** Variable declarations contribute nothing *)

(** The definition without its variable declarations. *)
Definition withoutVariables (definition : DefinitionNode) : DefinitionNode :=
  match definition with
  | OperationDefinitionNode operation name _ selectionSet =>
      OperationDefinitionNode operation name None selectionSet
  | FragmentDefinitionNode name typeCondition _ selectionSet =>
      FragmentDefinitionNode name typeCondition None selectionSet
  end.

Section Repeats.
Context {A : Type} (f : A → option string).

(** [types.add] once more of each name of a list, on the set so far. *)
Definition addAll (readings : list A) (acc : list string) : list string :=
  fold_left (λ acc v, if bool_decide (v ∈ acc) then acc else acc ++ [v]) (omap f readings) acc.

Lemma addAll_app l1 l2 acc : addAll (l1 ++ l2) acc = addAll l2 (addAll l1 acc).
Proof. unfold addAll. by rewrite omap_app, fold_left_app. Qed.

Lemma addAll_cons x l acc : addAll (x :: l) acc = addAll l (addAll [x] acc).
Proof. apply (addAll_app [x] l). Qed.

Lemma addAll_again x acc : addAll [x] (addAll [x] acc) = addAll [x] acc.
Proof.
  unfold addAll. simpl. destruct (f x) as [s|]; [|reflexivity]. simpl.
  destruct (decide (s ∈ acc)) as [Hs|Hs].
  - rewrite !(bool_decide_true (s ∈ acc)) by exact Hs.
    reflexivity.
  - rewrite (bool_decide_false (s ∈ acc)) by exact Hs.
    rewrite bool_decide_true; [reflexivity|]. apply elem_of_app. right. by left.
Qed.

(** Readings that repeat the one before them add nothing. *)
Lemma addAll_replicate x n l acc :
  addAll (x :: replicate n x ++ l) acc = addAll (x :: l) acc.
Proof.
  rewrite (addAll_cons x (replicate n x ++ l)), (addAll_cons x l).
  induction n as [|n IH]; [reflexivity|].
  simpl. by rewrite (addAll_cons x (replicate n x ++ l)), addAll_again.
Qed.
End Repeats.

Lemma gatheredTypes_addAll schema query :
  gatheredTypes schema query
  = addAll (λ fullType, referencedName <$> getNamedType fullType)
      (flat_map (TypeInfo.visitDefinition schema) query) [].
Proof. reflexivity. Qed.

Lemma visitDefinition_withoutVariables schema definition acc :
  addAll (λ fullType, referencedName <$> getNamedType fullType)
    (TypeInfo.visitDefinition schema (withoutVariables definition)) acc
  = addAll (λ fullType, referencedName <$> getNamedType fullType)
      (TypeInfo.visitDefinition schema definition) acc.
Proof.
  destruct definition as [operation name variableDefinitions selectionSet
                         |name typeCondition variableDefinitions selectionSet].
  - cbn [withoutVariables TypeInfo.visitDefinition]. cbv zeta.
    by rewrite !addAll_replicate.
  - cbn [withoutVariables]. rewrite !visitDefinition_fragment. cbv zeta.
    by rewrite !addAll_replicate.
Qed.

Lemma gatheredTypes_withoutVariables schema query :
  gatheredTypes schema (withoutVariables <$> query) = gatheredTypes schema query.
Proof.
  rewrite !gatheredTypes_addAll. generalize (@nil string).
  induction query as [|definition query IH]; intros acc; [reflexivity|].
  rewrite fmap_cons. simpl flat_map.
  by rewrite !addAll_app, visitDefinition_withoutVariables, IH.
Qed.

(** C4, as the code has it: the function returns an array of strings
    without duplicates, whose elements are exactly the names, each
    lower-cased and with the first occurrence of [oneme] removed, of the
    types that [typeInfo.getType()] gives at the nodes of the document:
    the root type of each operation, the type each fragment definition
    or inline fragment is on, and the type of each selected field, at any
    depth.  Variable declarations contribute nothing: the result is the
    same without them.  The types of a fragment definition of the
    document are among the names also when nothing but a spread refers to
    the fragment, as in
    [query { ...ItemParts }  fragment ItemParts on Item { id }]. *)
Theorem C4_array_of_names_read_at_nodes :
  ∀ schema query,
    ∃ names : list string,
      gatherAllReferencedTypes schema query = JArr (JStr <$> names)
      ∧ NoDup names
      ∧ (∀ s, s ∈ names ↔
           ∃ definition t,
             definition ∈ query ∧ definitionReads schema definition t
             ∧ s = Js.replace "oneme" "" (Js.toLocaleLowerCase (typeName t)))
      ∧ gatherAllReferencedTypes schema (withoutVariables <$> query)
        = gatherAllReferencedTypes schema query
      ∧ (∀ name typeCondition variableDefinitions selections,
           FragmentDefinitionNode name typeCondition variableDefinitions (Some selections)
             ∈ query →
           let fragmentType :=
             TypeInfo.outputOnly schema (typeFromAST schema (NamedTypeNode typeCondition)) in
           (∀ t, fragmentType = Some t → referencedName t ∈ names)
           ∧ (∀ alias fieldName arguments selectionSet t,
                FieldNode alias fieldName arguments selectionSet ∈ selections →
                fieldReading schema
                  (TypeInfo.compositeOnly schema (getNamedType fragmentType)) fieldName = Some t →
                referencedName t ∈ names))
      ∧ gatherAllReferencedTypes itemSchema spreadDocument
        = JArr [JStr "query"; JStr "item"; JStr "id"].
Proof.
  intros schema query. exists (gatheredTypes schema query).
  split; [reflexivity|].
  split; [apply newSet_NoDup|].
  split; [apply elem_of_gatheredTypes_reads|].
  split; [unfold gatherAllReferencedTypes; by rewrite gatheredTypes_withoutVariables|].
  split; [|vm_compute; reflexivity].
  intros name typeCondition variableDefinitions selections.
  apply gathered_from_fragment.
Qed.

(** ** The patchers on the object graph: what they leave alone *)

(** A step that only allocates: the store it leaves starts with the store
    it found. *)
Definition framed {A} (m : Store.Run A) : Prop := ∀ h, h `prefix_of` (m h).2.

Lemma framed_ret {A} (a : A) : framed (mret a).
Proof. intros h. reflexivity. Qed.

Lemma framed_throw {A} : framed (@Store.throw A).
Proof. intros h. reflexivity. Qed.

Lemma framed_bind {A B} (m : Store.Run A) (f : A → Store.Run B) :
  framed m → (∀ a, framed (f a)) → framed (m ≫= f).
Proof.
  intros Hm Hf h. unfold mbind, Store.Run_bind. specialize (Hm h).
  destruct (m h) as [[a|e|] h']; simpl in *; [|assumption..].
  etrans; [exact Hm|]. apply Hf.
Qed.

Lemma framed_mapM {A B} (f : A → Store.Run B) (l : list A) :
  (∀ a, framed (f a)) → framed (mapM f l).
Proof.
  intros Hf. induction l as [|x l IH]; [apply framed_ret|].
  change (mapM f (x :: l)) with (y ← f x; k ← mapM f l; mret (y :: k)).
  apply framed_bind; [apply Hf|]. intros y.
  apply framed_bind; [apply IH|]. intros k. apply framed_ret.
Qed.

Lemma framed_alloc o : framed (Store.alloc o).
Proof. intros h. by apply prefix_app_r. Qed.

Lemma framed_getProp v k : framed (Store.getProp v k).
Proof.
  intros h. unfold Store.getProp. destruct v; simpl; try reflexivity.
  repeat case_match; reflexivity.
Qed.

Lemma framed_getElements v : framed (Store.getElements v).
Proof.
  intros h. unfold Store.getElements. destruct v; simpl; try reflexivity.
  repeat case_match; reflexivity.
Qed.

Lemma framed_ownProps v : framed (Store.ownProps v).
Proof.
  intros h. unfold Store.ownProps. destruct v; simpl; try reflexivity.
  repeat case_match; reflexivity.
Qed.

Lemma framed_someM test elements :
  (∀ e, framed (test e)) → framed (Store.someM test elements).
Proof.
  intros Htest. induction elements as [|e l IH]; [apply framed_ret|]. simpl.
  apply framed_bind; [apply Htest|]. intros [|]; [apply framed_ret|apply IH].
Qed.

Lemma framed_elementsOrEmpty v : framed (Store.elementsOrEmpty v).
Proof.
  destruct v as [|s|l]; [apply framed_ret| |apply framed_getElements].
  destruct s; [apply framed_ret|apply framed_getElements].
Qed.

(** Steps through a computation on the store, one construct at a time. *)
Ltac framed_step :=
  first
    [ apply framed_ret | apply framed_throw | apply framed_alloc
    | apply framed_getProp | apply framed_getElements | apply framed_ownProps
    | apply framed_elementsOrEmpty
    | apply framed_bind; [|intros ?]
    | apply framed_mapM; intros ?
    | apply framed_someM; intros ? ].

Ltac framed_cases :=
  match goal with
  | |- framed (if ?b then _ else _) => destruct b
  | |- framed (match ?x with _ => _ end) => destruct x
  end.

Ltac solve_framed := repeat (framed_step || framed_cases).

Lemma framed_nameNode value : framed (Store.nameNode value).
Proof. apply framed_alloc. Qed.

Lemma framed_isNamed wanted node : framed (Store.isNamed wanted node).
Proof. unfold Store.isNamed. solve_framed. Qed.

Lemma framed_declares wanted varDef : framed (Store.declares wanted varDef).
Proof. unfold Store.declares. solve_framed. Qed.

Lemma framed_patchSelection names schema subscriptionType selection :
  framed (Store.patchSelection names schema subscriptionType selection).
Proof.
  unfold Store.patchSelection.
  repeat (framed_step || apply framed_isNamed || apply framed_nameNode || framed_cases).
Qed.

Lemma framed_patchDefinition names schema definition :
  framed (Store.patchDefinition names schema definition).
Proof.
  unfold Store.patchDefinition.
  repeat (framed_step || apply framed_patchSelection || apply framed_declares
          || apply framed_nameNode || framed_cases).
Qed.

(** Every object of the store before the call is the same object after
    it. *)
Lemma patchDefinition_keeps_objects names schema definition h l o :
  h !! l = Some o → (Store.patchDefinition names schema definition h).2 !! l = Some o.
Proof.
  intros Hl. destruct (framed_patchDefinition names schema definition h) as [k ->].
  by apply lookup_app_l_Some.
Qed.

Lemma Store_patchDefinition_noop names schema definition h operation :
  (Store.getProp definition "operation" h).1 = Ok operation →
  operation ≠ Store.VString "subscription" ∨ getSubscriptionType schema = None →
  Store.patchDefinition names schema definition h = (Ok definition, h).
Proof.
  intros Hop Hnoop. unfold Store.patchDefinition, mbind, Store.Run_bind.
  assert (Store.getProp definition "operation" h = (Ok operation, h)) as ->.
  { revert Hop. unfold Store.getProp. destruct definition as [|s|l]; simpl; try congruence.
    destruct (h !! l) as [[]|]; simpl; congruence. }
  destruct Hnoop as [Hne| Hroot].
  - by rewrite bool_decide_true.
  - rewrite Hroot. by case_bool_decide.
Qed.

(** ** Reading documents from a grown store *)

Section LoadMono.
Variables h h' : Store.Heap.
Hypothesis Hext : h `prefix_of` h'.

Lemma lookup_mono (l : nat) (o : Store.Obj) : h !! l = Some o → h' !! l = Some o.
Proof. destruct Hext as [k ->]. apply lookup_app_l_Some. Qed.

Lemma propsOf_mono v p : Store.propsOf h v = Some p → Store.propsOf h' v = Some p.
Proof.
  unfold Store.propsOf. destruct v as [| |l]; try done.
  destruct (h !! l) as [[p'|]|] eqn:Hl; try done.
  intros [= <-]. by rewrite (lookup_mono _ _ Hl).
Qed.

Lemma elementsOf_mono v p : Store.elementsOf h v = Some p → Store.elementsOf h' v = Some p.
Proof.
  unfold Store.elementsOf. destruct v as [| |l]; try done.
  destruct (h !! l) as [[|p']|] eqn:Hl; try done.
  intros [= <-]. by rewrite (lookup_mono _ _ Hl).
Qed.

Ltac mono_step :=
  match goal with
  | H : Store.propsOf h ?v = Some _ |- context [Store.propsOf h' ?v] =>
      rewrite (propsOf_mono _ _ H); simpl
  | H : Store.elementsOf h ?v = Some _ |- context [Store.elementsOf h' ?v] =>
      rewrite (elementsOf_mono _ _ H); simpl
  end.

Ltac use_tests :=
  repeat match goal with
         | H : String.eqb _ _ = _ |- _ => rewrite H; clear H
         end.

Lemma loadName_mono v n : Store.loadName h v = Some n → Store.loadName h' v = Some n.
Proof. unfold Store.loadName. intros H. simplify_option_eq. by repeat mono_step. Qed.

Lemma loadOptional_mono {A} (load load' : Store.Val → option A) v r :
  (∀ v a, load v = Some a → load' v = Some a) →
  Store.loadOptional load v = Some r → Store.loadOptional load' v = Some r.
Proof.
  intros Hload. unfold Store.loadOptional. destruct v; [done|..];
    intros H; destruct (load _) eqn:Hl; simplify_eq/=; by erewrite Hload.
Qed.

Lemma mapM_mono {A B} (f g : A → option B) l k :
  (∀ x y, f x = Some y → g x = Some y) → mapM f l = Some k → mapM g l = Some k.
Proof.
  intros Hfg. rewrite !mapM_Some. intros H. eapply Forall2_impl; [exact H|exact Hfg].
Qed.

Lemma loadArray_mono {A} (load load' : Store.Val → option A) v r :
  (∀ v a, load v = Some a → load' v = Some a) →
  Store.loadArray h load v = Some r → Store.loadArray h' load' v = Some r.
Proof.
  intros Hload. unfold Store.loadArray. intros H. simplify_option_eq.
  mono_step. by eapply mapM_mono.
Qed.

Lemma loadType_mono fuel v t :
  Store.loadType h fuel v = Some t → Store.loadType h' fuel v = Some t.
Proof.
  revert v t. induction fuel as [|fuel IH]; intros v t; [done|]. simpl.
  intros H. simplify_option_eq. mono_step.
  repeat case_match; simplify_option_eq; try done; use_tests;
    by erewrite ?loadName_mono.
Qed.

Lemma loadValue_mono v t : Store.loadValue h v = Some t → Store.loadValue h' v = Some t.
Proof.
  unfold Store.loadValue. intros H. simplify_option_eq. mono_step.
  repeat case_match; simplify_option_eq; try done; use_tests;
    by erewrite ?loadName_mono.
Qed.

Lemma loadArgument_mono v t :
  Store.loadArgument h v = Some t → Store.loadArgument h' v = Some t.
Proof.
  unfold Store.loadArgument. intros H. simplify_option_eq. mono_step.
  erewrite loadName_mono by eassumption. simpl.
  by erewrite loadValue_mono.
Qed.

Lemma loadVariableDefinition_mono fuel v t :
  Store.loadVariableDefinition h fuel v = Some t →
  Store.loadVariableDefinition h' fuel v = Some t.
Proof.
  unfold Store.loadVariableDefinition. intros H. simplify_option_eq. repeat mono_step.
  erewrite loadName_mono by eassumption. simpl.
  erewrite loadType_mono by eassumption. simpl.
  erewrite (loadOptional_mono (Store.loadValue h)); [done|apply loadValue_mono|eassumption].
Qed.

Lemma loadSelection_mono fuel v t :
  Store.loadSelection h fuel v = Some t → Store.loadSelection h' fuel v = Some t.
Proof.
  revert v t. induction fuel as [|fuel IH]; intros v t; [done|]. simpl.
  assert (∀ v r,
            (Store.propsOf h v ≫= λ props,
               Store.loadArray h (Store.loadSelection h fuel)
                 (Store.lookupProp "selections" props)) = Some r →
            (Store.propsOf h' v ≫= λ props,
               Store.loadArray h' (Store.loadSelection h' fuel)
                 (Store.lookupProp "selections" props)) = Some r) as Hss.
  { intros w r Hw. destruct (Store.propsOf h w) as [props|] eqn:Hprops; [|done].
    rewrite (propsOf_mono _ _ Hprops). simpl in *. by eapply loadArray_mono. }
  intros H. destruct (Store.propsOf h v) as [props|] eqn:Hprops; [|done].
  rewrite (propsOf_mono _ _ Hprops). simpl in *.
  destruct (Store.stringOf _) as [kind|]; [|done]. simpl in *.
  destruct (String.eqb kind "Field").
  { destruct (Store.loadOptional (Store.loadName h) _) as [alias|] eqn:Halias; [|done].
    rewrite (loadOptional_mono _ (Store.loadName h') _ _ loadName_mono Halias). simpl in *.
    destruct (Store.loadName h _) as [name|] eqn:Hname; [|done].
    rewrite (loadName_mono _ _ Hname). simpl in *.
    destruct (Store.loadOptional (Store.loadArray h _) _) as [arguments|] eqn:Hargs; [|done].
    rewrite (loadOptional_mono _ (Store.loadArray h' (Store.loadArgument h')) _ _
               (λ v a, loadArray_mono _ _ v a loadArgument_mono) Hargs). simpl in *.
    destruct (Store.loadOptional _ (Store.lookupProp "selectionSet" props))
      as [selectionSet|] eqn:Hsel; [|done].
    rewrite (loadOptional_mono _ _ _ _ Hss Hsel). exact H. }
  destruct (String.eqb kind "InlineFragment").
  { destruct (Store.loadOptional _ (Store.lookupProp "typeCondition" props))
      as [typeCondition|] eqn:Hcond; [|done].
    erewrite (loadOptional_mono _ _ _ _ _ Hcond). simpl in *.
    destruct (Store.propsOf h (Store.lookupProp "selectionSet" props) ≫= _)
      as [selections|] eqn:Hsel; [|done].
    rewrite (Hss _ _ Hsel). exact H. }
  destruct (String.eqb kind "FragmentSpread"); [|done].
  destruct (Store.loadName h _) as [name|] eqn:Hname; [|discriminate].
  by rewrite (loadName_mono _ _ Hname).
  Unshelve.
  intros w a Hw. cbv beta in *.
  destruct (Store.propsOf h w) as [p|] eqn:Hp; simpl in Hw; [|discriminate].
  rewrite (propsOf_mono _ _ Hp). simpl in *. by apply loadName_mono.
Qed.

Lemma loadDefinition_mono fuel v d :
  Store.loadDefinition h fuel v = Some d → Store.loadDefinition h' fuel v = Some d.
Proof.
  unfold Store.loadDefinition. intros H.
  destruct (Store.propsOf h v) as [props|] eqn:Hprops; [|done].
  rewrite (propsOf_mono _ _ Hprops). simpl in *.
  destruct (Store.loadOptional (Store.loadArray h _) _) as [variableDefinitions|] eqn:Hvars;
    [|done].
  rewrite (loadOptional_mono _ (Store.loadArray h' (Store.loadVariableDefinition h' fuel)) _ _
             (λ v a, loadArray_mono _ _ v a (loadVariableDefinition_mono fuel)) Hvars).
  simpl in *.
  destruct (Store.loadOptional _ (Store.lookupProp "selectionSet" props))
    as [selectionSet|] eqn:Hsel; [|done].
  erewrite (loadOptional_mono _ _ _ _ _ Hsel). simpl in *.
  destruct (Store.lookupProp "operation" props) as [|operation|].
  - destruct (Store.loadName h (Store.lookupProp "name" props)) as [name|] eqn:Hname; [|done].
    rewrite (loadName_mono _ _ Hname). simpl in *.
    destruct (Store.propsOf h (Store.lookupProp "typeCondition" props)) as [p|] eqn:Hp;
      [|done].
    rewrite (propsOf_mono _ _ Hp). simpl in *.
    destruct (Store.loadName h (Store.lookupProp "name" p)) as [typeCondition|] eqn:Hcond;
      [|done].
    by rewrite (loadName_mono _ _ Hcond).
  - destruct (Store.loadOptional _ (Store.lookupProp "name" props))
      as [name|] eqn:Hname; [|done].
    by rewrite (loadOptional_mono _ (Store.loadName h') _ _ loadName_mono Hname).
  - destruct (Store.loadName h (Store.lookupProp "name" props)) as [name|] eqn:Hname; [|done].
    rewrite (loadName_mono _ _ Hname). simpl in *.
    destruct (Store.propsOf h (Store.lookupProp "typeCondition" props)) as [p|] eqn:Hp;
      [|done].
    rewrite (propsOf_mono _ _ Hp). simpl in *.
    destruct (Store.loadName h (Store.lookupProp "name" p)) as [typeCondition|] eqn:Hcond;
      [|done].
    by rewrite (loadName_mono _ _ Hcond).
  Unshelve.
  intros w r Hw. cbv beta in *.
  destruct (Store.propsOf h w) as [p|] eqn:Hp; simpl in Hw; [|discriminate].
  rewrite (propsOf_mono _ _ Hp). simpl in *.
  eapply loadArray_mono; [|exact Hw]. apply loadSelection_mono.
Qed.
End LoadMono.

(** ** The two embeddings of the patchers agree *)

Lemma Run_bind_Ok {A B} (m : Store.Run A) (f : A → Store.Run B) h a h' :
  m h = (Ok a, h') → (m ≫= f) h = f a h'.
Proof. intros H. unfold mbind, Store.Run_bind. by rewrite H. Qed.

Lemma Run_bind_Throw {A B} (m : Store.Run A) (f : A → Store.Run B) h e h' :
  m h = (Throw e, h') → (m ≫= f) h = (Throw e, h').
Proof. intros H. unfold mbind, Store.Run_bind. by rewrite H. Qed.

Lemma getProp_props h v props k :
  Store.propsOf h v = Some props →
  Store.getProp v k h = (Ok (Store.lookupProp k props), h).
Proof.
  unfold Store.propsOf, Store.getProp. destruct v as [| |l]; try done.
  destruct (h !! l) as [[]|]; try done. by intros [= ->].
Qed.

Lemma ownProps_props h v props :
  Store.propsOf h v = Some props → Store.ownProps v h = (Ok props, h).
Proof.
  unfold Store.propsOf, Store.ownProps. destruct v as [| |l]; try done.
  destruct (h !! l) as [[]|]; try done. by intros [= ->].
Qed.

Lemma getElements_elements h v elements :
  Store.elementsOf h v = Some elements → Store.getElements v h = (Ok elements, h).
Proof.
  unfold Store.elementsOf, Store.getElements. destruct v as [| |l]; try done.
  destruct (h !! l) as [[]|]; try done. by intros [= ->].
Qed.

Lemma propsOf_alloc h props :
  Store.propsOf (h ++ [Store.ObjRecord props]) (Store.VRef (length h)) = Some props.
Proof. unfold Store.propsOf. by rewrite lookup_app_r, Nat.sub_diag by lia. Qed.

Lemma elementsOf_alloc h elements :
  Store.elementsOf (h ++ [Store.ObjArray elements]) (Store.VRef (length h)) = Some elements.
Proof. unfold Store.elementsOf. by rewrite lookup_app_r, Nat.sub_diag by lia. Qed.

Lemma lookupProp_setProp_eq k v props :
  Store.lookupProp k (Store.setProp k v props) = v.
Proof.
  unfold Store.lookupProp. induction props as [|[k' v'] props IH]; simpl.
  - by rewrite String.eqb_refl.
  - destruct (String.eqb k' k) eqn:Hk; simpl.
    + by rewrite String.eqb_refl.
    + by rewrite Hk.
Qed.

Lemma lookupProp_setProp_ne k k' v props :
  k ≠ k' → Store.lookupProp k' (Store.setProp k v props) = Store.lookupProp k' props.
Proof.
  intros Hne. unfold Store.lookupProp. induction props as [|[k0 v0] props IH]; simpl.
  - by apply String.eqb_neq in Hne as ->.
  - destruct (String.eqb k0 k) eqn:Hk; simpl.
    + apply String.eqb_eq in Hk as ->. by apply String.eqb_neq in Hne as ->.
    + destruct (String.eqb k0 k'); [reflexivity|exact IH].
Qed.

Lemma stringOf_Some v s : Store.stringOf v = Some s → v = Store.VString s.
Proof. destruct v; simpl; congruence. Qed.

Lemma bool_decide_VString n wanted :
  bool_decide (Store.VString n = Store.VString wanted) = String.eqb n wanted.
Proof.
  destruct (String.eqb_spec n wanted) as [->|Hne].
  - by rewrite bool_decide_true.
  - rewrite bool_decide_false; [done|]. by intros [= ?].
Qed.

Lemma isNamed_name h node props n wanted :
  Store.propsOf h node = Some props →
  Store.loadName h (Store.lookupProp "name" props) = Some n →
  Store.isNamed wanted node h = (Ok (String.eqb n wanted), h).
Proof.
  intros Hprops Hname. unfold Store.loadName in Hname.
  destruct (Store.propsOf h (Store.lookupProp "name" props)) as [nameProps|] eqn:Hnp;
    [|discriminate]. simpl in Hname. apply stringOf_Some in Hname.
  unfold Store.isNamed.
  rewrite (Run_bind_Ok _ _ _ _ _ (getProp_props _ _ _ "name" Hprops)).
  rewrite (Run_bind_Ok _ _ _ _ _ (getProp_props _ _ _ "value" Hnp)).
  rewrite Hname. unfold mret, Store.Run_ret. by rewrite bool_decide_VString.
Qed.

Lemma isNamed_argument h e a wanted :
  Store.loadArgument h e = Some a →
  Store.isNamed wanted e h = (Ok (String.eqb (argument_name a) wanted), h).
Proof.
  unfold Store.loadArgument. intros H.
  destruct (Store.propsOf h e) as [props|] eqn:Hprops; [|discriminate]. simpl in H.
  destruct (Store.loadName h _) as [n|] eqn:Hname; [|discriminate]. simpl in H.
  destruct (Store.loadValue h _); [|discriminate]. injection H as <-.
  by eapply isNamed_name.
Qed.

Lemma declares_variableDefinition h fuel e v wanted :
  Store.loadVariableDefinition h fuel e = Some v →
  Store.declares wanted e h = (Ok (String.eqb (variable_name v) wanted), h).
Proof.
  unfold Store.loadVariableDefinition. intros H.
  destruct (Store.propsOf h e) as [props|] eqn:Hprops; [|discriminate]. simpl in H.
  destruct (Store.propsOf h (Store.lookupProp "variable" props)) as [variable|] eqn:Hvar;
    [|discriminate]. simpl in H.
  destruct (Store.loadName h _) as [n|] eqn:Hname; [|discriminate]. simpl in H.
  destruct (Store.loadType h fuel _); [|discriminate]. simpl in H.
  destruct (Store.loadOptional _ _); [|discriminate]. injection H as <-.
  unfold Store.declares.
  rewrite (Run_bind_Ok _ _ _ _ _ (getProp_props _ _ _ "variable" Hprops)).
  by eapply isNamed_name.
Qed.

Lemma someM_existsb {A} (test : Store.Val → Store.Run bool) (p : A → bool) h elements items :
  Forall2 (λ e a, test e h = (Ok (p a), h)) elements items →
  Store.someM test elements h = (Ok (existsb p items), h).
Proof.
  induction 1 as [|e a elements items He _ IH]; [reflexivity|]. simpl.
  rewrite (Run_bind_Ok _ _ _ _ _ He). destruct (p a); [reflexivity|exact IH].
Qed.

Lemma someM_loaded {A} (load : Store.Val → option A) (test : Store.Val → Store.Run bool)
    (p : A → bool) h elements items :
  (∀ e a, load e = Some a → test e h = (Ok (p a), h)) →
  mapM load elements = Some items →
  Store.someM test elements h = (Ok (existsb p items), h).
Proof.
  intros Htest Hload. apply someM_existsb. apply mapM_Some in Hload.
  eapply Forall2_impl; [exact Hload|]. exact Htest.
Qed.

Ltac solve_prefix := repeat first [reflexivity | apply prefix_app_r].

(** A run from [h] ends in a store that extends [h], with an outcome and
    a store that satisfy [Q]. *)
Definition ends {A} (m : Store.Run A) (h : list Store.Obj)
    (Q : Outcome A → list Store.Obj → Prop) : Prop :=
  h `prefix_of` (m h).2 ∧ Q (m h).1 (m h).2.

Lemma ends_bind {A B} (m : Store.Run A) (f : A → Store.Run B) h Q :
  ends m h (λ o h1,
    match o with
    | Ok a => ends (f a) h1 Q
    | Throw e => Q (Throw e) h1
    | OutOfFuel => Q OutOfFuel h1
    end) →
  ends (m ≫= f) h Q.
Proof.
  unfold ends, mbind, Store.Run_bind. destruct (m h) as [[a|e|] h1]; simpl; [|done..].
  intros [Hext [Hext' HQ]]. split; [by etrans|done].
Qed.

Lemma ends_ret {A} (a : A) h (Q : Outcome A → list Store.Obj → Prop) :
  Q (Ok a) h → ends (mret a) h Q.
Proof. intros HQ. split; [reflexivity|exact HQ]. Qed.

Lemma ends_throw {A} h (Q : Outcome A → list Store.Obj → Prop) :
  Q (Throw TypeError) h → ends Store.throw h Q.
Proof. intros HQ. split; [reflexivity|exact HQ]. Qed.

Lemma ends_getProp h v k props Q :
  Store.propsOf h v = Some props →
  Q (Ok (Store.lookupProp k props)) h → ends (Store.getProp v k) h Q.
Proof. intros Hprops HQ. unfold ends. by rewrite (getProp_props _ _ _ k Hprops). Qed.

Lemma ends_getProp_undefined h k Q :
  Q (Throw TypeError) h → ends (Store.getProp Store.VUndefined k) h Q.
Proof. intros HQ. split; [reflexivity|exact HQ]. Qed.

Lemma ends_ownProps h v props Q :
  Store.propsOf h v = Some props → Q (Ok props) h → ends (Store.ownProps v) h Q.
Proof. intros Hprops HQ. unfold ends. by rewrite (ownProps_props _ _ _ Hprops). Qed.

Lemma ends_getElements h v elements Q :
  Store.elementsOf h v = Some elements → Q (Ok elements) h → ends (Store.getElements v) h Q.
Proof. intros Hel HQ. unfold ends. by rewrite (getElements_elements _ _ _ Hel). Qed.

Lemma ends_run {A} (m : Store.Run A) h a Q :
  m h = (Ok a, h) → Q (Ok a) h → ends m h Q.
Proof. intros Hm HQ. unfold ends. by rewrite Hm. Qed.

(** A new record: all that is known afterwards is that the store has
    grown and that the new reference holds the record. *)
Lemma ends_alloc_record h props Q :
  (∀ r h', h `prefix_of` h' → Store.propsOf h' r = Some props → Q (Ok r) h') →
  ends (Store.alloc (Store.ObjRecord props)) h Q.
Proof.
  intros HQ. split; [by apply prefix_app_r|]. simpl.
  apply HQ; [by apply prefix_app_r|apply propsOf_alloc].
Qed.

Lemma ends_alloc_array h elements Q :
  (∀ r h', h `prefix_of` h' → Store.elementsOf h' r = Some elements → Q (Ok r) h') →
  ends (Store.alloc (Store.ObjArray elements)) h Q.
Proof.
  intros HQ. split; [by apply prefix_app_r|]. simpl.
  apply HQ; [by apply prefix_app_r|apply elementsOf_alloc].
Qed.

Lemma ends_impl {A} (m : Store.Run A) h (Q Q' : Outcome A → list Store.Obj → Prop) :
  ends m h Q → (∀ o h', h `prefix_of` h' → Q o h' → Q' o h') → ends m h Q'.
Proof. intros [Hext HQ] Himpl. split; [exact Hext|]. by apply Himpl. Qed.

(** What is known in [h] stays known in a store that extends it. *)
Ltac lift_facts Hext :=
  lazymatch type of Hext with
  | ?h `prefix_of` ?h' =>
    repeat match goal with
    | H : Store.propsOf h _ = Some _ |- _ => apply (propsOf_mono _ _ Hext) in H
    | H : Store.elementsOf h _ = Some _ |- _ => apply (elementsOf_mono _ _ Hext) in H
    | H : Store.loadName h _ = Some _ |- _ => apply (loadName_mono _ _ Hext) in H
    | H : Store.loadSelection h _ _ = Some _ |- _ => apply (loadSelection_mono _ _ Hext) in H
    | H : Store.loadDefinition h _ _ = Some _ |- _ => apply (loadDefinition_mono _ _ Hext) in H
    | H : mapM (Store.loadArgument h) _ = Some _ |- _ =>
        apply (mapM_mono _ (Store.loadArgument h') _ _ (loadArgument_mono _ _ Hext)) in H
    | H : mapM (Store.loadVariableDefinition h ?fuel) _ = Some _ |- _ =>
        apply (mapM_mono _ (Store.loadVariableDefinition h' fuel) _ _
                 (loadVariableDefinition_mono _ _ Hext fuel)) in H
    | H : mapM (Store.loadSelection h ?fuel) _ = Some _ |- _ =>
        apply (mapM_mono _ (Store.loadSelection h' fuel) _ _
                 (loadSelection_mono _ _ Hext fuel)) in H
    | H : Store.loadOptional (Store.loadName h) _ = Some _ |- _ =>
        apply (loadOptional_mono _ (Store.loadName h') _ _ (loadName_mono _ _ Hext)) in H
    | H : Store.loadArray h (Store.loadSelection h ?fuel) _ = Some _ |- _ =>
        apply (loadArray_mono _ _ Hext _ (Store.loadSelection h' fuel) _ _
                 (loadSelection_mono _ _ Hext fuel)) in H
    | H : Store.loadOptional (Store.loadArray h (Store.loadVariableDefinition h ?fuel)) _
          = Some _ |- _ =>
        apply (loadOptional_mono _ (Store.loadArray h' (Store.loadVariableDefinition h' fuel))
                 _ _ (λ v a, loadArray_mono _ _ Hext _ _ v a
                               (loadVariableDefinition_mono _ _ Hext fuel))) in H
    end
  end.

Section Refines.
Variable names : PatchNames.
Variable schema : Schema.

(** The outcome on the store matches the outcome on the document: the
    value returned reads as the document returned, an exception is the
    same exception. *)
Definition matches {A D} (load : list Store.Obj → A → option D) (expected : Outcome D)
    (o : Outcome A) (h : list Store.Obj) : Prop :=
  match expected with
  | Ok d' => ∃ v', o = Ok v' ∧ load h v' = Some d'
  | Throw e => o = Throw e
  | OutOfFuel => False
  end.

Lemma loadArgument_added h ra rb rc rd :
  Store.propsOf h ra = Some [("kind", Store.VString "Name");
                             ("value", Store.VString (patch_argument names))] →
  Store.propsOf h rb = Some [("kind", Store.VString "Name");
                             ("value", Store.VString (patch_variable names))] →
  Store.propsOf h rc = Some [("kind", Store.VString "Variable"); ("name", rb)] →
  Store.propsOf h rd = Some [("kind", Store.VString "Argument"); ("name", ra); ("value", rc)] →
  Store.loadArgument h rd = Some (addedArgument names).
Proof.
  intros Ha Hb Hc Hd. unfold Store.loadArgument, Store.loadValue, Store.loadName.
  rewrite Hd. cbn. rewrite Ha. cbn. rewrite Hc. cbn. rewrite Hb. reflexivity.
Qed.

Lemma loadVariableDefinition_added h fuel rtn rnt rt rvn rv rvd :
  Store.propsOf h rtn = Some [("kind", Store.VString "Name");
                              ("value", Store.VString (patch_type names))] →
  Store.propsOf h rnt = Some [("kind", Store.VString "NamedType"); ("name", rtn)] →
  Store.propsOf h rt = Some [("kind", Store.VString "NonNullType"); ("type", rnt)] →
  Store.propsOf h rvn = Some [("kind", Store.VString "Name");
                              ("value", Store.VString (patch_variable names))] →
  Store.propsOf h rv = Some [("kind", Store.VString "Variable"); ("name", rvn)] →
  Store.propsOf h rvd = Some [("kind", Store.VString "VariableDefinition");
                              ("type", rt); ("variable", rv)] →
  Store.loadVariableDefinition h (S (S fuel)) rvd = Some (addedVariableDefinition names).
Proof.
  intros Htn Hnt Ht Hvn Hv Hvd.
  unfold Store.loadVariableDefinition, Store.loadName.
  rewrite Hvd. cbn. rewrite Hv. cbn. rewrite Hvn. cbn. rewrite Ht. cbn. rewrite Hnt. cbn.
  unfold Store.loadName. rewrite Htn. reflexivity.
Qed.

Arguments Store.lookupProp : simpl never.
Arguments Store.setProp : simpl never.

Lemma loadOptional_elements {A} h (load : Store.Val → option A) r elements :
  Store.elementsOf h r = Some elements → Store.loadOptional load r = Some <$> load r.
Proof. by destruct r. Qed.

Lemma loadOptional_props {A} h (load : Store.Val → option A) r props :
  Store.propsOf h r = Some props → Store.loadOptional load r = Some <$> load r.
Proof. by destruct r. Qed.

Lemma mapM_snoc {A B} (f : A → option B) l x k y :
  mapM f l = Some k → f x = Some y → mapM f (l ++ [x]) = Some (k ++ [y]).
Proof.
  rewrite !mapM_Some. intros Hl Hx. apply Forall2_app; [exact Hl|]. by repeat constructor.
Qed.

(** The object literals of the patched selection, once the condition
    holds: [old] are the elements of the selection's arguments. *)
Lemma patchSelection_adds h fuel v props alias name arguments selectionSet old :
  Store.propsOf h v = Some props →
  Store.lookupProp "kind" props = Store.VString "Field" →
  Store.loadSelection h (S fuel) v = Some (FieldNode alias name arguments selectionSet) →
  mapM (Store.loadArgument h) old = Some (orEmpty arguments) →
  ends
    (argumentName ← Store.nameNode (patch_argument names);
     variableName ← Store.nameNode (patch_variable names);
     variable ← Store.alloc (Store.ObjRecord [("kind", Store.VString "Variable");
                                              ("name", variableName)]);
     argument ← Store.alloc (Store.ObjRecord [("kind", Store.VString "Argument");
                                              ("name", argumentName); ("value", variable)]);
     newArguments ← Store.alloc (Store.ObjArray (old ++ [argument]));
     props ← Store.ownProps v;
     Store.alloc (Store.ObjRecord (Store.setProp "arguments" newArguments props)))
    h
    (matches (λ h v, Store.loadSelection h (S fuel) v)
       (Ok (FieldNode alias name (Some (orEmpty arguments ++ [addedArgument names]))
              selectionSet))).
Proof.
  intros Hprops Hkind Hwhole Hold. unfold Store.nameNode.
  apply ends_bind, ends_alloc_record. intros ra h1 Hext1 Hra. lift_facts Hext1. clear Hext1.
  apply ends_bind, ends_alloc_record. intros rb h2 Hext2 Hrb. lift_facts Hext2. clear Hext2.
  apply ends_bind, ends_alloc_record. intros rc h3 Hext3 Hrc. lift_facts Hext3. clear Hext3.
  apply ends_bind, ends_alloc_record. intros rd h4 Hext4 Hrd. lift_facts Hext4. clear Hext4.
  apply ends_bind, ends_alloc_array. intros rarr h5 Hext5 Harr. lift_facts Hext5. clear Hext5.
  apply ends_bind, (ends_ownProps _ _ _ _ Hprops).
  apply ends_alloc_record. intros rnew h6 Hext6 Hnew. lift_facts Hext6. clear Hext6.
  exists rnew. split; [reflexivity|].
  pose proof (loadArgument_added _ _ _ _ _ Hra Hrb Hrc Hrd) as Hadded.
  simpl in Hwhole |- *. rewrite Hprops in Hwhole. rewrite Hnew. simpl in Hwhole |- *.
  rewrite lookupProp_setProp_eq. repeat (rewrite lookupProp_setProp_ne by discriminate).
  rewrite Hkind in Hwhole |- *. simpl in Hwhole |- *.
  destruct (Store.loadOptional (Store.loadName h6) _) as [alias'|]; [|discriminate].
  simpl in Hwhole |- *.
  destruct (Store.loadName h6 (Store.lookupProp "name" props)) as [name'|]; [|discriminate].
  simpl in Hwhole |- *.
  destruct (Store.loadOptional (Store.loadArray h6 _) (Store.lookupProp "arguments" props))
    as [arguments'|]; [|discriminate]. simpl in Hwhole.
  assert (Store.loadArray h6 (Store.loadArgument h6) rarr
          = Some (orEmpty arguments ++ [addedArgument names])) as Hnewargs.
  { unfold Store.loadArray. rewrite Harr. simpl. exact (mapM_snoc _ _ _ _ _ Hold Hadded). }
  rewrite (loadOptional_elements _ _ _ _ Harr), Hnewargs. simpl.
  destruct (Store.loadOptional _ (Store.lookupProp "selectionSet" props))
    as [selectionSet'|]; [|discriminate]. simpl in Hwhole |- *.
  by injection Hwhole as -> -> _ ->.
Qed.

Lemma patchSelection_refines subscriptionType h fuel v s :
  Store.loadSelection h fuel v = Some s →
  ends (Store.patchSelection names schema subscriptionType v) h
    (matches (λ h v, Store.loadSelection h fuel v)
       (patchSelection names schema subscriptionType s)).
Proof.
  destruct fuel as [|fuel]; [done|]. intros Hload. pose proof Hload as Hwhole.
  simpl in Hload.
  destruct (Store.propsOf h v) as [props|] eqn:Hprops; [|discriminate]. simpl in Hload.
  destruct (Store.stringOf (Store.lookupProp "kind" props)) as [kind|] eqn:Hkind;
    [|discriminate]. simpl in Hload. apply stringOf_Some in Hkind.
  unfold Store.patchSelection.
  apply ends_bind, (ends_getProp _ _ _ _ _ Hprops). rewrite Hkind.
  destruct (String.eqb_spec kind "Field") as [->|Hfield].
  2:{ rewrite bool_decide_true by (by intros [= ?]).
      apply ends_ret.
      assert (patchSelection names schema subscriptionType s = Ok s) as ->.
      { destruct (String.eqb kind "InlineFragment").
        - destruct (Store.loadOptional _ _); [|discriminate]. simpl in Hload.
          destruct (Store.propsOf h (Store.lookupProp "selectionSet" props) ≫= _);
            simpl in Hload; [|discriminate].
          by injection Hload as <-.
        - destruct (String.eqb kind "FragmentSpread"); [|discriminate].
          destruct (Store.loadName h _); simpl in Hload; [|discriminate].
          by injection Hload as <-. }
      exists v. by split. }
  rewrite bool_decide_false by (by intros []).
  destruct (Store.loadOptional (Store.loadName h) _) as [alias|] eqn:Halias; [|discriminate].
  simpl in Hload.
  destruct (Store.loadName h (Store.lookupProp "name" props)) as [name|] eqn:Hname;
    [|discriminate]. simpl in Hload.
  destruct (Store.loadOptional (Store.loadArray h _) _) as [arguments|] eqn:Hargs;
    [|discriminate]. simpl in Hload.
  destruct (Store.loadOptional _ (Store.lookupProp "selectionSet" props))
    as [selectionSet|] eqn:Hsel; [|discriminate]. simpl in Hload.
  injection Hload as <-.
  apply ends_bind, (ends_getProp _ _ _ _ _ Hprops).
  pose proof Hname as Hname'. unfold Store.loadName in Hname'.
  destruct (Store.propsOf h (Store.lookupProp "name" props)) as [nameProps|] eqn:Hnp;
    [|discriminate]. simpl in Hname'. apply stringOf_Some in Hname'.
  apply ends_bind, (ends_getProp _ _ _ _ _ Hnp). rewrite Hname'. simpl Store.keyOf.
  simpl patchSelection.
  destruct (getFields schema subscriptionType ≫= _) as [field|]; [|by apply ends_throw].
  apply ends_bind, (ends_getProp _ _ _ _ _ Hprops).
  unfold Store.loadOptional in Hargs.
  destruct (Store.lookupProp "arguments" props) as [|text|l] eqn:Hav.
  - injection Hargs as <-. apply ends_bind, ends_ret. simpl selectionHasArg.
    destruct (existsb _ _); simpl andb.
    + apply ends_bind, ends_ret. by eapply patchSelection_adds.
    + apply ends_ret. exists v. by split.
  - discriminate Hargs.
  - destruct (Store.loadArray h (Store.loadArgument h) (Store.VRef l)) as [args|] eqn:Harr;
      simpl in Hargs; [|discriminate]. injection Hargs as <-.
    unfold Store.loadArray in Harr.
    destruct (Store.elementsOf h (Store.VRef l)) as [elements|] eqn:Hel; simpl in Harr;
      [|discriminate].
    apply ends_bind. apply ends_bind, (ends_getElements _ _ _ _ Hel).
    eapply ends_run.
    { eapply (someM_loaded (Store.loadArgument h)); [|exact Harr].
      intros e a. apply isNamed_argument. }
    simpl selectionHasArg. destruct (existsb _ (field_args field) && _).
    + apply ends_bind. simpl Store.elementsOrEmpty.
      apply (ends_getElements _ _ _ _ Hel). by eapply patchSelection_adds.
    + apply ends_ret. exists v. by split.
Qed.

Lemma patchSelections_refine subscriptionType fuel elements selections h :
  mapM (Store.loadSelection h fuel) elements = Some selections →
  ends (mapM (Store.patchSelection names schema subscriptionType) elements) h
    (matches (λ h elements, mapM (Store.loadSelection h fuel) elements)
       (mapM (patchSelection names schema subscriptionType) selections)).
Proof.
  revert selections h. induction elements as [|v elements IH]; intros selections h Hload.
  - apply mapM_Some in Hload. inversion Hload; subst. apply ends_ret. by exists [].
  - apply mapM_Some in Hload. inversion Hload as [|? s ? rest Hv Hrest]; subst.
    apply mapM_Some in Hrest.
    change (mapM ?f (v :: elements)) with (y ← f v; k ← mapM f elements; mret (y :: k)).
    rewrite Outcome_mapM_cons.
    apply ends_bind.
    eapply ends_impl; [by apply patchSelection_refines|].
    intros o h1 Hext1 Hmatch. lift_facts Hext1. clear Hext1.
    destruct (patchSelection names schema subscriptionType s) as [s'|e|]; simpl in *;
      [|by subst|done].
    destruct Hmatch as (v' & -> & Hv').
    apply ends_bind. eapply ends_impl; [by apply IH|].
    intros o2 h2 Hext2 Hmatch2. lift_facts Hext2. clear Hext2.
    destruct (mapM (patchSelection names schema subscriptionType) rest) as [rest'|e|];
      simpl in *; [|by subst|done].
    destruct Hmatch2 as (elements' & -> & Helements').
    apply ends_ret. exists (v' :: elements'). split; [reflexivity|].
    apply mapM_Some. constructor; [exact Hv'|]. by apply mapM_Some.
Qed.

(** The object literals of the added variable definition. *)
Lemma patchDefinition_declares h fuel declared old Q :
  mapM (Store.loadVariableDefinition h (S (S fuel))) old = Some declared →
  (∀ r h', h `prefix_of` h' →
     Store.loadOptional (Store.loadArray h' (Store.loadVariableDefinition h' (S (S fuel)))) r
       = Some (Some (declared ++ [addedVariableDefinition names])) →
     Q (Ok r) h') →
  ends
    (typeName ← Store.nameNode (patch_type names);
     namedType ← Store.alloc (Store.ObjRecord [("kind", Store.VString "NamedType");
                                               ("name", typeName)]);
     type ← Store.alloc (Store.ObjRecord [("kind", Store.VString "NonNullType");
                                          ("type", namedType)]);
     variableName ← Store.nameNode (patch_variable names);
     variable ← Store.alloc (Store.ObjRecord [("kind", Store.VString "Variable");
                                              ("name", variableName)]);
     varDef ← Store.alloc (Store.ObjRecord [("kind", Store.VString "VariableDefinition");
                                            ("type", type); ("variable", variable)]);
     Store.alloc (Store.ObjArray (old ++ [varDef])))
    h Q.
Proof.
  intros Hold HQ. unfold Store.nameNode.
  apply ends_bind, ends_alloc_record. intros rtn h1 Hext1 Hrtn. lift_facts Hext1.
  apply ends_bind, ends_alloc_record. intros rnt h2 Hext2 Hrnt. lift_facts Hext2.
  apply ends_bind, ends_alloc_record. intros rt h3 Hext3 Hrt. lift_facts Hext3.
  apply ends_bind, ends_alloc_record. intros rvn h4 Hext4 Hrvn. lift_facts Hext4.
  apply ends_bind, ends_alloc_record. intros rv h5 Hext5 Hrv. lift_facts Hext5.
  apply ends_bind, ends_alloc_record. intros rvd h6 Hext6 Hrvd. lift_facts Hext6.
  apply ends_alloc_array. intros rarr h7 Hext7 Harr. lift_facts Hext7.
  apply HQ.
  - repeat (etrans; [eassumption|]). reflexivity.
  - pose proof (loadVariableDefinition_added _ fuel _ _ _ _ _ _ Hrtn Hrnt Hrt Hrvn Hrv Hrvd)
      as Hadded.
    rewrite (loadOptional_elements _ _ _ _ Harr). unfold Store.loadArray. rewrite Harr.
    simpl. by rewrite (mapM_snoc _ _ _ _ _ Hold Hadded).
Qed.

Ltac lookup_set :=
  repeat first [ rewrite lookupProp_setProp_eq
               | rewrite lookupProp_setProp_ne by discriminate ].

(** The spreads that build the definition returned. *)
Lemma patchDefinition_finish h fuel v props name selectionSet selectionSetProps
    newSelections selections' variableDefinitions declared' :
  Store.propsOf h v = Some props →
  Store.lookupProp "operation" props = Store.VString "subscription" →
  Store.loadOptional (Store.loadName h) (Store.lookupProp "name" props) = Some name →
  Store.propsOf h selectionSet = Some selectionSetProps →
  Store.loadArray h (Store.loadSelection h fuel) newSelections = Some selections' →
  Store.loadOptional (Store.loadArray h (Store.loadVariableDefinition h fuel))
    variableDefinitions = Some declared' →
  ends
    (definitionProps ← Store.ownProps v;
     selectionSetProps ← Store.ownProps selectionSet;
     newSelectionSet ← Store.alloc
       (Store.ObjRecord (Store.setProp "selections" newSelections selectionSetProps));
     Store.alloc (Store.ObjRecord (Store.setProp "selectionSet" newSelectionSet
                    (Store.setProp "variableDefinitions" variableDefinitions definitionProps))))
    h
    (matches (λ h v, Store.loadDefinition h fuel v)
       (Ok (OperationDefinitionNode OpSubscription name declared' (Some selections')))).
Proof.
  intros Hprops Hop Hname Hss Hsels Hvars.
  apply ends_bind, (ends_ownProps _ _ _ _ Hprops).
  apply ends_bind, (ends_ownProps _ _ _ _ Hss).
  apply ends_bind, ends_alloc_record. intros rss h1 Hext1 Hrss. lift_facts Hext1. clear Hext1.
  apply ends_alloc_record. intros rnew h2 Hext2 Hnew. lift_facts Hext2. clear Hext2.
  exists rnew. split; [reflexivity|].
  unfold Store.loadDefinition. rewrite Hnew. simpl. lookup_set.
  rewrite Hvars. simpl. rewrite (loadOptional_props _ _ _ _ Hrss), Hrss. simpl. lookup_set.
  rewrite Hsels. simpl. rewrite Hop, Hname. reflexivity.
Qed.

(** The patcher on the object graph computes what the patcher on the
    document computes: on a reference that reads as the definition [d],
    it returns a reference that reads as the definition returned for [d],
    or throws the same exception. *)
Theorem patchDefinition_refines h fuel v d :
  Store.loadDefinition h (S (S fuel)) v = Some d →
  ends (Store.patchDefinition names schema v) h
    (matches (λ h v, Store.loadDefinition h (S (S fuel)) v)
       (patchDefinition names schema d)).
Proof.
  intros Hload. pose proof Hload as Hwhole. unfold Store.loadDefinition in Hload.
  destruct (Store.propsOf h v) as [props|] eqn:Hprops; [|discriminate]. cbn [mbind option_bind fmap option_fmap option_map] in Hload.
  destruct (Store.loadOptional (Store.loadArray h _)
              (Store.lookupProp "variableDefinitions" props)) as [declared|] eqn:Hvars;
    [|discriminate]. cbn [mbind option_bind fmap option_fmap option_map] in Hload.
  destruct (Store.loadOptional _ (Store.lookupProp "selectionSet" props))
    as [selectionSet|] eqn:Hsel; [|discriminate]. cbn [mbind option_bind fmap option_fmap option_map] in Hload.
  unfold Store.patchDefinition. apply ends_bind, (ends_getProp _ _ _ _ _ Hprops).
  assert (∀ d', d = d' → patchDefinition names schema d' = Ok d' →
            ends (mret v) h
              (matches (λ h v, Store.loadDefinition h (S (S fuel)) v)
                 (patchDefinition names schema d'))) as Hsame.
  { intros d' <- ->. apply ends_ret. exists v. by split. }
  destruct (Store.lookupProp "operation" props) as [|operation|l] eqn:Hop.
  - rewrite bool_decide_true by discriminate.
    destruct (Store.loadName h _); cbn [mbind option_bind fmap option_fmap option_map] in Hload; [|discriminate].
    destruct (Store.propsOf h (Store.lookupProp "typeCondition" props) ≫= _);
      cbn [mbind option_bind fmap option_fmap option_map] in Hload; [|discriminate].
    injection Hload as <-. by apply Hsame.
  - destruct (Store.loadOptional (Store.loadName h) _) as [name|] eqn:Hname;
      cbn [mbind option_bind fmap option_fmap option_map] in Hload; [|discriminate].
    destruct (String.eqb_spec operation "query") as [->|_].
    { rewrite bool_decide_true by discriminate. injection Hload as <-. by apply Hsame. }
    destruct (String.eqb_spec operation "mutation") as [->|_].
    { rewrite bool_decide_true by discriminate. injection Hload as <-. by apply Hsame. }
    destruct (String.eqb_spec operation "subscription") as [->|_]; [|discriminate].
    injection Hload as <-. rewrite bool_decide_false by (by intros []).
    simpl patchDefinition.
    destruct (getSubscriptionType schema) as [subscriptionType|] eqn:Hroot.
    2:{ apply ends_ret. exists v. by split. }
    apply ends_bind, (ends_getProp _ _ _ _ _ Hprops).
    unfold Store.loadOptional in Hsel.
    destruct (Store.lookupProp "selectionSet" props) as [|text|l] eqn:Hssv.
    { injection Hsel as <-. apply ends_bind, ends_getProp_undefined. reflexivity. }
    { discriminate Hsel. }
    destruct (Store.propsOf h (Store.VRef l)) as [selectionSetProps|] eqn:Hss;
      cbn [mbind option_bind fmap option_fmap option_map] in Hsel; [|discriminate].
    destruct (Store.loadArray h _ _) as [selections|] eqn:Harr; cbn [mbind option_bind fmap option_fmap option_map] in Hsel; [|discriminate].
    injection Hsel as <-. unfold Store.loadArray in Harr.
    destruct (Store.elementsOf h _) as [elements|] eqn:Hel; cbn [mbind option_bind] in Harr;
      [|discriminate].
    apply ends_bind, (ends_getProp _ _ _ _ _ Hss).
    apply ends_bind, (ends_getElements _ _ _ _ Hel).
    apply ends_bind.
    eapply ends_impl; [exact (patchSelections_refine subscriptionType _ _ _ _ Harr)|].
    intros o h1 Hext1 Hmatch. lift_facts Hext1. clear Hext1.
    destruct (mapM (patchSelection names schema subscriptionType) selections)
      as [selections'|e|]; cbv beta iota delta [matches] in Hmatch |- *; [|by subst|done].
    destruct Hmatch as (patched & -> & Hpatched). cbv beta in Hpatched.
    apply ends_bind, ends_alloc_array. intros rsel h2 Hext2 Hrsel. lift_facts Hext2.
    clear Hext2.
    assert (Store.loadArray h2 (Store.loadSelection h2 (S (S fuel))) rsel = Some selections')
      as Hnew.
    { unfold Store.loadArray. rewrite Hrsel. exact Hpatched. }
    apply ends_bind, (ends_getProp _ _ _ _ _ Hprops).
    pose proof Hvars as Hdeclared. unfold Store.loadOptional in Hdeclared.
    destruct (Store.lookupProp "variableDefinitions" props) as [|text|lv] eqn:Hvdv.
    { injection Hdeclared as <-. apply ends_bind, ends_ret. apply ends_bind.
      simpl Store.elementsOrEmpty. apply ends_bind, ends_ret.
      apply (patchDefinition_declares _ fuel [] []); [reflexivity|].
      intros r h3 Hext3 Hr. lift_facts Hext3. clear Hext3.
      by eapply patchDefinition_finish. }
    { discriminate Hdeclared. }
    destruct (Store.loadArray h2 _ (Store.VRef lv)) as [variables|] eqn:Hvarr;
      cbn [mbind option_bind fmap option_fmap option_map] in Hdeclared; [|discriminate]. injection Hdeclared as <-.
    unfold Store.loadArray in Hvarr.
    destruct (Store.elementsOf h2 (Store.VRef lv)) as [velements|] eqn:Hvel;
      cbn [mbind option_bind fmap option_fmap option_map] in Hvarr; [|discriminate].
    apply ends_bind. apply ends_bind, (ends_getElements _ _ _ _ Hvel).
    eapply ends_run.
    { eapply (someM_loaded (Store.loadVariableDefinition h2 (S (S fuel)))); [|exact Hvarr].
      intros e a. apply declares_variableDefinition. }
    simpl hasVariableDefinition. destruct (existsb _ variables).
    + apply ends_bind, ends_ret. by eapply patchDefinition_finish.
    + apply ends_bind. apply ends_bind. simpl Store.elementsOrEmpty.
      apply (ends_getElements _ _ _ _ Hvel).
      apply (patchDefinition_declares _ fuel variables); [exact Hvarr|].
      intros r h3 Hext3 Hr. lift_facts Hext3. clear Hext3.
      by eapply patchDefinition_finish.
  - rewrite bool_decide_true by discriminate.
    destruct (Store.loadName h _); cbn [mbind option_bind fmap option_fmap option_map] in Hload; [|discriminate].
    destruct (Store.propsOf h (Store.lookupProp "typeCondition" props) ≫= _);
      cbn [mbind option_bind fmap option_fmap option_map] in Hload; [|discriminate].
    injection Hload as <-. by apply Hsame.
Qed.
End Refines.

(** The input of the scenario in an empty store, the run of the URL
    patcher on it, and what is read back afterwards from the reference
    given and from the reference returned. *)
Definition itemSubscriptionRun : option (Store.Val * Store.Val * list Store.Obj * list Store.Obj) :=
  match Store.storeDefinition itemSubscription [] with
  | (Ok input, before) =>
      match Store.patchSubscriptionWebhookField itemSchema input before with
      | (Ok output, after) => Some (input, output, before, after)
      | _ => None
      end
  | _ => None
  end.

(** C8: on the object graph, both patchers only allocate: every object
    that is in the store before the call is the same object after it, so
    the document read from any reference given to them (the input
    definition in particular) is the document read from it before; and
    when the definition's [operation] is not [subscription] or the schema
    has no subscription root, the value returned is the input itself, with
    the store as it was.  In the scenario the patcher returns a new
    definition object and the input still reads as
    [subscription { onItemChanged { id } }]. *)
Theorem C8_patchers_do_not_mutate :
  ∀ schema definition h,
    let url := Store.patchSubscriptionWebhookField schema definition h in
    let secret := Store.patchSubscriptionWebhookSecretField schema definition h in
    (∀ l o, h !! l = Some o → url.2 !! l = Some o ∧ secret.2 !! l = Some o)
    ∧ (∀ fuel reference d,
         Store.loadDefinition h fuel reference = Some d →
         Store.loadDefinition url.2 fuel reference = Some d
         ∧ Store.loadDefinition secret.2 fuel reference = Some d)
    ∧ (∀ operation,
         (Store.getProp definition "operation" h).1 = Ok operation →
         operation ≠ Store.VString "subscription" ∨ getSubscriptionType schema = None →
         url = (Ok definition, h) ∧ secret = (Ok definition, h))
    ∧ (∀ d,
         def_operation d ≠ Some OpSubscription ∨ getSubscriptionType schema = None →
         patchSubscriptionWebhookField schema d = Ok d
         ∧ patchSubscriptionWebhookSecretField schema d = Ok d)
    ∧ (∃ input output before after,
         itemSubscriptionRun = Some (input, output, before, after)
         ∧ output ≠ input
         ∧ Store.loadDefinition before 3 input = Some itemSubscription
         ∧ Store.loadDefinition after 3 input = Some itemSubscription
         ∧ Store.loadDefinition after 3 output = Some itemSubscriptionPatched).
Proof.
  intros schema definition h url secret.
  split; [|split; [|split; [|split]]].
  - intros l o Hl. split; by apply patchDefinition_keeps_objects.
  - intros fuel reference d Hd.
    split; (eapply loadDefinition_mono; [apply framed_patchDefinition|exact Hd]).
  - intros operation Hop Hnoop. split; by eapply Store_patchDefinition_noop.
  - intros d Hnoop. split; by apply patchDefinition_noop.
  - vm_compute. do 4 eexists. split; [reflexivity|]. repeat split. discriminate.
Qed.

Lemma C8_patchers_do_not_mutate_witness :
  Store.patchSubscriptionWebhookField itemSchema (Store.VRef 0)
    [Store.ObjRecord [("kind", Store.VString "OperationDefinition");
                      ("operation", Store.VString "query")]]
  = (Ok (Store.VRef 0),
     [Store.ObjRecord [("kind", Store.VString "OperationDefinition");
                       ("operation", Store.VString "query")]])
  ∧ patchSubscriptionWebhookSecretField scenarioSchema itemSubscription = Ok itemSubscription.
Proof.
  split.
  - apply (proj1 (proj2 (proj2 (C8_patchers_do_not_mutate itemSchema (Store.VRef 0)
             [Store.ObjRecord [("kind", Store.VString "OperationDefinition");
                               ("operation", Store.VString "query")]])))
             (Store.VString "query") eq_refl).
    left. discriminate.
  - apply (proj1 (proj2 (proj2 (proj2 (C8_patchers_do_not_mutate scenarioSchema
             Store.VUndefined []))))).
    right. reflexivity.
Defined.

Lemma C4_array_of_names_read_at_nodes_witness :
  ∃ names : list string,
    gatherAllReferencedTypes itemSchema spreadDocument = JArr (JStr <$> names)
    ∧ "item" ∈ names ∧ "id" ∈ names.
Proof.
  destruct (C4_array_of_names_read_at_nodes itemSchema spreadDocument)
    as (names & Harray & _ & _ & _ & Hfragment & _).
  exists names. split; [exact Harray|].
  destruct (Hfragment "ItemParts" "Item" None [idSelection]) as [Hon Hfield].
  { apply elem_of_cons. right. by constructor. }
  split.
  - apply (Hon (GNamed "Item")). vm_compute. reflexivity.
  - apply (Hfield None "id" (Some []) None (GNamed "ID")).
    + by constructor.
    + vm_compute. reflexivity.
Defined.
(** ** [parseType] reads back what [print] writes *)

Fixpoint allNameContinue (s : string) : bool :=
  match s with
  | EmptyString => true
  | String c s' => Parser.isNameContinue c && allNameContinue s'
  end.

(** A name of the GraphQL grammar. *)
Definition isName (s : string) : bool :=
  match s with
  | String c s' => Parser.isNameStart c && allNameContinue s'
  | EmptyString => false
  end.

(** A type reference as the parser builds it: names of the grammar, and
    no non-null type directly under a non-null type. *)
Fixpoint wellFormedTypeNode (t : TypeNode) : bool :=
  match t with
  | NamedTypeNode n => isName n
  | ListTypeNode t' => wellFormedTypeNode t'
  | NonNullTypeNode t' =>
      match t' with NonNullTypeNode _ => false | _ => wellFormedTypeNode t' end
  end.

Fixpoint tokensOf (t : TypeNode) : list Parser.token :=
  match t with
  | NamedTypeNode n => [Parser.TName n]
  | ListTypeNode t' => Parser.TBracketL :: tokensOf t' ++ [Parser.TBracketR]
  | NonNullTypeNode t' => tokensOf t' ++ [Parser.TBang]
  end.

(** The text that follows a name does not go on with a name character. *)
Definition endsName (rest : string) : bool :=
  match rest with
  | EmptyString => true
  | String c _ => negb (Parser.isNameContinue c)
  end.

Lemma spanName_append n rest :
  allNameContinue n = true → endsName rest = true →
  Parser.spanName (n +:+ rest) = (n, rest).
Proof.
  intros Hn Hrest. induction n as [|c n IH]; simpl in *.
  - destruct rest as [|c rest]; [reflexivity|]. simpl in *.
    by destruct (Parser.isNameContinue c).
  - apply andb_true_iff in Hn as [Hc Hn]. rewrite Hc, IH by done. reflexivity.
Qed.

Lemma nameStart_char c :
  Parser.isNameStart c = true →
  Parser.isIgnored c = false ∧ Ascii.eqb c "["%char = false
  ∧ Ascii.eqb c "]"%char = false ∧ Ascii.eqb c "!"%char = false.
Proof. destruct c as [[] [] [] [] [] [] [] []]; vm_compute; intuition discriminate. Qed.

Lemma lex_mono fuel fuel' s ts :
  Parser.lex fuel s = Some ts → (fuel ≤ fuel')%nat → Parser.lex fuel' s = Some ts.
Proof.
  revert fuel' s ts. induction fuel as [|fuel IH]; intros fuel' s ts; [done|].
  destruct fuel' as [|fuel']; [lia|]. intros H Hle. simpl in *.
  destruct s as [|c s]; [done|].
  repeat case_match; simplify_option_eq; try done;
    try (by erewrite IH by (eassumption || lia)).
Qed.

Lemma string_app_cons c (a b : string) : String c a +:+ b = String c (a +:+ b).
Proof. reflexivity. Qed.

Lemma string_app_assoc (a b c : string) : (a +:+ b) +:+ c = a +:+ (b +:+ c).
Proof. induction a as [|x a IH]; [reflexivity|]. by rewrite !string_app_cons, IH. Qed.

Lemma wellFormedTypeNode_inner t :
  wellFormedTypeNode (NonNullTypeNode t) = true →
  wellFormedTypeNode t = true ∧ ∀ t', t ≠ NonNullTypeNode t'.
Proof. destruct t; simpl; intros H; split; (done || by intros ? [= ?] || by intros ?). Qed.

Lemma lex_print t rest fuel ts :
  wellFormedTypeNode t = true → endsName rest = true →
  Parser.lex fuel rest = Some ts →
  Parser.lex (length (tokensOf t) + fuel) (print t +:+ rest) = Some (tokensOf t ++ ts).
Proof.
  revert rest fuel ts. induction t as [n|t IH|t IH]; intros rest fuel ts Hwf Hrest Hlex.
  - destruct n as [|c n]; [done|]. simpl in Hwf. apply andb_true_iff in Hwf as [Hc Hn].
    cbn [print tokensOf length Nat.add]. rewrite string_app_cons.
    destruct (nameStart_char c Hc) as (Hi & Hl & Hr & Hb).
    cbn [Parser.lex]. rewrite Hi, Hl, Hr, Hb, Hc, (spanName_append _ _ Hn Hrest), Hlex.
    reflexivity.
  - cbn [print tokensOf length]. rewrite !string_app_assoc, string_app_cons.
    cbn [Nat.add Parser.lex]. change (Parser.isIgnored "[") with false.
    change (Ascii.eqb "[" "[") with true. cbv iota.
    rewrite length_app, <- Nat.add_assoc.
    change (length [Parser.TBracketR]) with 1%nat.
    change ("" +:+ (print t +:+ "]" +:+ rest)) with (print t +:+ "]" +:+ rest).
    rewrite (IH ("]" +:+ rest) (1 + fuel)%nat (Parser.TBracketR :: ts)); [| done | done |].
    + cbn [fmap option_fmap option_map app]. by rewrite <- app_assoc.
    + change (Parser.lex (1 + fuel) ("]" +:+ rest))
        with (cons Parser.TBracketR <$> Parser.lex fuel rest).
      by rewrite Hlex.
  - apply wellFormedTypeNode_inner in Hwf as [Hwf _].
    cbn [print tokensOf]. rewrite string_app_assoc, length_app, <- Nat.add_assoc.
    change (length [Parser.TBang]) with 1%nat.
    rewrite (IH ("!" +:+ rest) (1 + fuel)%nat (Parser.TBang :: ts)); [| done | done |].
    + by rewrite <- app_assoc.
    + change (Parser.lex (1 + fuel) ("!" +:+ rest))
        with (cons Parser.TBang <$> Parser.lex fuel rest).
      by rewrite Hlex.
Qed.

Fixpoint listNesting (t : TypeNode) : nat :=
  match t with
  | NamedTypeNode _ => 0
  | ListTypeNode t' => S (listNesting t')
  | NonNullTypeNode t' => listNesting t'
  end.

Definition notBang (rest : list Parser.token) : bool :=
  match rest with Parser.TBang :: _ => false | _ => true end.

Lemma parseTypeReference_tokens t rest fuel :
  wellFormedTypeNode t = true → notBang rest = true → (listNesting t < fuel)%nat →
  Parser.parseTypeReference fuel (tokensOf t ++ rest) = Some (t, rest)
  ∧ ((∀ t', t ≠ NonNullTypeNode t') →
     Parser.parseTypeReference fuel (tokensOf t ++ Parser.TBang :: rest)
     = Some (NonNullTypeNode t, rest)).
Proof.
  revert rest fuel. induction t as [n|t IH|t IH]; intros rest fuel Hwf Hrest Hfuel;
    (destruct fuel as [|fuel]; [lia|]).
  - split; [|intros _]; cbn; [|reflexivity]. by destruct rest as [|[]].
  - simpl in Hwf, Hfuel. cbn [tokensOf]. rewrite <- !app_comm_cons, <- !app_assoc.
    cbn [app Parser.parseTypeReference].
    split; [|intros _].
    + rewrite (proj1 (IH (Parser.TBracketR :: rest) fuel Hwf eq_refl ltac:(lia))).
      cbn. by destruct rest as [|[]].
    + rewrite (proj1 (IH (Parser.TBracketR :: Parser.TBang :: rest) fuel Hwf eq_refl
                        ltac:(lia))).
      reflexivity.
  - apply wellFormedTypeNode_inner in Hwf as [Hwf Hnot]. simpl in Hfuel.
    split; [|intros Hno; by destruct (Hno t)].
    cbn [tokensOf]. rewrite <- app_assoc. cbn [app].
    by apply (proj2 (IH rest (S fuel) Hwf Hrest ltac:(lia))).
Qed.

Lemma string_app_nil_r (s : string) : s +:+ "" = s.
Proof. induction s as [|c s IH]; [reflexivity|]. by rewrite string_app_cons, IH. Qed.

Lemma string_length_app (a b : string) :
  String.length (a +:+ b) = (String.length a + String.length b)%nat.
Proof. induction a as [|c a IH]; [reflexivity|]. rewrite string_app_cons. simpl. by rewrite IH. Qed.

Lemma tokensOf_length t :
  wellFormedTypeNode t = true → (length (tokensOf t) ≤ String.length (print t))%nat.
Proof.
  induction t as [n|t IH|t IH]; intros Hwf.
  - destruct n; [done|]. simpl. lia.
  - cbn [tokensOf print]. rewrite !string_length_app. simpl in *.
    rewrite length_app. simpl. specialize (IH Hwf). lia.
  - apply wellFormedTypeNode_inner in Hwf as [Hwf _].
    cbn [tokensOf print]. rewrite string_length_app, length_app. simpl.
    specialize (IH Hwf). lia.
Qed.

Lemma listNesting_tokens t : (listNesting t ≤ length (tokensOf t))%nat.
Proof.
  induction t as [n|t IH|t IH]; cbn [listNesting tokensOf length].
  - lia.
  - rewrite length_app. cbn [length]. lia.
  - rewrite length_app. lia.
Qed.

(** [parseType] gives back the type reference that [print] was given. *)
Lemma parseType_print t : wellFormedTypeNode t = true → parseType (print t) = Ok t.
Proof.
  intros Hwf. unfold parseType.
  assert (Parser.lex (S (String.length (print t))) (print t) = Some (tokensOf t)) as ->.
  { apply lex_mono with (length (tokensOf t) + 1)%nat.
    - rewrite <- (string_app_nil_r (print t)) at 1. rewrite <- (app_nil_r (tokensOf t)) at 2.
      by apply lex_print.
    - pose proof (tokensOf_length t Hwf). lia. }
  rewrite <- (app_nil_r (tokensOf t)) at 2.
  pose proof (listNesting_tokens t) as Hnesting.
  rewrite (proj1 (parseTypeReference_tokens t [] (S (length (tokensOf t))) Hwf eq_refl
                    ltac:(lia))).
  reflexivity.
Qed.
(** ** The types of the variable signature *)

Lemma variableTsType_declared fuel schema varName varDef :
  wellFormedTypeNode (variable_type varDef) = true →
  variableTsType fuel schema (varName, varDef) =
  (λ tsType, (varName, tsType)) <$>
    typeScriptForGraphQLType fuel schema (typeFromAST schema (variable_type varDef)).
Proof.
  intros Hwf. unfold variableTsType. rewrite parseType_print by exact Hwf. simpl.
  by destruct (typeScriptForGraphQLType _ _ _).
Qed.

(** The schema and the operation of
    [query Q($ids: [Int!]!, $first: Int) { field }]. *)
Definition listVariableQuery : DefinitionNode :=
  OperationDefinitionNode OpQuery (Some "Q")
    (Some [mkVariableDefinition "ids"
             (NonNullTypeNode (ListTypeNode (NonNullTypeNode (NamedTypeNode "Int")))) None;
           mkVariableDefinition "first" (NamedTypeNode "Int") None])
    (Some [FieldNode None "field" (Some []) None]).

(** X1: when the declared types of the retained variables are type
    references of the grammar (names of the grammar, no non-null
    directly under a non-null), printing and re-parsing them changes
    nothing: the builder never throws a syntax error, and its result is
    the braced, comma-joined list of ["name": T] where [T] is what the
    type mapper gives for the declared type resolved in the schema; it
    fails exactly as the type mapper does. *)
Theorem variable_signature_maps_declared_types :
  ∀ fuel variableNames schema operationDefinition,
    let retained :=
      filter (λ v, variable_name v ∈ variableNames) (declaredVariables operationDefinition) in
    Forall (λ v, wellFormedTypeNode (variable_type v) = true) retained →
    typeScriptSignatureForOperationVariables fuel variableNames schema operationDefinition =
      types ← mapM (λ v, typeScriptForGraphQLType fuel schema
                           (typeFromAST schema (variable_type v))) retained;
      Ok ("{" +:+ Js.join ", "
                    (zip_with (λ v tsType, quoted (variable_name v) +:+ ": " +:+ tsType)
                       retained types) +:+ "}").
Proof.
  intros fuel variableNames schema operationDefinition retained Hwf.
  rewrite typeScriptSignatureForOperationVariables_eq, retainedVariables_filter.
  fold retained.
  assert (∀ l, Forall (λ v, wellFormedTypeNode (variable_type v) = true) l →
            mapM (variableTsType fuel schema)
              (typeScriptSignatureForOperationVariablesHelper <$> l) =
            (λ types, zip (variable_name <$> l) types) <$>
              mapM (λ v, typeScriptForGraphQLType fuel schema
                           (typeFromAST schema (variable_type v))) l) as Hmap.
  { induction 1 as [|v l Hv _ IH]; [reflexivity|].
    rewrite fmap_cons, !Outcome_mapM_cons, IH.
    unfold typeScriptSignatureForOperationVariablesHelper at 1.
    rewrite variableTsType_declared by exact Hv.
    destruct (typeScriptForGraphQLType _ _ _); [|reflexivity..]. simpl.
    by destruct (mapM _ l). }
  rewrite Hmap by exact Hwf.
  destruct (mapM _ retained) as [types| |]; [|reflexivity..]. simpl.
  do 4 f_equal. clear.
  revert types. induction retained as [|v l IH]; intros [|t types]; try reflexivity.
  simpl. f_equal. apply IH.
Qed.

Lemma variable_signature_maps_declared_types_witness :
  typeScriptSignatureForOperationVariables 0 ["ids"; "first"] scenarioSchema listVariableQuery
  = Ok ("{" +:+ quoted "ids" +:+ ": Array<number>, " +:+ quoted "first" +:+ ": number}").
Proof.
  rewrite (variable_signature_maps_declared_types 0 ["ids"; "first"] scenarioSchema
             listVariableQuery).
  - vm_compute. reflexivity.
  - vm_compute. repeat constructor.
Defined.
(** ** [listCount] on its own *)

(** X2: [listCount] never throws; it returns the number of list wrappers
    of the type when the type has at most 30 wrappers, list and non-null
    together, and writes nothing; on a type with more wrappers it writes
    the bail-out line once and returns -99. *)
Theorem listCount_counts_within_thirty_wrappers :
  ∀ gqlType,
    listCount gqlType =
    if decide (wrapDepth gqlType ≤ 30)%nat
    then ([], Ok (Z.of_nat (listDepth gqlType)))
    else (["Bailing on potential infinite recursion"], Ok (-99)).
Proof.
  intros gqlType. case_decide as Hdepth.
  - apply listCount_within. unfold maximumDepth. lia.
  - apply listCount_overrun. unfold maximumDepth. lia.
Qed.

(** ** What a patcher changes *)

Section PatcherShape.
Variable names : PatchNames.
Variable schema : Schema.

(** What a pass may change in a selection: the arguments of a field, by
    putting the added argument after them. *)
Definition extendsSelection (selection selection' : SelectionNode) : Prop :=
  match selection, selection' with
  | FieldNode alias name arguments selectionSet,
    FieldNode alias' name' arguments' selectionSet' =>
      alias' = alias ∧ name' = name ∧ selectionSet' = selectionSet
      ∧ (arguments' = arguments
         ∨ arguments' = Some (orEmpty arguments ++ [addedArgument names]))
  | _, _ => selection' = selection
  end.

(** The root field of that name takes the argument of the patch. *)
Definition takesArgument (subscriptionType : GqlType) (name : string) : bool :=
  match getFields schema subscriptionType ≫= (λ fields, lookupField fields name) with
  | Some field =>
      existsb (λ arg, String.eqb (arg_def_name arg) (patch_argument names)) (field_args field)
  | None => false
  end.

(** A field selection whose root field takes the argument passes it. *)
Definition suppliesArgument (subscriptionType : GqlType) (selection : SelectionNode) : Prop :=
  match selection with
  | FieldNode _ name arguments _ =>
      takesArgument subscriptionType name = true → selectionHasArg names arguments = true
  | _ => True
  end.

(** The relation between a subscription and its patched form. *)
Definition extendsDefinition (subscriptionType : GqlType)
    (definition definition' : DefinitionNode) : Prop :=
  ∃ name variableDefinitions selections variableDefinitions' selections',
    definition = OperationDefinitionNode OpSubscription name variableDefinitions (Some selections)
    ∧ definition' = OperationDefinitionNode OpSubscription name (Some variableDefinitions')
                      (Some selections')
    ∧ (variableDefinitions' = orEmpty variableDefinitions
       ∨ variableDefinitions' = orEmpty variableDefinitions ++ [addedVariableDefinition names])
    ∧ hasVariableDefinition names (Some variableDefinitions') = true
    ∧ Forall2 extendsSelection selections selections'
    ∧ Forall (suppliesArgument subscriptionType) selections'.

Lemma patchSelection_extends subscriptionType selection selection' :
  patchSelection names schema subscriptionType selection = Ok selection' →
  extendsSelection selection selection' ∧ suppliesArgument subscriptionType selection'.
Proof.
  destruct selection as [alias name arguments selectionSet| |]; simpl;
    [|by intros [= <-]..].
  destruct (getFields schema subscriptionType ≫= _) as [field|] eqn:Hfield; [|done].
  destruct (existsb _ (field_args field)) eqn:Htakes; simpl.
  - destruct (selectionHasArg names arguments) eqn:Hhas; simpl; intros [= <-]; simpl.
    + unfold takesArgument. rewrite Hfield. auto 10.
    + unfold takesArgument. rewrite Hfield. split; [auto 10|]. intros _.
      apply (selectionHasArg_added names arguments).
  - intros [= <-]. simpl. unfold takesArgument. rewrite Hfield, Htakes.
    split; [auto 10|discriminate].
Qed.

Lemma hasVariableDefinition_Some variableDefinitions :
  hasVariableDefinition names variableDefinitions = true →
  variableDefinitions = Some (orEmpty variableDefinitions).
Proof. by destruct variableDefinitions. Qed.

Lemma patchSelections_extend subscriptionType selections selections' :
  mapM (patchSelection names schema subscriptionType) selections = Ok selections' →
  Forall2 extendsSelection selections selections'
  ∧ Forall (suppliesArgument subscriptionType) selections'.
Proof.
  rewrite Outcome_mapM_Ok. intros Hsel.
  induction Hsel as [|s s' l l' Hs _ [IH1 IH2]]; [by split; constructor|].
  apply patchSelection_extends in Hs as [? ?]. split; by constructor.
Qed.

Lemma patchDefinition_extends subscriptionType name variableDefinitions selections definition' :
  getSubscriptionType schema = Some subscriptionType →
  patchDefinition names schema
    (OperationDefinitionNode OpSubscription name variableDefinitions (Some selections))
  = Ok definition' →
  extendsDefinition subscriptionType
    (OperationDefinitionNode OpSubscription name variableDefinitions (Some selections))
    definition'.
Proof.
  intros Hroot. simpl. rewrite Hroot.
  destruct (mapM _ selections) as [selections'| |] eqn:Hsel; simpl; try done.
  intros [= <-]. apply patchSelections_extend in Hsel as [Hextends Hsupplies].
  exists name, variableDefinitions, selections.
  destruct (hasVariableDefinition names variableDefinitions) eqn:Hvar.
  - exists (orEmpty variableDefinitions), selections'.
    rewrite <- (hasVariableDefinition_Some _ Hvar). auto 10.
  - exists (orEmpty variableDefinitions ++ [addedVariableDefinition names]), selections'.
    pose proof (hasVariableDefinition_added names variableDefinitions). auto 10.
Qed.
End PatcherShape.

(** X3: a patcher that returns for a subscription against a schema with
    a subscription root returns a subscription of the same name that
    keeps every top-level selection in its place, with its alias, name
    and sub-selections; it changes only arguments of fields, by putting
    its argument after the present ones, and the variable declarations,
    by putting its declaration after the present ones; in the result the
    variable is declared (whether or not a field takes the argument) and
    every top-level field whose root field takes the argument passes
    it. *)
Theorem patchers_only_append :
  ∀ schema subscriptionType name variableDefinitions selections definition',
    getSubscriptionType schema = Some subscriptionType →
    let definition :=
      OperationDefinitionNode OpSubscription name variableDefinitions (Some selections) in
    (patchSubscriptionWebhookField schema definition = Ok definition' →
     extendsDefinition webhookUrlNames schema subscriptionType definition definition')
    ∧ (patchSubscriptionWebhookSecretField schema definition = Ok definition' →
       extendsDefinition webhookSecretNames schema subscriptionType definition definition').
Proof.
  intros schema subscriptionType name variableDefinitions selections definition' Hroot.
  split; by apply patchDefinition_extends.
Qed.

Lemma patchers_only_append_witness :
  extendsDefinition webhookUrlNames itemSchema (GNamed "Subscription")
    itemSubscription itemSubscriptionPatched.
Proof.
  apply (patchers_only_append itemSchema (GNamed "Subscription") None (Some [])
           [FieldNode None "onItemChanged" (Some [])
              (Some [FieldNode None "id" (Some []) None])]
           itemSubscriptionPatched eq_refl).
  vm_compute. reflexivity.
Defined.

(** ** One patcher after the other *)

Section PatcherCompose.
Variables first second : PatchNames.
Variable schema : Schema.

Lemma app_singleton_ne {A} (l : list A) (x : A) : l ++ [x] ≠ l.
Proof.
  intros H. apply (f_equal length) in H. rewrite length_app in H. simpl in H. lia.
Qed.

Lemma patchSelection_keeps_fixed subscriptionType selection selection' :
  patchSelection first schema subscriptionType selection = Ok selection →
  patchSelection second schema subscriptionType selection = Ok selection' →
  patchSelection first schema subscriptionType selection' = Ok selection'.
Proof.
  destruct selection as [alias name arguments selectionSet| |]; simpl;
    [|by intros _ [= <-]..].
  destruct (getFields schema subscriptionType ≫= _) as [field|] eqn:Hfield; [|done].
  destruct (existsb _ (field_args field) && negb (selectionHasArg first arguments))
    eqn:Hfirst.
  { intros [= Hargs]. destruct arguments as [l|]; [|done].
    injection Hargs as Hargs. by apply app_singleton_ne in Hargs. }
  intros _.
  destruct (existsb _ (field_args field) && negb (selectionHasArg second arguments));
    intros [= <-]; simpl; rewrite Hfield; [|by rewrite Hfirst].
  apply andb_false_iff in Hfirst as [->|Hhas]; [reflexivity|].
  apply negb_false_iff in Hhas.
  assert (existsb (λ arg, String.eqb (argument_name arg) (patch_argument first))
            (orEmpty arguments ++ [addedArgument second]) = true) as ->.
  { rewrite existsb_app. destruct arguments; simpl in *; [by rewrite Hhas|done]. }
  by rewrite andb_false_r.
Qed.

Lemma patchDefinition_keeps_fixed definition definition' :
  patchDefinition first schema definition = Ok definition →
  patchDefinition second schema definition = Ok definition' →
  patchDefinition first schema definition' = Ok definition'.
Proof.
  destruct definition as [operation name variableDefinitions selectionSet| ];
    [|by intros _ [= <-]].
  destruct operation; try by intros _ [= <-].
  simpl. destruct (getSubscriptionType schema) as [subscriptionType|] eqn:Hroot.
  2:{ intros _ [= <-]. simpl. by rewrite Hroot. }
  destruct selectionSet as [selections|]; [|done].
  destruct (mapM (patchSelection first _ _) selections) as [fixed| |] eqn:Hfixed;
    simpl; try done.
  intros [= Hvars ->].
  destruct (mapM (patchSelection second _ _) selections) as [selections'| |] eqn:Hsel;
    simpl; try done.
  intros [= <-]. simpl. rewrite Hroot.
  assert (hasVariableDefinition first variableDefinitions = true) as Hdeclared.
  { destruct (hasVariableDefinition first variableDefinitions); [reflexivity|].
    destruct variableDefinitions as [l|]; [|done].
    injection Hvars as Hvars. by apply app_singleton_ne in Hvars. }
  assert (mapM (patchSelection first schema subscriptionType) selections' = Ok selections')
    as ->.
  { apply Outcome_mapM_Ok in Hfixed, Hsel. apply Outcome_mapM_Ok.
    clear -Hfixed Hsel.
    revert selections' Hsel.
    induction selections as [|s l IH]; intros selections' Hsel;
      inversion Hsel as [|? s' ? l' Hs Hl]; subst; constructor.
    - apply Forall2_cons_1 in Hfixed as [Hfixed _].
      by eapply patchSelection_keeps_fixed.
    - apply Forall2_cons_1 in Hfixed as [_ Hfixed]. by apply IH. }
  simpl.
  assert (hasVariableDefinition first
            (if hasVariableDefinition second variableDefinitions
             then variableDefinitions
             else Some (orEmpty variableDefinitions ++ [addedVariableDefinition second]))
          = true) as ->; [|reflexivity].
  destruct (hasVariableDefinition second variableDefinitions); [exact Hdeclared|].
  simpl. rewrite existsb_app.
  destruct variableDefinitions; simpl in *; [by rewrite Hdeclared|done].
Qed.
End PatcherCompose.

(** The subscription of the scenario against a schema whose root field
    takes both arguments. *)
Definition securedItemSchema : Schema :=
  mkSchema
    (list_to_map
       [("String", ScalarDef); ("ID", ScalarDef);
        ("OneGraphSubscriptionSecretInput", InputObjectDef []);
        ("Item", ObjectDef [mkFieldDef "id" (GNamed "ID") None []]);
        ("Query", ObjectDef [mkFieldDef "item" (GNamed "Item") None []]);
        ("Subscription",
         ObjectDef [mkFieldDef "onItemChanged" (GNamed "Item") None
                      [mkArgDef "webhookUrl" (GNamed "String");
                       mkArgDef "secret" (GNamed "OneGraphSubscriptionSecretInput")]])])
    (Some "Query") None (Some "Subscription").

(** X4: when one webhook patcher is run on the result of the other, the
    final definition is left unchanged by both of them: the second pass
    does not undo what the first added, in either order. *)
Theorem webhook_patchers_compose :
  ∀ schema definition definition1 definition2,
    (patchSubscriptionWebhookField schema definition = Ok definition1 →
     patchSubscriptionWebhookSecretField schema definition1 = Ok definition2 →
     patchSubscriptionWebhookField schema definition2 = Ok definition2
     ∧ patchSubscriptionWebhookSecretField schema definition2 = Ok definition2)
    ∧ (patchSubscriptionWebhookSecretField schema definition = Ok definition1 →
       patchSubscriptionWebhookField schema definition1 = Ok definition2 →
       patchSubscriptionWebhookField schema definition2 = Ok definition2
       ∧ patchSubscriptionWebhookSecretField schema definition2 = Ok definition2).
Proof.
  intros schema definition definition1 definition2. split; intros Hfirst Hsecond.
  - split; [|by eapply patchDefinition_idempotent].
    apply patchDefinition_idempotent in Hfirst.
    exact (patchDefinition_keeps_fixed webhookUrlNames webhookSecretNames schema _ _
             Hfirst Hsecond).
  - split; [by eapply patchDefinition_idempotent|].
    apply patchDefinition_idempotent in Hfirst.
    exact (patchDefinition_keeps_fixed webhookSecretNames webhookUrlNames schema _ _
             Hfirst Hsecond).
Qed.

Lemma webhook_patchers_compose_witness :
  ∃ definition2,
    (patchSubscriptionWebhookField securedItemSchema itemSubscription
       ≫= patchSubscriptionWebhookSecretField securedItemSchema) = Ok definition2
    ∧ patchSubscriptionWebhookField securedItemSchema definition2 = Ok definition2
    ∧ patchSubscriptionWebhookSecretField securedItemSchema definition2 = Ok definition2.
Proof.
  eexists. split; [vm_compute; reflexivity|].
  eapply (proj1 (webhook_patchers_compose securedItemSchema itemSubscription _ _));
    vm_compute; reflexivity.
Defined.

(** ** [mapM] with a log *)

Lemma Logged_bind_assoc {A B C} (m : Logged A) (f : A → Logged B) (g : B → Logged C) :
  (m ≫= f) ≫= g = m ≫= (λ a, f a ≫= g).
Proof.
  rewrite !Logged_bind_eq. destruct m as [l [a| |]]; simpl; [|reflexivity..].
  rewrite !Logged_bind_eq. destruct (f a) as [l' [b| |]]; simpl; [|reflexivity..].
  by rewrite app_assoc.
Qed.

Lemma Logged_bind_ret_l {A B} (a : A) (f : A → Logged B) : mret a ≫= f = f a.
Proof. rewrite Logged_bind_eq. simpl. by destruct (f a). Qed.

Lemma Logged_bind_quiet {A B} (a : A) (f : A → Logged B) : ([], Ok a) ≫= f = f a.
Proof. apply Logged_bind_ret_l. Qed.

Lemma Logged_bind_not_Ok {A B} (m : Logged A) (f : A → Logged B) :
  isOk m.2 = false → isOk (m ≫= f).2 = false.
Proof. rewrite Logged_bind_eq. by destruct m as [l [a| |]]. Qed.

Lemma Logged_bind_ext {A C} (m : Logged A) (g1 g2 : A → Logged C) :
  (∀ a, g1 a = g2 a) → m ≫= g1 = m ≫= g2.
Proof. intros H. rewrite !Logged_bind_eq. destruct m as [l0 [a| |]]; simpl; by rewrite ?H. Qed.

Section LoggedMapM.
Context {A B : Type}.
Implicit Types (f : A → Logged B) (l : list A) (k : list B).

Lemma Logged_mapM_cons f x l :
  mapM f (x :: l) = y ← f x; k ← mapM f l; mret (y :: k).
Proof. reflexivity. Qed.

Lemma Logged_mapM_Ok f l k :
  (mapM f l).2 = Ok k → Forall2 (λ x y, (f x).2 = Ok y) l k.
Proof.
  revert k. induction l as [|x l IH]; intros k.
  - intros [= <-]. constructor.
  - rewrite Logged_mapM_cons, Logged_bind_eq.
    destruct (f x) as [lx [y| |]] eqn:Hx; simpl; try discriminate.
    rewrite Logged_bind_eq. destruct (mapM f l) as [ll [k'| |]]; simpl; try discriminate.
    intros [= <-]. constructor; [by rewrite Hx|by apply IH].
Qed.

Lemma Logged_mapM_not_Ok f l x :
  x ∈ l → isOk (f x).2 = false → isOk (mapM f l).2 = false.
Proof.
  intros Hx Hfails. destruct (mapM f l).2 as [k| |] eqn:Hl; [|reflexivity..].
  apply Logged_mapM_Ok in Hl. apply list_elem_of_lookup in Hx as [i Hi].
  destruct (Forall2_lookup_l _ _ _ _ _ Hl Hi) as (y & _ & Hy).
  by rewrite Hy in Hfails.
Qed.

Lemma Logged_mapM_ext f g l : (∀ x, x ∈ l → f x = g x) → mapM f l = mapM g l.
Proof.
  induction l as [|x l IH]; intros H; [reflexivity|].
  rewrite !Logged_mapM_cons, (H x) by constructor.
  rewrite IH; [reflexivity|]. intros y Hy. apply H. by constructor.
Qed.

(** A quiet element whose result the continuation does not see can be
    left out. *)
Lemma Logged_mapM_skip {C} f (g : list B → Logged C) l1 x l2 v :
  f x = ([], Ok v) →
  (∀ k1 k2, g (k1 ++ v :: k2) = g (k1 ++ k2)) →
  mapM f (l1 ++ x :: l2) ≫= g = mapM f (l1 ++ l2) ≫= g.
Proof.
  intros Hx. revert g. induction l1 as [|a l1 IH]; intros g Hg.
  - simpl app. rewrite Logged_mapM_cons, Logged_bind_assoc, Hx, Logged_bind_quiet,
      Logged_bind_assoc.
    apply Logged_bind_ext. intros k. rewrite Logged_bind_ret_l. apply (Hg []).
  - simpl app. rewrite !Logged_mapM_cons, !Logged_bind_assoc.
    apply Logged_bind_ext. intros y. rewrite !Logged_bind_assoc.
    apply IH. intros k1 k2. rewrite !Logged_bind_ret_l. apply (Hg (y :: k1)).
Qed.
End LoggedMapM.

(** ** The shape builder on selections it cannot resolve *)

(** The name an entry is given: the alias if there is one. *)
Definition displayedNameOf (selection : SelectionNode) : string :=
  if Js.truthyOpt (sel_alias selection)
  then default "" (sel_alias selection)
  else default "" (sel_name selection).

(** The [sub] constant of [helper] for a selection, given the named type
    of the field. *)
Definition subShapes (schema : Schema) (fragmentDefinitions : gmap string DefinitionNode)
    (fuel : nat) (selection : SelectionNode) (namedType : option GqlType)
    : Logged (option (list JsVal)) :=
  match sel_selections selection with
  | Some selections =>
      results ← mapM (innerHelper schema fragmentDefinitions fuel namedType) selections;
      mret (Some (fold_left flattenStep (filter (λ v, JsValue.truthy v) results) []))
  | None => mret None
  end.

Lemma helper_unfold schema fragmentDefinitions fuel parentType selection :
  helper schema fragmentDefinitions (S fuel) (Some parentType) selection =
  match getFields schema (namedTypeOf parentType), sel_name selection with
  | Some fields, Some name =>
      helperOnField schema (subShapes schema fragmentDefinitions fuel selection)
        (lookupField fields name) (displayedNameOf selection) name
  | _, _ => liftOutcome (Throw TypeError)
  end.
Proof.
  simpl. destruct (getFields schema (namedTypeOf parentType)); [|reflexivity].
  unfold displayedNameOf. by destruct (sel_name selection).
Qed.

Lemma helperOnField_unfold schema sub field displayedName name :
  Js.startsWith "__" name = false →
  helperOnField schema sub field displayedName name =
  sub (getNamedType (field_type <$> field)) ≫= (λ entries,
    helperOnField schema (λ _, mret entries) field displayedName name).
Proof.
  intros Hname. unfold helperOnField. rewrite Hname.
  apply Logged_bind_ext. intros entries. by rewrite Logged_bind_ret_l.
Qed.

(** What an ordinary object gives for a name it has no property for. *)
Lemma inheritedMember_undefined name :
  name ∉ objectPrototypeNames → inheritedMember name = JUndefined.
Proof.
  intros Hname. unfold inheritedMember.
  destruct (String.eqb name "__proto__") eqn:Hproto.
  { apply String.eqb_eq in Hproto as ->. destruct Hname.
    apply (bool_decide_unpack _). vm_compute. exact I. }
  destruct (String.eqb name "constructor") eqn:Hconstructor.
  { apply String.eqb_eq in Hconstructor as ->. destruct Hname.
    apply (bool_decide_unpack _). vm_compute. exact I. }
  by rewrite bool_decide_false.
Qed.

Lemma inheritedMember_truthy name :
  name ∈ objectPrototypeNames → JsValue.truthy (inheritedMember name) = true.
Proof.
  intros Hname. unfold inheritedMember.
  destruct (String.eqb name "__proto__"); [reflexivity|].
  destruct (String.eqb name "constructor"); [reflexivity|].
  by rewrite bool_decide_true.
Qed.

(** A selection of fragment kind that resolves to nothing: a spread of a
    name for which [fragmentDefinitions] has no property, its own or
    inherited, a spread of a fragment on a type the schema does not have,
    an inline fragment on such a type. *)
Definition unresolvedFragment (schema : Schema)
    (fragmentDefinitions : gmap string DefinitionNode) (selection : SelectionNode) : Prop :=
  match selection with
  | FragmentSpreadNode fragmentName =>
      match fragmentDefinitions !! fragmentName with
      | None => fragmentName ∉ objectPrototypeNames
      | Some (FragmentDefinitionNode _ typeCondition _ _) => getType schema typeCondition = None
      | Some (OperationDefinitionNode _ _ _ _) => False
      end
  | InlineFragmentNode (Some typeCondition) _ => getType schema typeCondition = None
  | _ => False
  end.

Lemma innerHelper_unresolved schema fragmentDefinitions fuel namedType selection :
  unresolvedFragment schema fragmentDefinitions selection →
  innerHelper schema fragmentDefinitions (S fuel) namedType selection = ([], Ok JNull).
Proof.
  destruct selection as [| [typeCondition|] selections | fragmentName]; simpl; try done.
  - intros ->. reflexivity.
  - destruct (fragmentDefinitions !! fragmentName) as [[|? typeCondition ? ?]|]; try done.
    + simpl. intros ->. reflexivity.
    + intros Hname. by rewrite (inheritedMember_undefined _ Hname).
Qed.

Lemma innerHelper_inherited schema fragmentDefinitions fuel namedType fragmentName :
  fragmentDefinitions !! fragmentName = None →
  fragmentName ∈ objectPrototypeNames →
  innerHelper schema fragmentDefinitions (S fuel) namedType (FragmentSpreadNode fragmentName)
  = ([], Throw TypeError).
Proof.
  intros Hown Hname. simpl. by rewrite Hown, (inheritedMember_truthy _ Hname).
Qed.

(** X5: under a field, a fragment spread of a name for which
    [fragmentDefinitions] has no property, a spread of a fragment on a
    type the schema does not have and an inline fragment on such a type
    are skipped without a trace: the entry and the log are those of the
    same selection without them.  A property that [fragmentDefinitions]
    inherits from [Object.prototype] counts as found: a spread named
    [constructor] or [toString], with no fragment of that name, is not
    skipped but makes [typeFromAST] throw a [TypeError] (shown when the
    spread comes first among the sub-selections). *)
Theorem unresolved_fragments_are_skipped :
  ∀ schema fragmentDefinitions fuel alias name arguments,
    (∀ parentGqlType before skipped after,
       unresolvedFragment schema fragmentDefinitions skipped →
       helper schema fragmentDefinitions (S (S fuel)) parentGqlType
         (FieldNode alias name arguments (Some (before ++ skipped :: after)))
       = helper schema fragmentDefinitions (S (S fuel)) parentGqlType
           (FieldNode alias name arguments (Some (before ++ after))))
    ∧ (∀ parentType fields fragmentName rest,
         getFields schema (namedTypeOf parentType) = Some fields →
         Js.startsWith "__" name = false →
         fragmentDefinitions !! fragmentName = None →
         fragmentName ∈ objectPrototypeNames →
         helper schema fragmentDefinitions (S (S fuel)) (Some parentType)
           (FieldNode alias name arguments (Some (FragmentSpreadNode fragmentName :: rest)))
         = ([], Throw TypeError)).
Proof.
  intros schema fragmentDefinitions fuel alias name arguments. split.
  - intros parentGqlType before skipped after Hskipped.
    destruct parentGqlType as [parentType|]; [|reflexivity].
    rewrite !helper_unfold. cbn [sel_name].
    destruct (getFields schema (namedTypeOf parentType)) as [fields|]; [|reflexivity].
    unfold displayedNameOf. cbn [sel_alias sel_name].
    destruct (Js.startsWith "__" name) eqn:Hname.
    { unfold helperOnField. by rewrite Hname. }
    rewrite !(helperOnField_unfold _ (subShapes _ _ _ _)) by exact Hname.
    f_equal. unfold subShapes. cbn [sel_selections].
    apply Logged_mapM_skip with JNull.
    + by apply innerHelper_unresolved.
    + intros k1 k2. by rewrite !filter_app, filter_cons.
  - intros parentType fields fragmentName rest Hfields Hname Hown Hinherited.
    rewrite helper_unfold, Hfields. cbn [sel_name].
    rewrite helperOnField_unfold by exact Hname.
    unfold subShapes. cbn [sel_selections].
    rewrite Logged_mapM_cons, innerHelper_inherited by assumption. reflexivity.
Qed.

(** A schema with a union, and fragments, for the examples. *)
Definition searchSchema : Schema :=
  mkSchema
    (list_to_map
       [("String", ScalarDef); ("ID", ScalarDef);
        ("Color", EnumDef ["RED"; "GREEN"]);
        ("GitHubGitObjectID", ScalarDef);
        ("User", ObjectDef [mkFieldDef "id" (GNonNull (GNamed "ID")) None [];
                            mkFieldDef "name" (GNamed "String") (Some "Display name") [];
                            mkFieldDef "friend" (GNamed "User") None [];
                            mkFieldDef "favorite" (GNamed "Color") None [];
                            mkFieldDef "oid" (GNamed "GitHubGitObjectID") None []]);
        ("Repo", ObjectDef [mkFieldDef "id" (GNonNull (GNamed "ID")) None []]);
        ("Hit", UnionDef ["User"; "Repo"]);
        ("Query", ObjectDef [mkFieldDef "me" (GNamed "User") None [];
                             mkFieldDef "ids" (GList (GNonNull (GNamed "ID"))) None [];
                             mkFieldDef "search" (GList (GNamed "Hit")) None []])])
    (Some "Query") None None.

Lemma unresolved_fragments_are_skipped_witness :
  helper searchSchema ∅ 3 (Some (GNamed "Query"))
    (FieldNode None "me" None
       (Some [FieldNode None "id" None None; FragmentSpreadNode "Missing";
              FieldNode None "name" None None]))
  = helper searchSchema ∅ 3 (Some (GNamed "Query"))
      (FieldNode None "me" None
         (Some [FieldNode None "id" None None; FieldNode None "name" None None]))
  ∧ helper searchSchema ∅ 3 (Some (GNamed "Query"))
      (FieldNode None "me" None
         (Some [FragmentSpreadNode "constructor"; FieldNode None "id" None None]))
    = ([], Throw TypeError).
Proof.
  pose proof (unresolved_fragments_are_skipped searchSchema ∅ 1 None "me" None)
    as [Hskipped Hthrows].
  split.
  - apply (Hskipped (Some (GNamed "Query")) [FieldNode None "id" None None]
             (FragmentSpreadNode "Missing") [FieldNode None "name" None None]).
    simpl. rewrite lookup_empty. apply (bool_decide_unpack _). vm_compute. exact I.
  - apply (Hthrows (GNamed "Query") _ "constructor" [FieldNode None "id" None None]
             eq_refl eq_refl).
    + apply lookup_empty.
    + apply (bool_decide_unpack _). vm_compute. exact I.
Defined.

(** ** Fields under a type without fields *)

Lemma innerHelper_field schema fragmentDefinitions fuel namedType alias name arguments
    selectionSet :
  innerHelper schema fragmentDefinitions (S fuel) namedType
    (FieldNode alias name arguments selectionSet)
  = helper schema fragmentDefinitions fuel namedType
      (FieldNode alias name arguments selectionSet).
Proof. reflexivity. Qed.

Lemma innerHelper_field_fieldless schema fragmentDefinitions fuel namedType alias name
    arguments selectionSet :
  getFields schema (namedTypeOf namedType) = None →
  isOk (innerHelper schema fragmentDefinitions fuel (Some namedType)
          (FieldNode alias name arguments selectionSet)).2 = false.
Proof.
  intros Hfields. destruct fuel as [|[|fuel]]; [reflexivity..|].
  rewrite innerHelper_field, helper_unfold, Hfields. reflexivity.
Qed.

(** X6: a field whose named type has no fields of its own (a union, a
    scalar, an enum) cannot have a field among its sub-selections, not
    even [__typename]: [helper] calls [getFields] on that type, so it
    returns for no amount of recursion, and when the field comes first
    among the sub-selections it throws a [TypeError] before anything is
    written. *)
Theorem fields_under_fieldless_type_throw :
  ∀ schema fragmentDefinitions parentType fields field alias name arguments selections,
    getFields schema (namedTypeOf parentType) = Some fields →
    lookupField fields name = Some field →
    Js.startsWith "__" name = false →
    getFields schema (namedTypeOf (field_type field)) = None →
    let selection := FieldNode alias name arguments (Some selections) in
    (∀ fuel childAlias childName childArguments childSelectionSet,
       FieldNode childAlias childName childArguments childSelectionSet ∈ selections →
       isOk (helper schema fragmentDefinitions fuel (Some parentType) selection).2 = false)
    ∧ (∀ fuel childAlias childName childArguments childSelectionSet rest,
         selections = FieldNode childAlias childName childArguments childSelectionSet :: rest →
         helper schema fragmentDefinitions (S (S (S fuel))) (Some parentType) selection
         = ([], Throw TypeError)).
Proof.
  intros schema fragmentDefinitions parentType fields field alias name arguments selections
    Hfields Hfield Hname Hfieldless selection.
  split.
  - intros [|fuel] childAlias childName childArguments childSelectionSet Hchild;
      [reflexivity|].
    subst selection. rewrite helper_unfold, Hfields. cbn [sel_name]. rewrite Hfield.
    rewrite helperOnField_unfold by exact Hname.
    apply Logged_bind_not_Ok. unfold subShapes. cbn [sel_selections].
    apply Logged_bind_not_Ok.
    eapply Logged_mapM_not_Ok; [exact Hchild|].
    cbn [fmap option_fmap option_map getNamedType].
    apply innerHelper_field_fieldless. by rewrite namedTypeOf_idemp.
  - intros fuel childAlias childName childArguments childSelectionSet rest ->.
    subst selection. rewrite helper_unfold, Hfields. cbn [sel_name]. rewrite Hfield.
    rewrite helperOnField_unfold by exact Hname.
    unfold subShapes. cbn [sel_selections].
    rewrite Logged_mapM_cons.
    cbn [fmap option_fmap option_map getNamedType].
    rewrite innerHelper_field, helper_unfold, namedTypeOf_idemp, Hfieldless. reflexivity.
Qed.

Lemma fields_under_fieldless_type_throw_witness :
  helper searchSchema ∅ 3 (Some (GNamed "Query"))
    (FieldNode None "search" None
       (Some [FieldNode None "__typename" None None;
              InlineFragmentNode (Some "User") [FieldNode None "id" None None]]))
  = ([], Throw TypeError).
Proof.
  apply (proj2 (fields_under_fieldless_type_throw searchSchema ∅ (GNamed "Query") _
                  (mkFieldDef "search" (GList (GNamed "Hit")) None []) None "search" None
                  [FieldNode None "__typename" None None;
                   InlineFragmentNode (Some "User") [FieldNode None "id" None None]]
                  eq_refl eq_refl eq_refl eq_refl) 0%nat None "__typename" None None _ eq_refl).
Defined.

(** ** Top-level fragment spreads and unknown names *)

(** A spread read as [helper] reads it: a field of the fragment's name,
    with no alias, no arguments and no sub-selection. *)
Definition spreadAsField (selection : SelectionNode) : SelectionNode :=
  match selection with
  | FragmentSpreadNode name => FieldNode None name None None
  | _ => selection
  end.

Lemma helper_spreadAsField schema fragmentDefinitions fuel parentGqlType selection :
  helper schema fragmentDefinitions fuel parentGqlType (spreadAsField selection)
  = helper schema fragmentDefinitions fuel parentGqlType selection.
Proof.
  destruct selection as [| |name]; [reflexivity..|].
  destruct fuel as [|fuel]; [reflexivity|].
  destruct parentGqlType as [parentType|]; [|reflexivity].
  rewrite !helper_unfold. reflexivity.
Qed.

Definition withSelections (definition : DefinitionNode)
    (selections : list SelectionNode) : DefinitionNode :=
  match definition with
  | OperationDefinitionNode operation name variableDefinitions _ =>
      OperationDefinitionNode operation name variableDefinitions (Some selections)
  | FragmentDefinitionNode name typeCondition variableDefinitions _ =>
      FragmentDefinitionNode name typeCondition variableDefinitions (Some selections)
  end.

Lemma Logged_mapM_fmap {A B C} (f : B → Logged C) (g : A → B) (l : list A) :
  mapM f (g <$> l) = mapM (f ∘ g) l.
Proof.
  induction l as [|x l IH]; [reflexivity|].
  rewrite fmap_cons, !Logged_mapM_cons, IH. reflexivity.
Qed.


(** [query { ...UserParts }] with [fragment UserParts on Query { me { id } }]. *)
Definition spreadOnlyQuery : DefinitionNode :=
  OperationDefinitionNode OpQuery None None (Some [FragmentSpreadNode "UserParts"]).

Definition userPartsFragments : gmap string DefinitionNode :=
  {[ "UserParts" :=
       FragmentDefinitionNode "UserParts" "Query" None
         (Some [FieldNode None "me" None (Some [FieldNode None "id" None None])]) ]}.


(** ** Entries that share a name *)

(** The two-element array [[key, value]]. *)
Definition entryOf (e : string * JsVal) : JsVal := JArr [JStr e.1; e.2].

(** The value [{ type, description }] of an entry. *)
Definition typed (type description : JsVal) : JsVal :=
  JObj [("type", type); ("description", description)].

Definition definedProps (es : list (string * JsVal)) (props : list (string * JsVal))
    : list (string * JsVal) :=
  fold_left (λ ps e, JsValue.setProp e.1 e.2 ps) es props.

Lemma JsValue_lookupProp_setProp_eq k v props :
  JsValue.lookupProp k (JsValue.setProp k v props) = v.
Proof.
  unfold JsValue.lookupProp. induction props as [|[k' v'] props IH]; simpl.
  - by rewrite String.eqb_refl.
  - destruct (String.eqb k' k) eqn:Hk; simpl; [by rewrite String.eqb_refl|].
    rewrite Hk. exact IH.
Qed.

Lemma JsValue_lookupProp_setProp_ne k k' v props :
  k' ≠ k → JsValue.lookupProp k (JsValue.setProp k' v props) = JsValue.lookupProp k props.
Proof.
  intros Hne. unfold JsValue.lookupProp. induction props as [|[k0 v0] props IH]; simpl.
  - by rewrite (proj2 (String.eqb_neq k' k) Hne).
  - destruct (String.eqb k0 k') eqn:Hk; simpl.
    + apply String.eqb_eq in Hk as ->. by rewrite (proj2 (String.eqb_neq k' k) Hne).
    + destruct (String.eqb k0 k); [reflexivity|exact IH].
Qed.

Lemma setProp_keys k v props :
  (JsValue.setProp k v props).*1 =
  if bool_decide (k ∈ props.*1) then props.*1 else props.*1 ++ [k].
Proof.
  induction props as [|[k' v'] props IH].
  - case_bool_decide as Hin; [by apply elem_of_nil in Hin|reflexivity].
  - cbn [JsValue.setProp]. destruct (String.eqb k' k) eqn:Hk.
    + apply String.eqb_eq in Hk as ->. rewrite bool_decide_true; [reflexivity|].
      rewrite fmap_cons. by left.
    + apply String.eqb_neq in Hk. rewrite !fmap_cons, IH. cbn [fst].
      destruct (decide (k ∈ props.*1)) as [Hin|Hin].
      * rewrite !bool_decide_true; [reflexivity|by right|exact Hin].
      * rewrite !bool_decide_false; [reflexivity| |exact Hin].
        intros [?|?]%elem_of_cons; congruence.
Qed.

Lemma definedProps_keys es props :
  (definedProps es props).*1 =
  fold_left (λ acc v, if bool_decide (v ∈ acc) then acc else acc ++ [v]) es.*1 props.*1.
Proof.
  revert props. induction es as [|e es IH]; intros props; [reflexivity|].
  simpl. rewrite IH, setProp_keys. reflexivity.
Qed.

Lemma definedProps_other k es props :
  Forall (λ e, e.1 ≠ k) es →
  JsValue.lookupProp k (definedProps es props) = JsValue.lookupProp k props.
Proof.
  intros Hes. revert props. induction Hes as [|e es He _ IH]; intros props; [reflexivity|].
  simpl. rewrite IH. by apply JsValue_lookupProp_setProp_ne.
Qed.

Lemma definedProps_last es props i e :
  es !! i = Some e →
  (∀ j e', es !! j = Some e' → (i < j)%nat → e'.1 ≠ e.1) →
  JsValue.lookupProp e.1 (definedProps es props) = e.2.
Proof.
  revert props i. induction es as [|e0 es IH]; intros props i Hi Hlater; [done|].
  destruct i as [|i]; simpl in *.
  - injection Hi as ->. rewrite definedProps_other.
    + apply JsValue_lookupProp_setProp_eq.
    + apply Forall_lookup. intros j e' Hj. apply (Hlater (S j)); [exact Hj|lia].
  - apply IH with i; [exact Hi|]. intros j e' Hj Hij. apply (Hlater (S j)); [exact Hj|lia].
Qed.

Lemma addEntries_entries es props :
  JsValue.addEntries (entryOf <$> es) props = Ok (definedProps es props).
Proof.
  revert props. induction es as [|e es IH]; intros props; [reflexivity|].
  rewrite fmap_cons. simpl. apply IH.
Qed.

Lemma addEntries_objects items props result :
  JsValue.addEntries items props = Ok result →
  Forall (λ item, JsValue.isObject item = true) items.
Proof.
  revert props. induction items as [|item items IH]; intros props; [constructor|].
  simpl. destruct (JsValue.isObject item) eqn:Hitem; [|discriminate].
  intros H. constructor; [exact Hitem|by eapply IH].
Qed.

(** What [helper] returns is [undefined] or an entry under the displayed
    name. *)
Lemma helperOnField_entry schema sub field displayedName name log v :
  helperOnField schema sub field displayedName name = (log, Ok v) →
  v = JUndefined ∨ ∃ type description, v = shapeEntry displayedName type description.
Proof.
  unfold helperOnField. destruct (Js.startsWith "__" name).
  { intros [= <- <-]. eauto. }
  do 3 (rewrite Logged_bind_eq;
        match goal with
        | |- context [match snd ?m with _ => _ end] => destruct m as [? [?| |]]
        end; cbn [fst snd]; [|discriminate..]).
  destruct (JsValue.truthy _); simpl; intros [= <- <-]; eauto.
Qed.

Lemma helper_entry schema fragmentDefinitions fuel parentGqlType selection log v :
  helper schema fragmentDefinitions fuel parentGqlType selection = (log, Ok v) →
  v = JUndefined ∨ ∃ type description, v = shapeEntry (displayedNameOf selection) type description.
Proof.
  destruct fuel as [|fuel]; [discriminate|].
  destruct parentGqlType as [parentType|]; [|intros [= <- <-]; by left].
  rewrite helper_unfold.
  destruct (getFields schema (namedTypeOf parentType)) as [fields|]; [|discriminate].
  destruct (sel_name selection) as [name|]; [|discriminate].
  apply helperOnField_entry.
Qed.

(** X8: when the shape builder returns for an operation with a selection
    set, the [data] shape is an object with one property per displayed
    name (the alias, or else the name) of the top-level selections, in
    the order in which the names first appear; where several selections
    share a displayed name, the property holds the type and the
    description computed for the last of them, and the earlier ones
    leave no trace in the shape. *)
Theorem duplicate_names_keep_last_shape :
  ∀ schema fragmentDefinitions fuel operationDefinition selections log shape,
    def_selectionSet operationDefinition = Some selections →
    typeScriptDefinitionObjectForOperation schema fragmentDefinitions fuel operationDefinition
    = (log, Ok shape) →
    ∃ props,
      shape = resultEnvelope (JObj props)
      ∧ props.*1 = JsValue.newSet (displayedNameOf <$> selections)
      ∧ ∀ i selection,
          selections !! i = Some selection →
          (∀ j later, selections !! j = Some later → (i < j)%nat →
                      displayedNameOf later ≠ displayedNameOf selection) →
          ∃ log' type description,
            helper schema fragmentDefinitions fuel (baseGqlTypeOf schema operationDefinition)
              selection
            = (log', Ok (shapeEntry (displayedNameOf selection) type description))
            ∧ JsValue.lookupProp (displayedNameOf selection) props = typed type description.
Proof.
  intros schema fragmentDefinitions fuel operationDefinition selections log shape Hselections.
  unfold typeScriptDefinitionObjectForOperation. rewrite Hselections.
  set (base := baseGqlTypeOf schema operationDefinition).
  rewrite Logged_bind_eq.
  destruct (mapM _ selections) as [l1 [sub| |]] eqn:Hsub; simpl; [|discriminate..].
  rewrite Logged_bind_eq. unfold JsValue.fromEntries.
  destruct (JsValue.addEntries sub []) as [props| |] eqn:Hprops; simpl; [|discriminate..].
  intros [= _ <-]. exists props. split; [reflexivity|].
  assert ((mapM (helper schema fragmentDefinitions fuel base) selections).2 = Ok sub) as Hall
    by by rewrite Hsub.
  apply Logged_mapM_Ok in Hall.
  pose proof (addEntries_objects _ _ _ Hprops) as Hobjects.
  assert (∃ es, sub = entryOf <$> es
            ∧ Forall2 (λ selection e,
                e.1 = displayedNameOf selection
                ∧ ∃ log' type description,
                    helper schema fragmentDefinitions fuel base selection
                    = (log', Ok (shapeEntry (displayedNameOf selection) type description))
                    ∧ e.2 = typed type description) selections es) as (es & -> & Hes).
  { clear Hsub Hprops Hselections. induction Hall as [|selection v l k Hv _ IH].
    - exists []. split; [reflexivity|constructor].
    - apply Forall_cons in Hobjects as [Hv' Hobjects].
      destruct (IH Hobjects) as (es & -> & Hes).
      destruct (helper schema fragmentDefinitions fuel base selection) as [log' o] eqn:Hhelper.
      simpl in Hv. subst o.
      destruct (helper_entry _ _ _ _ _ _ _ Hhelper) as [->|(type & description & ->)];
        [discriminate|].
      exists ((displayedNameOf selection, typed type description) :: es).
      split; [reflexivity|]. constructor; [|exact Hes]. split; [reflexivity|]. eauto. }
  rewrite addEntries_entries in Hprops. injection Hprops as <-.
  assert (es.*1 = displayedNameOf <$> selections) as Hnames.
  { clear -Hes. induction Hes as [|s e l k [He _] _ IH]; [reflexivity|].
    rewrite !fmap_cons, IH, He. reflexivity. }
  split.
  - rewrite definedProps_keys, Hnames. reflexivity.
  - intros i selection Hi Hlater.
    destruct (Forall2_lookup_l _ _ _ _ _ Hes Hi) as (e & He & Hname & log' & type & description
                                                     & Hhelper & Hvalue).
    exists log', type, description. split; [exact Hhelper|].
    rewrite <- Hname, <- Hvalue. apply definedProps_last with i; [exact He|].
    intros j e' Hj Hij.
    destruct (Forall2_lookup_r _ _ _ _ _ Hes Hj) as (later & Hlj & Hname' & _).
    rewrite Hname, Hname'. by apply (Hlater j).
Qed.

(** [query { x: ids  x: me { id } }]. *)
Definition sharedNameQuery : DefinitionNode :=
  OperationDefinitionNode OpQuery None None
    (Some [FieldNode (Some "x") "ids" None None;
           FieldNode (Some "x") "me" None (Some [FieldNode None "id" None None])]).

Lemma duplicate_names_keep_last_shape_witness :
  typeScriptDefinitionObjectForOperation searchSchema ∅ 3 sharedNameQuery
  = ([], Ok (resultEnvelope (JObj [("x", typed (JObj [("id", typed (JStr "string") JUndefined)])
                                             JUndefined)]))).
Proof.
  destruct (typeScriptDefinitionObjectForOperation searchSchema ∅ 3 sharedNameQuery)
    as [log shape] eqn:Hrun.
  assert (log = [] ∧ ∃ data, shape = Ok data) as [-> [data ->]].
  { vm_compute in Hrun. injection Hrun as <- <-. eauto. }
  destruct (duplicate_names_keep_last_shape searchSchema ∅ 3 sharedNameQuery _ [] data
              eq_refl Hrun) as (props & -> & Hkeys & Hlast).
  destruct (Hlast 1%nat (FieldNode (Some "x") "me" None (Some [FieldNode None "id" None None]))
              eq_refl) as (log' & type & description & Hhelper & Hvalue).
  { intros [|[|[|j]]] later Hj Hij; simpl in Hj; try lia; discriminate. }
  vm_compute in Hhelper. injection Hhelper as <- <- <-.
  vm_compute in Hkeys.
  destruct props as [|[key value] [|? ?]]; try discriminate Hkeys.
  injection Hkeys as ->. vm_compute in Hvalue. subst value. reflexivity.
Defined.

(** ** The renderer: [typeScriptForOperation] *)

(** [value[key]] for [key] one of [type] and [description], which no
    prototype defines: reading a property of [undefined] or [null]
    throws. *)
Definition readProp (key : string) (value : JsVal) : Outcome JsVal :=
  match value with
  | JUndefined | JNull => Throw TypeError
  | JObj props => Ok (JsValue.lookupProp key props)
  | _ => Ok JUndefined
  end.

(** The text [objectHelper] returns for one property. *)
Definition fieldText (name : string) (description tsType : JsVal) : string :=
  let doc :=
    if JsValue.truthy description
    then "/**" +:+ Js.nl +:+ "* " +:+ JsValue.toString description +:+ Js.nl +:+ "*/" +:+ Js.nl
    else "" in
  doc +:+ quoted name +:+ ": " +:+ JsValue.toString tsType.

(** The text of an object shape around its fields. *)
Definition bracedFields (fields : list string) : string :=
  "{" +:+ Js.nl +:+ "      " +:+ Js.join ", " fields +:+ Js.nl +:+ "  }".

(** [valueHelper({ type })]: what [valueHelper] returns once it has read
    the [type] property, a string or [undefined].  The recursion follows
    the shape: into the first element of an array, and through
    [objectHelper] into the [type] of each property of an object. *)
Fixpoint valueHelperOnType (type : JsVal) : Outcome JsVal :=
  match type with
  | JUndefined | JFun _ => Ok JUndefined
  | JStr s => Ok (if Js.truthyStr s then JStr s else JUndefined)
  | JArr elements =>
      subType ← match elements with
                | first :: _ => valueHelperOnType first
                | [] => Ok JUndefined
                end;
      Ok (JStr ("Array<" +:+ JsValue.toString subType +:+ ">"))
  | JSet values =>
      let enums := Js.join " | " ((λ innerValue, quoted innerValue) <$> values) in
      Ok (JStr enums)
  | JNull => Throw TypeError
  | JObj props =>
      fields ← mapM (λ '(name, value),
                  description ← readProp "description" value;
                  tsType ← match value with
                           | JUndefined | JNull => Throw TypeError
                           | JObj valueProps =>
                               (fix typeOf (ps : list (string * JsVal)) : Outcome JsVal :=
                                  match ps with
                                  | [] => Ok JUndefined
                                  | (key, t) :: rest =>
                                      if String.eqb key "type" then valueHelperOnType t
                                      else typeOf rest
                                  end) valueProps
                           | _ => Ok JUndefined
                           end;
                  Ok (fieldText name description tsType)) props;
      Ok (JStr (bracedFields fields))
  end.

(** [valueHelper(value)]. *)
Definition valueHelper (value : JsVal) : Outcome JsVal :=
  type ← readProp "type" value;
  valueHelperOnType type.

(** [Object.entries(obj)]. *)
Definition objectEntries (obj : JsVal) : Outcome (list (string * JsVal)) :=
  match obj with
  | JUndefined | JNull => Throw TypeError
  | JObj props => Ok props
  | JArr elements => Ok (imap (λ i element, (pretty i, element)) elements)
  | JStr s => Ok (imap (λ i c, (pretty i, JStr (String c ""))) (list_ascii_of_string s))
  | JSet _ | JFun _ => Ok []
  end.

(** [objectHelper(obj)]. *)
Definition objectHelper (obj : JsVal) : Outcome (list string) :=
  props ← objectEntries obj;
  mapM (λ '(name, value),
          description ← readProp "description" value;
          tsType ← valueHelper value;
          Ok (fieldText name description tsType)) props.

Definition typeScriptForOperation (fuel : nat) (schema : Schema)
    (operationDefinition : DefinitionNode)
    (fragmentDefinitions : gmap string DefinitionNode) : Logged string :=
  typeMap ← typeScriptDefinitionObjectForOperation schema fragmentDefinitions fuel
              operationDefinition;
  fields ← liftOutcome (Js.join ", " <$> objectHelper typeMap);
  mret ("{" +:+ fields +:+ "}").

Definition typeScriptSignatureForOperation (fuel : nat) (schema : Schema)
    (operationDefinition : DefinitionNode)
    (fragmentDefinitions : gmap string DefinitionNode) : Logged string :=
  types ← typeScriptForOperation fuel schema operationDefinition fragmentDefinitions;
  mret types.

(** [string.charAt(0).toUpperCase()], on ASCII. *)
Definition upperAscii (c : ascii) : ascii :=
  let n := nat_of_ascii c in
  if (Nat.leb 97 n && Nat.leb n 122)%bool then ascii_of_nat (n - 32) else c.

(** [capitalizeFirstLetter(string)] on the characters a GraphQL name can
    hold. *)
Definition capitalizeFirstLetter (s : string) : string :=
  match s with
  | String c rest => String (upperAscii c) rest
  | EmptyString => EmptyString
  end.

Definition typeScriptTypeNameForOperation (name : string) : string :=
  capitalizeFirstLetter name +:+ "Payload".

Lemma typeOf_lookupProp (valueProps : list (string * JsVal)) :
  (fix typeOf (ps : list (string * JsVal)) : Outcome JsVal :=
     match ps with
     | [] => Ok JUndefined
     | (key, t) :: rest =>
         if String.eqb key "type" then valueHelperOnType t else typeOf rest
     end) valueProps
  = valueHelperOnType (JsValue.lookupProp "type" valueProps).
Proof.
  unfold JsValue.lookupProp. induction valueProps as [|[key t] rest IH]; [reflexivity|].
  cbn [List.find fst snd]. destruct (String.eqb key "type"); [reflexivity|exact IH].
Qed.

(** The object case of [valueHelperOnType] is [objectHelper] on the
    object: the text of each property is that of [valueHelper] on its
    value. *)
Lemma valueHelperOnType_object props :
  valueHelperOnType (JObj props) =
  fields ← objectHelper (JObj props);
  Ok (JStr (bracedFields fields)).
Proof.
  unfold objectHelper. cbn [objectEntries mbind Outcome_bind valueHelperOnType].
  f_equal. apply Outcome_mapM_ext. intros [name value] _.
  destruct value as [| | | | |valueProps|]; try reflexivity.
  unfold valueHelper. cbn [readProp mbind Outcome_bind].
  by rewrite typeOf_lookupProp.
Qed.

(** ** What the renderer prints *)

Lemma valueHelper_typed type description :
  valueHelper (typed type description) = valueHelperOnType type.
Proof. reflexivity. Qed.

Lemma valueHelperOnType_array first rest :
  valueHelperOnType (JArr (first :: rest)) =
  subType ← valueHelperOnType first;
  Ok (JStr ("Array<" +:+ JsValue.toString subType +:+ ">")).
Proof. reflexivity. Qed.

Lemma nestArrayText_S n s :
  nestArrayText (S n) s = "Array<" +:+ nestArrayText n s +:+ ">".
Proof. reflexivity. Qed.

Lemma wrapArrays_S n v :
  wrapArrays (Z.of_nat (S n)) v = JArr [wrapArrays (Z.of_nat n) v].
Proof. unfold wrapArrays. rewrite !Nat2Z.id. reflexivity. Qed.

Lemma wrapArrays_0 v : wrapArrays (Z.of_nat 0) v = v.
Proof. reflexivity. Qed.

Lemma valueHelperOnType_wrapArrays n type :
  JsValue.toString <$> valueHelperOnType (wrapArrays (Z.of_nat n) type)
  = nestArrayText n <$> (JsValue.toString <$> valueHelperOnType type).
Proof.
  induction n as [|n IH].
  - rewrite wrapArrays_0. by destruct (valueHelperOnType type).
  - rewrite wrapArrays_S, valueHelperOnType_array.
    destruct (valueHelperOnType (wrapArrays (Z.of_nat n) type)) as [subType| |];
      destruct (valueHelperOnType type) as [inner| |];
      cbn [fmap Outcome_fmap mbind Outcome_bind] in *; try discriminate; try reflexivity;
      [|exact IH].
    injection IH as IH. by rewrite nestArrayText_S, <- IH.
Qed.

(** X9: the renderer prints one [Array<...>] around the text of the
    element for each array layer of a shape, as the type mapper does for
    each list wrapper: the text of a type under [n] layers is the text
    of the type under [n] [Array<...>], and the renderer fails on the
    one exactly when it fails on the other. *)
Theorem array_layers_render_as_Array :
  ∀ n type description,
    JsValue.toString <$> valueHelper (typed (wrapArrays (Z.of_nat n) type) description)
    = nestArrayText n <$> (JsValue.toString <$> valueHelper (typed type description)).
Proof.
  intros n type description. rewrite !valueHelper_typed.
  apply valueHelperOnType_wrapArrays.
Qed.

(** A name with which [scalarMap[name]] reads an own property or
    nothing: not that of a member of [Object.prototype]. *)
Definition plainName (name : string) : Prop := name ∉ objectPrototypeNames.

(** The named type of a leaf field: a scalar with a plain name other
    than [GitHubGitObjectID], which only the shape builder knows, or an
    enum with distinct values. *)
Definition leafType (schema : Schema) (t : GqlType) : Prop :=
  match typeDefOf schema (namedTypeOf t) with
  | Some ScalarDef => typeName t ≠ "GitHubGitObjectID" ∧ plainName (typeName t)
  | Some (EnumDef values) => NoDup values
  | _ => False
  end.

Lemma newSet_NoDup_acc (values acc : list string) :
  NoDup (acc ++ values) →
  fold_left (λ acc v, if bool_decide (v ∈ acc) then acc else acc ++ [v]) values acc
  = acc ++ values.
Proof.
  revert acc. induction values as [|v l IH]; intros acc Hnd; simpl.
  - by rewrite app_nil_r.
  - rewrite bool_decide_false.
    + rewrite IH; rewrite <- app_assoc; [reflexivity|exact Hnd].
    + apply NoDup_app in Hnd as (_ & Hnd & _). intros Hv. apply (Hnd v Hv). by left.
Qed.

Lemma newSet_NoDup_id values : NoDup values → JsValue.newSet values = values.
Proof. intros Hnd. by apply (newSet_NoDup_acc values []). Qed.

(** On a plain name, [scalarMap[name]] is one of the five texts or
    [undefined]. *)
Lemma scalarMap_plain name :
  plainName name →
  (∃ text, scalarMap name = JStr text ∧ Js.truthyStr text = true)
  ∨ scalarMap name = JUndefined.
Proof.
  intros Hname. unfold scalarMap.
  repeat (destruct (String.eqb name _); [left; eexists; split; reflexivity|]).
  right. by apply inheritedMember_undefined.
Qed.

Lemma shapeScalarMap_other name :
  name ≠ "GitHubGitObjectID" → shapeScalarMap name = scalarMap name.
Proof. intros Hname. unfold shapeScalarMap. by rewrite (proj2 (String.eqb_neq _ _) Hname). Qed.

(** The entry of a leaf field of a bare named type, and its text. *)
Lemma helperOnField_leaf schema field displayedName name n :
  Js.startsWith "__" name = false →
  leafType schema (GNamed n) →
  ∃ type,
    helperOnField schema (λ _, mret None) (Some (withType field (GNamed n))) displayedName name
    = ([], Ok (shapeEntry displayedName type (optStr (field_description field))))
    ∧ JsValue.toString <$> valueHelperOnType type = typeScriptForType 0 schema (GNamed n).
Proof.
  intros Hname Hleaf. unfold helperOnField. rewrite Hname.
  unfold leafType in Hleaf. cbn [namedTypeOf typeDefOf] in Hleaf.
  cbn [fmap option_fmap option_map withType field_type getNamedType namedTypeOf
       isListType isNonNullType orb andb negb mbind option_bind ofTypeOf].
  unfold isObjectType, isUnionType, isInterfaceType, isEnumType, getValues.
  cbn [mbind option_bind typeDefOf fmap option_fmap option_map default].
  destruct (typeMap schema !! n) as [[|values| | | |]|] eqn:Htype; try done.
  - unfold typeName in *. cbn [namedTypeOf] in *. destruct Hleaf as [Hgit Hplain].
    rewrite !Logged_bind_ret_l. cbn [orb].
    assert (typeScriptForType 0 schema (GNamed n)
            = Ok (JsValue.toString (orAny (scalarMap n)))) as ->.
    { simpl. by rewrite Htype. }
    destruct (Js.truthyStr n) eqn:Hn.
    + rewrite shapeScalarMap_other by exact Hgit.
      destruct (scalarMap_plain n Hplain) as [(text & -> & Htext)| ->];
        unfold orAny; cbn [JsValue.truthy].
      * rewrite Htext, Logged_bind_ret_l. cbn [JsValue.truthy]. rewrite Htext.
        exists (JStr text). split; [reflexivity|].
        cbn [valueHelperOnType]. by rewrite Htext.
      * rewrite Logged_bind_ret_l. exists (JStr "any"). split; reflexivity.
    + apply negb_false_iff, String.eqb_eq in Hn as ->.
      exists (JStr "any"). split; reflexivity.
  - rewrite !Logged_bind_ret_l. cbn [orb JsValue.truthy]. rewrite Logged_bind_ret_l.
    cbn [JsValue.truthy].
    exists (JSet (JsValue.newSet values)). split; [reflexivity|].
    rewrite newSet_NoDup_id by exact Hleaf. simpl. by rewrite Htype.
Qed.

(** A name of [Object.prototype] other than [__proto__] reads as a
    built-in function on both [scalarMap] objects. *)
Lemma scalarMap_inherited name :
  name ∈ objectPrototypeNames → name ≠ "__proto__" →
  ∃ source, inheritedMember name = JFun source
            ∧ scalarMap name = JFun source ∧ shapeScalarMap name = JFun source
            ∧ Js.truthyStr name = true.
Proof.
  intros Hname Hproto. unfold objectPrototypeNames in Hname.
  repeat (apply elem_of_cons in Hname as [->|Hname];
          [first [by destruct Hproto | eexists; repeat split; vm_compute; reflexivity]|]).
  by apply elem_of_nil in Hname.
Qed.

Lemma withType_own field : withType field (field_type field) = field.
Proof. by destruct field. Qed.

(** X10: for a field without sub-selections whose named type is a scalar
    or an enum with distinct values, under at most 30 wrappers, the
    shape builder and the renderer together print what the type mapper
    prints for the field's type: the two tables of scalars agree, enums
    become the same union of quoted values, and list wrappers the same
    [Array<...>] layers.  Two kinds of scalar are excepted, on which
    they differ.  On [GitHubGitObjectID] the shape builder says
    [string], the type mapper [any].  On a scalar named after a function
    of [Object.prototype] ([constructor], [toString], ...) both read the
    inherited function from their [scalarMap]: the shape builder stores
    it as the type, for which the renderer returns [undefined], and the
    type mapper returns it, which prints as the function's text. *)
Theorem leaf_fields_render_as_type_mapper :
  ∀ schema fragmentDefinitions fuel parentType fields field alias name arguments,
    getFields schema (namedTypeOf parentType) = Some fields →
    lookupField fields name = Some field →
    Js.startsWith "__" name = false →
    let selection := FieldNode alias name arguments None in
    let description := optStr (field_description field) in
    (wellFormedType (field_type field) = true →
     (wrapDepth (field_type field) ≤ 30)%nat →
     leafType schema (field_type field) →
     ∃ type,
       helper schema fragmentDefinitions (S fuel) (Some parentType) selection
       = ([], Ok (shapeEntry (displayedNameOf selection) type description))
       ∧ JsValue.toString <$> valueHelper (typed type description)
         = typeScriptForGraphQLType 0 schema (Some (field_type field)))
    ∧ (field_type field = GNamed "GitHubGitObjectID" →
       typeMap schema !! "GitHubGitObjectID" = Some ScalarDef →
       helper schema fragmentDefinitions (S fuel) (Some parentType) selection
       = ([], Ok (shapeEntry (displayedNameOf selection) (JStr "string") description))
       ∧ typeScriptForGraphQLType 0 schema (Some (field_type field)) = Ok "any")
    ∧ (∀ inherited,
         field_type field = GNamed inherited →
         inherited ∈ objectPrototypeNames → inherited ≠ "__proto__" →
         typeMap schema !! inherited = Some ScalarDef →
         ∃ source,
           helper schema fragmentDefinitions (S fuel) (Some parentType) selection
           = ([], Ok (shapeEntry (displayedNameOf selection) (JFun source) description))
           ∧ valueHelper (typed (JFun source) description) = Ok JUndefined
           ∧ typeScriptForGraphQLType 0 schema (Some (field_type field)) = Ok source).
Proof.
  intros schema fragmentDefinitions fuel parentType fields field alias name arguments
    Hfields Hfield Hname selection description.
  subst selection description. rewrite helper_unfold, Hfields. cbn [sel_name]. rewrite Hfield.
  unfold subShapes at 1. cbn [sel_selections]. split; [|split].
  - intros Hwf Hdepth Hleaf.
    destruct (namedTypeOf_named (field_type field)) as [n Hn].
    destruct (helperOnField_leaf schema field
                (displayedNameOf (FieldNode alias name arguments None)) name n Hname)
      as (type & Hshape & Htext).
    { unfold leafType, typeName in *. by rewrite Hn in Hleaf. }
    exists (wrapArrays (Z.of_nat (listDepth (field_type field))) type). split.
    + rewrite <- (withType_own field) at 1.
      rewrite <- (withType_own field) at 4.
      apply helperOnField_within; [exact Hwf|unfold maximumDepth; lia|exact Hname|].
      rewrite Hn. exact Hshape.
    + rewrite valueHelper_typed, valueHelperOnType_wrapArrays, Htext.
      cbn [typeScriptForGraphQLType]. rewrite (typeScriptForType_unwraps 0 schema (field_type field)).
      by rewrite Hn.
  - intros Htype Hscalar. split.
    + unfold helperOnField. rewrite Hname.
      cbn [fmap option_fmap option_map]. rewrite Htype.
      cbn [fmap option_fmap option_map getNamedType namedTypeOf
           isListType isNonNullType orb andb negb mbind option_bind ofTypeOf].
      unfold isObjectType, isUnionType, isInterfaceType, isEnumType.
      cbn [mbind option_bind typeDefOf]. rewrite Hscalar. reflexivity.
    + rewrite Htype. simpl. by rewrite Hscalar.
  - intros inherited Htype Hinherited Hproto Hscalar.
    destruct (scalarMap_inherited inherited Hinherited Hproto)
      as (source & _ & Hmapper & Hshape & Htruthy).
    exists source. split; [|split; [reflexivity|]].
    + unfold helperOnField. rewrite Hname.
      cbn [fmap option_fmap option_map]. rewrite Htype.
      cbn [fmap option_fmap option_map getNamedType namedTypeOf
           isListType isNonNullType orb andb negb mbind option_bind ofTypeOf].
      unfold isObjectType, isUnionType, isInterfaceType, isEnumType, typeName.
      cbn [mbind option_bind typeDefOf namedTypeOf]. rewrite Hscalar, Htruthy, Hshape.
      reflexivity.
    + rewrite Htype. simpl. by rewrite Hscalar, Hmapper.
Qed.

Lemma leaf_fields_render_as_type_mapper_witness :
  ∃ type,
    helper searchSchema ∅ 1 (Some (GNamed "Query")) (FieldNode (Some "all") "ids" None None)
    = ([], Ok (shapeEntry "all" type JUndefined))
    ∧ JsValue.toString <$> valueHelper (typed type JUndefined) = Ok "Array<string>".
Proof.
  apply (proj1 (leaf_fields_render_as_type_mapper searchSchema ∅ 0 (GNamed "Query") _
                  (mkFieldDef "ids" (GList (GNonNull (GNamed "ID"))) None [])
                  (Some "all") "ids" None eq_refl eq_refl eq_refl)).
  - reflexivity.
  - simpl. lia.
  - unfold leafType, plainName. cbn. split; [discriminate|].
    apply (bool_decide_unpack _). vm_compute. exact I.
Defined.

(** ** The signature of an operation *)

Definition dataDescription : JsVal :=
  JStr "Any data retrieved by the const function be returned here".

Definition errorsDescription : JsVal :=
  JStr "Any errors in the function will be returned here".

(** The text around the text of the data shape. *)
Definition envelopeText (data : JsVal) : string :=
  "{" +:+ Js.join ", " [fieldText "data" dataDescription data;
                        fieldText "errors" errorsDescription (JStr "Array<any>")] +:+ "}".

Lemma typeScriptDefinitionObjectForOperation_envelope schema fragmentDefinitions fuel
    operationDefinition log shape :
  typeScriptDefinitionObjectForOperation schema fragmentDefinitions fuel operationDefinition
  = (log, Ok shape) →
  ∃ dataType, shape = resultEnvelope dataType.
Proof.
  unfold typeScriptDefinitionObjectForOperation.
  destruct (def_selectionSet operationDefinition) as [selections|];
    [|intros [= _ <-]; eauto].
  do 2 (rewrite Logged_bind_eq;
        match goal with
        | |- context [match snd ?m with _ => _ end] => destruct m as [? [?| |]]
        end; cbn [fst snd]; [|discriminate..]).
  intros [= _ <-]. eauto.
Qed.

Lemma objectHelper_envelope dataType :
  objectHelper (resultEnvelope dataType)
  = (λ data, [fieldText "data" dataDescription data;
              fieldText "errors" errorsDescription (JStr "Array<any>")])
      <$> valueHelperOnType dataType.
Proof.
  unfold objectHelper, resultEnvelope. cbn [objectEntries mbind Outcome_bind].
  rewrite !Outcome_mapM_cons, Outcome_mapM_nil.
  change (valueHelper (JObj [("type", dataType); ("description", ?d)]))
    with (valueHelperOnType dataType).
  change (readProp "description" (JObj [("type", dataType); ("description", ?d)]))
    with (Ok d).
  destruct (valueHelperOnType dataType); reflexivity.
Qed.


(** ** The type mapper on types that refer to themselves *)

Lemma typeScriptForType_named fuel schema name :
  typeScriptForType fuel schema (GNamed name) =
  match typeMap schema !! name with
  | Some (ObjectDef fs) | Some (InputObjectDef fs) =>
      match fuel with
      | O => OutOfFuel
      | S fuel' =>
          fields ← mapM (λ field,
            let nullable := negb (isNonNullType (Some (field_type field))) in
            type ← typeScriptForType fuel' schema (field_type field);
            let description := docComment (field_description field) in
            Ok (description +:+ quoted (field_name field) +:+
                (if nullable then "?" else "") +:+ ": " +:+ type)) fs;
          Ok ("{" +:+ Js.join ", " fields +:+ "}")
      end
  | Some (EnumDef values) => Ok (Js.join " | " ((λ value, quoted value) <$> values))
  | _ => Ok (JsValue.toString (orAny (scalarMap name)))
  end.
Proof. destruct fuel; reflexivity. Qed.

Lemma Outcome_mapM_Throw {A B} (f : A → Outcome B) l e :
  mapM f l = Throw e → ∃ x, x ∈ l ∧ f x = Throw e.
Proof.
  induction l as [|x l IH]; [discriminate|].
  rewrite Outcome_mapM_cons. destruct (f x) as [y| e'|] eqn:Hx; simpl.
  - destruct (mapM f l) as [k| e'|]; simpl; try discriminate.
    intros [= ->]. destruct IH as (x' & Hin & Hx'); [reflexivity|].
    exists x'. split; [by right|exact Hx'].
  - intros [= ->]. exists x. split; [by left|exact Hx].
  - discriminate.
Qed.

Lemma Outcome_mapM_OutOfFuel {A B} (f : A → Outcome B) l x :
  x ∈ l → f x = OutOfFuel → (∀ y e, y ∈ l → f y ≠ Throw e) → mapM f l = OutOfFuel.
Proof.
  intros Hin Hx Hnever. destruct (mapM f l) as [k| e|] eqn:Hl; [| |reflexivity].
  - assert (isOk (mapM f l) = true) as Hok by by rewrite Hl.
    apply Outcome_mapM_isOk in Hok. rewrite Forall_forall in Hok.
    specialize (Hok x Hin). by rewrite Hx in Hok.
  - apply Outcome_mapM_Throw in Hl as (y & Hy & Hthrow). by apply Hnever in Hthrow.
Qed.

(** The type mapper has no exception of its own. *)
Lemma typeScriptForType_never_throws fuel schema t e :
  typeScriptForType fuel schema t ≠ Throw e.
Proof.
  revert t. induction fuel as [|fuel IHfuel]; intros t.
  - induction t as [n|t IH|t IH].
    + rewrite typeScriptForType_named. by destruct (typeMap schema !! n) as [[]|].
    + rewrite typeScriptForType_list. by destruct (typeScriptForType 0 schema t).
    + by rewrite typeScriptForType_nonnull.
  - induction t as [n|t IH|t IH].
    + rewrite typeScriptForType_named.
      assert (∀ fs, (fields ← mapM (λ field,
                 let nullable := negb (isNonNullType (Some (field_type field))) in
                 type ← typeScriptForType fuel schema (field_type field);
                 let description := docComment (field_description field) in
                 Ok (description +:+ quoted (field_name field) +:+
                     (if nullable then "?" else "") +:+ ": " +:+ type)) fs;
               Ok ("{" +:+ Js.join ", " fields +:+ "}")) ≠ Throw e) as Hfields.
      { intros fs. destruct (mapM _ fs) as [k| e'|] eqn:Hfs; simpl; try discriminate.
        apply Outcome_mapM_Throw in Hfs as (field & _ & Hfield). cbv zeta in Hfield.
        pose proof (IHfuel (field_type field)) as Hnever.
        destruct (typeScriptForType fuel schema (field_type field)); simpl in Hfield;
          congruence. }
      destruct (typeMap schema !! n) as [[]|]; try done; apply Hfields.
    + rewrite typeScriptForType_list.
      by destruct (typeScriptForType (S fuel) schema t).
    + by rewrite typeScriptForType_nonnull.
Qed.

(** [name] is an object or input object type, one of whose fields has a
    named type in [P]. *)
Definition entersAgain (schema : Schema) (P : string → Prop) (name : string) : Prop :=
  ∃ fields field,
    (typeMap schema !! name = Some (ObjectDef fields)
     ∨ typeMap schema !! name = Some (InputObjectDef fields))
    ∧ field ∈ fields ∧ P (typeName (field_type field)).

Lemma typeName_named t : namedTypeOf t = GNamed (typeName t).
Proof. unfold typeName. by destruct (namedTypeOf_named t) as [n ->]. Qed.

Lemma typeScriptForType_recursive schema (P : string → Prop) :
  (∀ name, P name → entersAgain schema P name) →
  ∀ fuel t, P (typeName t) → typeScriptForType fuel schema t = OutOfFuel.
Proof.
  intros Hclosed fuel. induction fuel as [|fuel IH]; intros t Ht.
  - rewrite typeScriptForType_unwraps, typeName_named, typeScriptForType_named.
    destruct (Hclosed _ Ht) as (fields & field & [->| ->] & _); reflexivity.
  - rewrite typeScriptForType_unwraps, typeName_named, typeScriptForType_named.
    destruct (Hclosed _ Ht) as (fields & field & Hlookup & Hfield & Hnext).
    assert (mapM (λ field,
                 let nullable := negb (isNonNullType (Some (field_type field))) in
                 type ← typeScriptForType fuel schema (field_type field);
                 let description := docComment (field_description field) in
                 Ok (description +:+ quoted (field_name field) +:+
                     (if nullable then "?" else "") +:+ ": " +:+ type)) fields
            = OutOfFuel) as Hfields.
    { apply Outcome_mapM_OutOfFuel with field; [exact Hfield| |].
      - cbv zeta. by rewrite (IH _ Hnext).
      - intros y e _. cbv zeta.
        pose proof (typeScriptForType_never_throws fuel schema (field_type y) e).
        destruct (typeScriptForType fuel schema (field_type y)); simpl; congruence. }
    destruct Hlookup as [-> | ->]; by rewrite Hfields.
Qed.

(** X12: the type mapper recurses into the fields of object and input
    object types without remembering where it has been.  On a type from
    which the fields lead back into a set of types that refer to one
    another (a type with a field of its own type is the smallest such
    set), it returns for no depth of recursion; and neither does the
    variable signature builder when a retained variable is declared with
    such a type. *)
Theorem recursive_types_never_map :
  ∀ schema (P : string → Prop),
    (∀ name, P name → entersAgain schema P name) →
    (∀ fuel t, P (typeName t) → typeScriptForGraphQLType fuel schema (Some t) = OutOfFuel)
    ∧ (∀ fuel variableNames operationDefinition variableDefinition t,
         variableDefinition ∈ declaredVariables operationDefinition →
         variable_name variableDefinition ∈ variableNames →
         wellFormedTypeNode (variable_type variableDefinition) = true →
         typeFromAST schema (variable_type variableDefinition) = Some t →
         P (typeName t) →
         isOk (typeScriptSignatureForOperationVariables fuel variableNames schema
                 operationDefinition) = false).
Proof.
  intros schema P Hclosed. split.
  - intros fuel t Ht. by apply typeScriptForType_recursive with P.
  - intros fuel variableNames operationDefinition variableDefinition t Hdeclared Hname Hwf
      Htype Ht.
    rewrite typeScriptSignatureForOperationVariables_eq, retainedVariables_filter.
    destruct (mapM _ _) as [typesObject| |] eqn:Hmap; [|reflexivity..].
    assert (isOk (mapM (variableTsType fuel schema)
                    (typeScriptSignatureForOperationVariablesHelper <$>
                       filter (λ v, variable_name v ∈ variableNames)
                         (declaredVariables operationDefinition))) = true) as Hok
      by by rewrite Hmap.
    apply Outcome_mapM_isOk in Hok. rewrite Forall_fmap, Forall_forall in Hok.
    specialize (Hok variableDefinition).
    unfold compose, typeScriptSignatureForOperationVariablesHelper in Hok.
    cbv beta zeta in Hok.
    rewrite variableTsType_declared, Htype in Hok by exact Hwf.
    cbn [typeScriptForGraphQLType] in Hok.
    rewrite (typeScriptForType_recursive schema P Hclosed) in Hok by exact Ht.
    assert (variableDefinition
            ∈ filter (λ v, variable_name v ∈ variableNames)
                (declaredVariables operationDefinition)) as Hretained
      by (apply list_elem_of_filter; by split).
    apply Hok in Hretained. discriminate Hretained.
Qed.

Lemma recursive_types_never_map_witness :
  typeScriptForGraphQLType 1000 searchSchema (Some (GList (GNamed "User"))) = OutOfFuel.
Proof.
  apply (proj1 (recursive_types_never_map searchSchema (λ name, name = "User")
                  ltac:(intros name ->;
                        exists [mkFieldDef "id" (GNonNull (GNamed "ID")) None [];
                                mkFieldDef "name" (GNamed "String") (Some "Display name") [];
                                mkFieldDef "friend" (GNamed "User") None [];
                                mkFieldDef "favorite" (GNamed "Color") None [];
                                mkFieldDef "oid" (GNamed "GitHubGitObjectID") None []],
                          (mkFieldDef "friend" (GNamed "User") None []);
                        split; [left; reflexivity|];
                        split; [do 2 right; left|reflexivity]))).
  reflexivity.
Defined.

(** ** [gatherVariableDefinitions] and the order of the declarations *)

Lemma gatherVariableDefinitions_eq localeCompare definition :
  gatherVariableDefinitions localeCompare definition
  = arraySort (λ l r : string * string, localeCompare l.1 r.1)
      (extractVariableNameStringPair <$> declaredBy definition).
Proof.
  unfold gatherVariableDefinitions, declaredBy, declaredVariables.
  destruct definition as [d|]; [|reflexivity].
  destruct (def_variableDefinitions d); reflexivity.
Qed.

Lemma NoDup_fst_agree {A B} (l : list (A * B)) p q :
  NoDup l.*1 → p ∈ l → q ∈ l → p.1 = q.1 → p = q.
Proof.
  induction l as [|e l IH]; intros Hnd Hp Hq Hpq; [by apply elem_of_nil in Hp|].
  rewrite fmap_cons in Hnd. apply NoDup_cons in Hnd as [He Hnd].
  apply elem_of_cons in Hp as [->|Hp], Hq as [->|Hq].
  - reflexivity.
  - destruct He. rewrite Hpq. apply list_elem_of_fmap. by exists q.
  - destruct He. rewrite <- Hpq. apply list_elem_of_fmap. by exists p.
  - by apply IH.
Qed.

(** X13: under a collation that is a total order on the names, two
    definitions that declare the same variables, each name once, give
    the same list of pairs, however the declarations are arranged. *)
Theorem gathered_pairs_ignore_declaration_order :
  ∀ (localeCompare : string → string → Z),
    (∀ a b, localeCompare a b ≤ 0 ∨ localeCompare b a ≤ 0) →
    (∀ a b c, localeCompare a b ≤ 0 → localeCompare b c ≤ 0 → localeCompare a c ≤ 0) →
    (∀ a b, localeCompare a b ≤ 0 → localeCompare b a ≤ 0 → a = b) →
    ∀ definition definition',
      NoDup (variable_name <$> declaredBy definition) →
      declaredBy definition ≡ₚ declaredBy definition' →
      gatherVariableDefinitions localeCompare definition
      = gatherVariableDefinitions localeCompare definition'.
Proof.
  intros localeCompare Htotal Htrans Hantisym definition definition' Hnames Hsame.
  rewrite !gatherVariableDefinitions_eq.
  set (compareFn := λ l r : string * string, localeCompare l.1 r.1).
  set (pairs := extractVariableNameStringPair <$> declaredBy definition).
  set (pairs' := extractVariableNameStringPair <$> declaredBy definition').
  assert (pairs ≡ₚ pairs') as Hpairs by by apply fmap_Permutation.
  assert (NoDup pairs.*1) as Hnd.
  { subst pairs. by rewrite <- list_fmap_compose. }
  apply (StronglySorted_unique_strong (notAfter compareFn)).
  - intros p q Hp Hq Hpq Hqp.
    apply (NoDup_fst_agree pairs); [exact Hnd| | |by apply Hantisym].
    + by rewrite <- (arraySort_Permutation compareFn pairs).
    + by rewrite Hpairs, <- (arraySort_Permutation compareFn pairs').
  - apply arraySort_StronglySorted; [intros a b; apply Htotal|intros a b c; apply Htrans].
  - apply arraySort_StronglySorted; [intros a b; apply Htotal|intros a b c; apply Htrans].
  - by rewrite !arraySort_Permutation.
Qed.

Lemma codeUnitCompare_antisym a b :
  codeUnitCompare a b ≤ 0 → codeUnitCompare b a ≤ 0 → a = b.
Proof.
  unfold codeUnitCompare. rewrite (String.compare_antisym b a).
  destruct (String.compare a b) eqn:Hab; simpl; try lia.
  intros _ _. by apply String.compare_eq_iff.
Qed.

(** [query Q($a: [Int], $b: String!) { field }]. *)
Definition twoVariables : DefinitionNode :=
  OperationDefinitionNode OpQuery (Some "Q")
    (Some [mkVariableDefinition "a" (ListTypeNode (NamedTypeNode "Int")) None;
           mkVariableDefinition "b" (NonNullTypeNode (NamedTypeNode "String")) None])
    (Some [FieldNode None "field" (Some []) None]).

Lemma gathered_pairs_ignore_declaration_order_witness :
  gatherVariableDefinitions codeUnitCompare (Some twoVariablesReversed)
  = gatherVariableDefinitions codeUnitCompare (Some twoVariables).
Proof.
  apply (gathered_pairs_ignore_declaration_order codeUnitCompare codeUnitCompare_total
           codeUnitCompare_trans codeUnitCompare_antisym).
  - simpl. apply NoDup_cons. split; [|apply NoDup_singleton].
    intros Hin. apply list_elem_of_singleton in Hin. discriminate Hin.
  - simpl. apply Permutation_swap.
Defined.

(** ** [getNpmInstallPackages] *)

(** [obj[name] === undefined] on an ordinary object, given as the list of
    its own properties. *)
Definition readsUndefined (obj : list (string * JsVal)) (name : string) : bool :=
  match List.find (λ p, String.eqb p.1 name) obj with
  | Some p => match p.2 with JUndefined => true | _ => false end
  | None => negb (bool_decide (name ∈ objectPrototypeNames))
  end.

(** [getNpmInstallPackages(existingPackages, neededPackages)].  Each
    argument is an ordinary object, given as the list of its own
    enumerable properties in the order of [Object.entries], or
    [undefined], for which the default [{}] stands in. *)
Definition getNpmInstallPackages (existingPackages neededPackages : option (list (string * JsVal)))
    : list string :=
  let existingPackages := default [] existingPackages in
  let neededPackages := default [] neededPackages in
  (λ '(name, version), name +:+ "@" +:+ JsValue.toString version)
    <$> filter (λ '(name, _), readsUndefined existingPackages name = true) neededPackages.

(** [name] is a property of [obj] with a value, its own or inherited. *)
Definition hasPackage (obj : list (string * JsVal)) (name : string) : Prop :=
  (∃ value, (name, value) ∈ obj ∧
            List.find (λ p, String.eqb p.1 name) obj = Some (name, value) ∧ value ≠ JUndefined)
  ∨ ((name ∉ obj.*1) ∧ name ∈ objectPrototypeNames).

Lemma find_key_None (obj : list (string * JsVal)) name :
  List.find (λ p, String.eqb p.1 name) obj = None ↔ name ∉ obj.*1.
Proof.
  induction obj as [|[k v] obj IH]; simpl.
  - split; [intros _ ?%elem_of_nil; done|done].
  - destruct (String.eqb k name) eqn:Hk.
    + apply String.eqb_eq in Hk as ->. split; [done|]. intros []. by left.
    + apply String.eqb_neq in Hk. rewrite IH, not_elem_of_cons. split; [|tauto].
      intros Hnot. split; [congruence|exact Hnot].
Qed.

Lemma find_key_Some (obj : list (string * JsVal)) name p :
  List.find (λ p, String.eqb p.1 name) obj = Some p → p.1 = name ∧ p ∈ obj.
Proof.
  intros Hfind. apply find_some in Hfind as [Hin Heq].
  apply String.eqb_eq in Heq. split; [exact Heq|]. by apply list_elem_of_In.
Qed.

Lemma readsUndefined_false obj name :
  readsUndefined obj name = false ↔ hasPackage obj name.
Proof.
  unfold readsUndefined, hasPackage.
  destruct (List.find _ obj) as [[k v]|] eqn:Hfind.
  - pose proof (find_key_Some _ _ _ Hfind) as [Hk Hin]. simpl in Hk. subst k.
    split.
    + intros Hv. left. exists v. repeat split; [exact Hin|]. by intros ->.
    + intros [(value & _ & [= <-] & Hvalue)|[Hnot _]].
      * simpl. by destruct v.
      * destruct Hnot. apply list_elem_of_fmap. by exists (name, v).
  - apply find_key_None in Hfind. rewrite negb_false_iff, bool_decide_eq_true.
    split; [by right|]. intros [(value & Hin & _)|[_ ?]]; [|done].
    destruct Hfind. apply list_elem_of_fmap. by exists (name, value).
Qed.

Lemma getNpmInstallPackages_eq existingPackages neededPackages :
  getNpmInstallPackages existingPackages neededPackages
  = (λ p : string * JsVal, p.1 +:+ "@" +:+ JsValue.toString p.2)
      <$> filter (λ p, readsUndefined (default [] existingPackages) p.1 = true)
            (default [] neededPackages).
Proof.
  unfold getNpmInstallPackages.
  induction (default [] neededPackages) as [|[n v] l IH]; [reflexivity|].
  rewrite !filter_cons. simpl. case_decide; [rewrite !fmap_cons|]; by rewrite IH.
Qed.

(** X14: [getNpmInstallPackages] goes through [neededPackages] in order
    and never adds or repeats a package: its result is a sub-list of the
    specifications [name@version] of all of them.  It returns nothing
    exactly when every needed name is a property of [existingPackages]
    with a value, and properties inherited from [Object.prototype] count
    (so with nothing installed, packages called [constructor] or
    [toString] are still left out).  Giving [existingPackages] more
    properties never adds to the result. *)
Theorem needed_packages_already_present_are_left_out :
  ∀ existingPackages neededPackages,
    let existing := default [] existingPackages in
    let needed := default [] neededPackages in
    getNpmInstallPackages existingPackages neededPackages
      `sublist_of` (λ p, p.1 +:+ "@" +:+ JsValue.toString p.2) <$> needed
    ∧ (getNpmInstallPackages existingPackages neededPackages = []
       ↔ Forall (λ p, hasPackage existing p.1) needed)
    ∧ (Forall (λ p, p.1 ∈ objectPrototypeNames) needed →
       getNpmInstallPackages None neededPackages = [])
    ∧ (∀ morePackages,
         (∀ name, hasPackage existing name → hasPackage morePackages name) →
         getNpmInstallPackages (Some morePackages) neededPackages
           `sublist_of` getNpmInstallPackages existingPackages neededPackages).
Proof.
  intros existingPackages neededPackages existing needed.
  rewrite !getNpmInstallPackages_eq. fold existing needed. cbn [default].
  split; [|split; [|split]].
  - apply fmap_sublist, sublist_filter.
  - rewrite <- (Forall_iff _ _ _ (λ p, readsUndefined_false existing p.1)).
    assert (filter (λ p, readsUndefined existing p.1 = true) needed = []
            ↔ Forall (λ p, readsUndefined existing p.1 = false) needed) as <-.
    { induction needed as [|p l IH]; [split; [constructor|reflexivity]|].
      rewrite filter_cons, Forall_cons. destruct (readsUndefined existing p.1) eqn:Hp.
      - rewrite decide_True by reflexivity. split; [discriminate|]. by intros [? _].
      - rewrite decide_False by discriminate. rewrite IH. tauto. }
    split; [apply fmap_nil_inv|by intros ->].
  - intros Hinherited. induction Hinherited as [|p l Hp _ IH]; [reflexivity|].
    rewrite filter_cons. rewrite decide_False; [exact IH|].
    unfold readsUndefined. simpl. rewrite bool_decide_true by exact Hp. discriminate.
  - intros morePackages Hmore. rewrite getNpmInstallPackages_eq. cbn [default from_option id]. fold needed.
    apply fmap_sublist.
    induction needed as [|p l IH]; [reflexivity|].
    rewrite !filter_cons.
    destruct (readsUndefined morePackages p.1) eqn:Hp.
    + rewrite decide_True by reflexivity.
      destruct (readsUndefined existing p.1) eqn:Hp'.
      * rewrite decide_True by reflexivity. by apply sublist_skip.
      * apply readsUndefined_false, Hmore, readsUndefined_false in Hp'. congruence.
    + rewrite decide_False by discriminate.
      case_decide; [by apply sublist_cons|exact IH].
Qed.

Lemma needed_packages_already_present_are_left_out_witness :
  getNpmInstallPackages None
    (Some [("constructor", JStr "1.0.0"); ("toString", JStr "2.0.0")]) = [].
Proof.
  apply (proj1 (proj2 (proj2 (needed_packages_already_present_are_left_out None
           (Some [("constructor", JStr "1.0.0"); ("toString", JStr "2.0.0")]))))).
  apply (bool_decide_unpack _). vm_compute. exact I.
Defined.

(** ** Payload type names *)

Lemma upperAscii_idemp c : upperAscii (upperAscii c) = upperAscii c.
Proof. destruct c as [[] [] [] [] [] [] [] []]; reflexivity. Qed.

Lemma string_app_inv_tail (a b s : string) : a +:+ s = b +:+ s → a = b.
Proof.
  revert b. induction a as [|c a IH]; intros [|c' b] H.
  - reflexivity.
  - apply (f_equal String.length) in H. rewrite !string_length_app in H. simpl in H. lia.
  - apply (f_equal String.length) in H. rewrite !string_length_app in H. simpl in H. lia.
  - rewrite !string_app_cons in H. injection H as -> H. f_equal. by apply IH.
Qed.


(** ** The patchers on the object graph and on the document *)

(** X16: on an object graph in which the reference given reads as the
    definition [d], each patcher returns a reference that, in the store
    it leaves, reads as the definition that the patcher on documents
    returns for [d]; and it throws exactly when, and what, the patcher
    on documents throws for [d]. *)
Theorem store_patchers_compute_document_patch :
  ∀ schema h fuel definition d,
    Store.loadDefinition h (S (S fuel)) definition = Some d →
    let url := Store.patchSubscriptionWebhookField schema definition h in
    let secret := Store.patchSubscriptionWebhookSecretField schema definition h in
    matches (λ h v, Store.loadDefinition h (S (S fuel)) v)
      (patchSubscriptionWebhookField schema d) url.1 url.2
    ∧ matches (λ h v, Store.loadDefinition h (S (S fuel)) v)
        (patchSubscriptionWebhookSecretField schema d) secret.1 secret.2.
Proof.
  intros schema h fuel definition d Hload url secret. split.
  - apply (patchDefinition_refines webhookUrlNames schema h fuel definition d Hload).
  - apply (patchDefinition_refines webhookSecretNames schema h fuel definition d Hload).
Qed.

Lemma store_patchers_compute_document_patch_witness :
  ∃ input before,
    Store.storeDefinition itemSubscription [] = (Ok input, before)
    ∧ ∃ output,
        (Store.patchSubscriptionWebhookField itemSchema input before).1 = Ok output
        ∧ Store.loadDefinition (Store.patchSubscriptionWebhookField itemSchema input before).2
            3 output
          = Some itemSubscriptionPatched.
Proof.
  destruct (Store.storeDefinition itemSubscription []) as [[input| |] before] eqn:Hstore;
    try (vm_compute in Hstore; discriminate Hstore).
  exists input, before. split; [reflexivity|].
  assert (Store.loadDefinition before 3 input = Some itemSubscription) as Hload.
  { vm_compute in Hstore. injection Hstore as <- <-. vm_compute. reflexivity. }
  pose proof (proj1 (store_patchers_compute_document_patch itemSchema before 1 input
                       itemSubscription Hload)) as Hurl.
  assert (patchSubscriptionWebhookField itemSchema itemSubscription
          = Ok itemSubscriptionPatched) as Hpatched by (vm_compute; reflexivity).
  rewrite Hpatched in Hurl. exact Hurl.
Defined.

(** ** Inline fragments at the top level *)

Lemma fromEntries_undefined items :
  JUndefined ∈ items → JsValue.fromEntries items = Throw TypeError.
Proof.
  unfold JsValue.fromEntries. generalize (@nil (string * JsVal)).
  induction items as [|item items IH]; intros props Hin; [by apply elem_of_nil in Hin|].
  simpl. destruct (JsValue.isObject item) eqn:Hitem; [|reflexivity].
  apply IH. apply elem_of_cons in Hin as [<-|Hin]; [discriminate|exact Hin].
Qed.

(** X17: the shape builder does not handle an inline fragment among the
    top-level selections of an operation, whatever the schema: with the
    root type present [helper] reads the name of the selection, which an
    inline fragment does not have, and throws; with the root type absent
    [Object.fromEntries] throws.  So neither the shape builder nor the
    signature built from it returns, for any depth of recursion. *)
Theorem top_level_inline_fragment_never_returns :
  ∀ schema fragmentDefinitions fuel operationDefinition selections typeCondition selectionSet,
    def_selectionSet operationDefinition = Some selections →
    InlineFragmentNode typeCondition selectionSet ∈ selections →
    isOk (typeScriptDefinitionObjectForOperation schema fragmentDefinitions fuel
            operationDefinition).2 = false
    ∧ isOk (typeScriptSignatureForOperation fuel schema operationDefinition
              fragmentDefinitions).2 = false.
Proof.
  intros schema fragmentDefinitions fuel operationDefinition selections typeCondition
    selectionSet Hselections Hinline.
  assert (isOk (typeScriptDefinitionObjectForOperation schema fragmentDefinitions fuel
                  operationDefinition).2 = false) as Hshape.
  { unfold typeScriptDefinitionObjectForOperation. rewrite Hselections.
    destruct (baseGqlTypeOf schema operationDefinition) as [parentType|].
    - apply Logged_bind_not_Ok.
      eapply Logged_mapM_not_Ok; [exact Hinline|].
      destruct fuel as [|fuel]; [reflexivity|].
      rewrite helper_unfold. cbn [sel_name].
      by destruct (getFields schema (namedTypeOf parentType)).
    - destruct fuel as [|fuel].
      + apply Logged_bind_not_Ok.
        eapply Logged_mapM_not_Ok; [exact Hinline|reflexivity].
      + rewrite helper_absent_parent, Logged_bind_quiet.
        rewrite fromEntries_undefined; [reflexivity|].
        apply elem_of_replicate. split; [reflexivity|].
        destruct selections; [by apply elem_of_nil in Hinline|discriminate]. }
  split; [exact Hshape|].
  unfold typeScriptSignatureForOperation, typeScriptForOperation.
  by do 2 apply Logged_bind_not_Ok.
Qed.

(** [query { ... on Query { me { id } } }]. *)
Definition inlineFragmentQuery : DefinitionNode :=
  OperationDefinitionNode OpQuery None None
    (Some [InlineFragmentNode (Some "Query")
             [FieldNode None "me" None (Some [FieldNode None "id" None None])]]).

Lemma top_level_inline_fragment_never_returns_witness :
  isOk (typeScriptSignatureForOperation 10 searchSchema inlineFragmentQuery ∅).2 = false.
Proof.
  apply (top_level_inline_fragment_never_returns searchSchema ∅ 10 inlineFragmentQuery
           _ (Some "Query") [FieldNode None "me" None (Some [FieldNode None "id" None None])]
           eq_refl).
  by left.
Defined.

(** ** The type mapper on schemas without cycles *)

Section Stratified.
Variable schema : Schema.
(** A rank that goes down from each object or input object type to the
    named types of its fields. *)
Variable rank : string → nat.
Hypothesis rank_decreases :
  ∀ name fields field,
    typeMap schema !! name = Some (ObjectDef fields)
    ∨ typeMap schema !! name = Some (InputObjectDef fields) →
    field ∈ fields →
    (rank (typeName (field_type field)) < rank name)%nat.

Lemma Outcome_mapM_uniform {A B} (f : nat → A → Outcome B) (bound : nat) (l : list A) :
  (∀ x, x ∈ l → ∃ y, ∀ fuel, (bound ≤ fuel)%nat → f fuel x = Ok y) →
  ∃ k, ∀ fuel, (bound ≤ fuel)%nat → mapM (f fuel) l = Ok k.
Proof.
  induction l as [|x l IH]; intros Hall.
  - exists []. reflexivity.
  - destruct (Hall x) as [y Hy]; [by left|].
    destruct IH as [k Hk]; [intros x' Hx'; apply Hall; by right|].
    exists (y :: k). intros fuel Hfuel.
    by rewrite Outcome_mapM_cons, (Hy fuel Hfuel), (Hk fuel Hfuel).
Qed.

Lemma typeScriptForType_stratified (r : nat) :
  ∀ t, (rank (typeName t) < r)%nat →
       ∃ text, ∀ fuel, (rank (typeName t) < fuel)%nat →
                       typeScriptForType fuel schema t = Ok text.
Proof.
  induction r as [|r IH]; intros t Hr; [lia|].
  assert (∃ text, ∀ fuel, (rank (typeName t) < fuel)%nat →
            typeScriptForType fuel schema (GNamed (typeName t)) = Ok text) as [text Htext].
  { set (name := typeName t) in *.
    assert (∀ fields,
              typeMap schema !! name = Some (ObjectDef fields)
              ∨ typeMap schema !! name = Some (InputObjectDef fields) →
              ∃ k, ∀ fuel, (rank name ≤ fuel)%nat →
                mapM (λ field,
                   let nullable := negb (isNonNullType (Some (field_type field))) in
                   type ← typeScriptForType fuel schema (field_type field);
                   let description := docComment (field_description field) in
                   Ok (description +:+ quoted (field_name field) +:+
                       (if nullable then "?" else "") +:+ ": " +:+ type)) fields
                = Ok k) as Hfields.
    { intros fields Hlookup.
      apply (Outcome_mapM_uniform
               (λ fuel field,
                  let nullable := negb (isNonNullType (Some (field_type field))) in
                  type ← typeScriptForType fuel schema (field_type field);
                  let description := docComment (field_description field) in
                  Ok (description +:+ quoted (field_name field) +:+
                      (if nullable then "?" else "") +:+ ": " +:+ type))
               (rank name) fields).
      intros field Hfield.
      pose proof (rank_decreases name fields field Hlookup Hfield) as Hlt.
      destruct (IH (field_type field)) as [type Htype]; [lia|].
      eexists. intros fuel Hfuel. cbv zeta. rewrite Htype by lia. reflexivity. }
    destruct (typeMap schema !! name) as [[|values|fields|fields| |]|] eqn:Htype.
    - eexists. intros fuel _. by rewrite typeScriptForType_named, Htype.
    - eexists. intros fuel _. by rewrite typeScriptForType_named, Htype.
    - destruct (Hfields fields) as [k Hk]; [by left|].
      exists ("{" +:+ Js.join ", " k +:+ "}"). intros [|fuel] Hfuel; [lia|].
      rewrite typeScriptForType_named, Htype, Hk by lia. reflexivity.
    - destruct (Hfields fields) as [k Hk]; [by right|].
      exists ("{" +:+ Js.join ", " k +:+ "}"). intros [|fuel] Hfuel; [lia|].
      rewrite typeScriptForType_named, Htype, Hk by lia. reflexivity.
    - eexists. intros fuel _. by rewrite typeScriptForType_named, Htype.
    - eexists. intros fuel _. by rewrite typeScriptForType_named, Htype.
    - eexists. intros fuel _. by rewrite typeScriptForType_named, Htype. }
  exists (nestArrayText (listDepth t) text). intros fuel Hfuel.
  by rewrite typeScriptForType_unwraps, typeName_named, (Htext fuel Hfuel).
Qed.
End Stratified.

(** X18: on a schema whose object and input object types can be ranked
    so that every field's named type ranks below the type that has the
    field (no type leads back to itself), the type mapper returns for
    every type, and the variable signature builder for every operation
    whose retained variables are declared with type references of the
    grammar: each has a result that any recursion depth beyond the rank
    gives. *)
Theorem stratified_types_always_map :
  ∀ schema (rank : string → nat),
    (∀ name fields field,
       typeMap schema !! name = Some (ObjectDef fields)
       ∨ typeMap schema !! name = Some (InputObjectDef fields) →
       field ∈ fields →
       (rank (typeName (field_type field)) < rank name)%nat) →
    (∀ gqlType, ∃ text, ∀ fuel,
       (match gqlType with Some t => rank (typeName t) | None => 0 end < fuel)%nat →
       typeScriptForGraphQLType fuel schema gqlType = Ok text)
    ∧ (∀ variableNames operationDefinition,
         Forall (λ v, wellFormedTypeNode (variable_type v) = true)
           (filter (λ v, variable_name v ∈ variableNames)
              (declaredVariables operationDefinition)) →
         ∃ text bound, ∀ fuel, (bound < fuel)%nat →
           typeScriptSignatureForOperationVariables fuel variableNames schema
             operationDefinition = Ok text).
Proof.
  intros schema rank Hrank.
  assert (∀ gqlType, ∃ text, ∀ fuel,
            (match gqlType with Some t => rank (typeName t) | None => 0 end < fuel)%nat →
            typeScriptForGraphQLType fuel schema gqlType = Ok text) as Htypes.
  { intros [t|]; [|by exists "any"].
    apply (typeScriptForType_stratified schema rank Hrank (S (rank (typeName t)))). lia. }
  split; [exact Htypes|].
  intros variableNames operationDefinition.
  set (retained := filter _ _). intros Hwf.
  assert (∃ entries bound, ∀ fuel, (bound < fuel)%nat →
            mapM (variableTsType fuel schema)
              (typeScriptSignatureForOperationVariablesHelper <$> retained) = Ok entries)
    as (entries & bound & Hentries).
  { induction Hwf as [|v l Hv _ (entries & bound & IH)].
    - exists [], 0%nat. reflexivity.
    - destruct (Htypes (typeFromAST schema (variable_type v))) as [text Htext].
      exists ((variable_name v, text) :: entries).
      exists (bound `max` match typeFromAST schema (variable_type v) with
                          | Some t => rank (typeName t)
                          | None => 0
                          end)%nat.
      intros fuel Hfuel. rewrite fmap_cons, Outcome_mapM_cons.
      change (typeScriptSignatureForOperationVariablesHelper v) with (variable_name v, v).
      rewrite variableTsType_declared, Htext, IH by (exact Hv || lia). reflexivity. }
  eexists. exists bound. intros fuel Hfuel.
  rewrite typeScriptSignatureForOperationVariables_eq, retainedVariables_filter.
  fold retained. rewrite (Hentries fuel Hfuel). reflexivity.
Qed.

(** A schema without cycles, for the example: [Filter] has fields of the
    input type [Range] and of scalars. *)
Definition filterSchema : Schema :=
  mkSchema
    (list_to_map
       [("String", ScalarDef); ("Int", ScalarDef);
        ("Range", InputObjectDef [mkFieldDef "min" (GNamed "Int") None [];
                                  mkFieldDef "max" (GNamed "Int") None []]);
        ("Filter", InputObjectDef [mkFieldDef "name" (GNamed "String") None [];
                                   mkFieldDef "size" (GNonNull (GNamed "Range")) None []]);
        ("Query", ObjectDef [mkFieldDef "field" (GNamed "String") None []])])
    (Some "Query") None None.

Definition filterRank (name : string) : nat :=
  if String.eqb name "Filter" then 2
  else if String.eqb name "Range" || String.eqb name "Query" then 1 else 0.

Lemma filterSchema_ranked name fields field :
  typeMap filterSchema !! name = Some (ObjectDef fields)
  ∨ typeMap filterSchema !! name = Some (InputObjectDef fields) →
  field ∈ fields →
  (filterRank (typeName (field_type field)) < filterRank name)%nat.
Proof.
  intros Hlookup Hfield.
  unfold filterSchema in Hlookup. cbn [typeMap list_to_map foldr fst snd] in Hlookup.
  repeat match type of Hlookup with
         | context [<[?k:=_]> _ !! name] =>
             destruct (decide (k = name)) as [<-|Hne];
               [rewrite lookup_insert_eq in Hlookup
               |rewrite (lookup_insert_ne _ _ _ _ Hne) in Hlookup; clear Hne]
         end.
  all: try (rewrite lookup_empty in Hlookup).
  all: destruct Hlookup as [Hlookup|Hlookup]; try discriminate Hlookup.
  all: injection Hlookup as <-.
  all: repeat (apply elem_of_cons in Hfield as [->|Hfield]; [vm_compute; lia|]).
  all: by apply elem_of_nil in Hfield.
Qed.

Lemma stratified_types_always_map_witness :
  ∃ text, ∀ fuel, (2 < fuel)%nat →
    typeScriptForGraphQLType fuel filterSchema (Some (GList (GNamed "Filter"))) = Ok text.
Proof.
  apply (proj1 (stratified_types_always_map filterSchema filterRank filterSchema_ranked)
           (Some (GList (GNamed "Filter")))).
Defined.

(** ** Variables of types the schema does not have *)

(** The name under the wrappers of a type reference. *)
Fixpoint namedTypeNodeOf (t : TypeNode) : string :=
  match t with
  | NamedTypeNode name => name
  | ListTypeNode t' | NonNullTypeNode t' => namedTypeNodeOf t'
  end.

Lemma typeFromAST_None schema t :
  typeFromAST schema t = None ↔ typeMap schema !! namedTypeNodeOf t = None.
Proof.
  induction t as [name|t IH|t IH]; simpl.
  - unfold getType. by destruct (typeMap schema !! name).
  - rewrite <- IH. by destruct (typeFromAST schema t).
  - rewrite <- IH. by destruct (typeFromAST schema t).
Qed.

(** X19: a retained variable whose declared type names a type the schema
    does not have gets the type [any], wrappers included: [[Missing!]!]
    is [any], not [Array<any>].  When this holds of every retained
    variable (their declared types being type references of the
    grammar), the signature is the list of ["name": any], whatever the
    recursion depth. *)
Theorem unknown_variable_types_map_to_any :
  ∀ fuel variableNames schema operationDefinition,
    let retained :=
      filter (λ v, variable_name v ∈ variableNames) (declaredVariables operationDefinition) in
    Forall (λ v, wellFormedTypeNode (variable_type v) = true
                 ∧ typeMap schema !! namedTypeNodeOf (variable_type v) = None) retained →
    typeScriptSignatureForOperationVariables fuel variableNames schema operationDefinition
    = Ok ("{" +:+ Js.join ", " ((λ v, quoted (variable_name v) +:+ ": any") <$> retained)
          +:+ "}").
Proof.
  intros fuel variableNames schema operationDefinition retained Hunknown.
  rewrite typeScriptSignatureForOperationVariables_eq, retainedVariables_filter.
  fold retained.
  assert (mapM (variableTsType fuel schema)
            (typeScriptSignatureForOperationVariablesHelper <$> retained)
          = Ok ((λ v, (variable_name v, "any")) <$> retained)) as ->.
  { induction Hunknown as [|v l [Hwf Hmissing] _ IH]; [reflexivity|].
    rewrite !fmap_cons, Outcome_mapM_cons, IH.
    change (typeScriptSignatureForOperationVariablesHelper v) with (variable_name v, v).
    rewrite variableTsType_declared by exact Hwf.
    apply typeFromAST_None in Hmissing. rewrite Hmissing. reflexivity. }
  simpl. do 4 f_equal. rewrite <- list_fmap_compose. reflexivity.
Qed.

(** [query Q($ids: [Missing!]!) { field }]. *)
Definition missingTypeQuery : DefinitionNode :=
  OperationDefinitionNode OpQuery (Some "Q")
    (Some [mkVariableDefinition "ids"
             (NonNullTypeNode (ListTypeNode (NonNullTypeNode (NamedTypeNode "Missing")))) None])
    (Some [FieldNode None "field" (Some []) None]).

Lemma unknown_variable_types_map_to_any_witness :
  typeScriptSignatureForOperationVariables 0 ["ids"] scenarioSchema missingTypeQuery
  = Ok ("{" +:+ quoted "ids" +:+ ": any}").
Proof.
  apply (unknown_variable_types_map_to_any 0 ["ids"] scenarioSchema missingTypeQuery).
  vm_compute. repeat constructor.
Defined.
